(** * DevDesk conversion workers and WorkerManager: a shallow embedding

    The development follows the TypeScript sources:

    - the Excel worker ([enforceTabularLimits], [flattenObject],
      [sanitizeForTabular], [emitPreviewChunks], [self.onmessage]) and its
      copy in the CSV worker;
    - [WorkerManager] ([init], [postMessage], [executePostMessage],
      [cancelAll], [isCancelledError]) together with the parts of the host
      (timers, promises, the worker's inbox) that its methods act on.
    - what surrounds them: the progress callback and the download name of
      the converter page, [utils/fileName], the editable preview table
      ([TanStackDataTable]) and the rows of the JSON tree view
      ([VirtualizedJsonTree]).

    Rows are JSON values.  An object value is the list of the object's own
    enumerable properties in enumeration order; an object being filled also
    has its prototype, which an assignment to [__proto__] can replace.  A
    number is a binary64 value.  A string is a sequence of 8-bit code
    units, and its [length] is the number of units. *)

From Stdlib Require Import Floats.PrimFloat Floats.FloatOps Floats.SpecFloat.
From stdpp Require Import base option list strings gmap pretty sorting.
From Equations Require Import Equations.

Open Scope string_scope.
Open Scope list_scope.
Open Scope nat_scope.
Set Warnings "-register-all,-clear-no-such-hyp,-inexact-float".

(** ** Numbers

    A JavaScript number is an IEEE 754 binary64 value.  [toString] is
    Number::toString of ECMAScript for radix 10: the shortest decimal that
    reads back as the same number, the closest such decimal when there are
    several, printed with an exponent when its magnitude is below 1e-6 or
    at least 1e21. *)

Module Number.

Definition t : Set := float.

(** The number an integer literal denotes: the binary64 value nearest to it. *)
Definition of_Z (z : Z) : t := SF2Prim (binary_normalize prec emax z 0 false).

(** [a / b <= c / d] and [a / b < c / d], for positive [b] and [d]. *)
Definition qle (a b c d : Z) : bool := (a * d <=? c * b)%Z.
Definition qlt (a b c d : Z) : bool := (a * d <? c * b)%Z.

(** The least [j] with [den <= num * 10^j], counting up from [j]. *)
Fixpoint scale_up (fuel : nat) (num den : Z) (j : Z) : Z :=
  match fuel with
  | O => j
  | S fuel => if (den <=? num)%Z then j else scale_up fuel (10 * num) den (j + 1)
  end.

(** The number of decimal digits of a positive integer. *)
Fixpoint digits (fuel : nat) (z : Z) : Z :=
  match fuel with
  | O => 0
  | S fuel => if (z <? 10)%Z then 1 else (1 + digits fuel (z / 10))%Z
  end.

(** The [n] with [10^(n-1) <= num / den < 10^n]; a binary64 value has at
    most 309 digits before and 324 zeros after the point. *)
Definition decimal_exponent (num den : Z) : Z :=
  if (den <=? num)%Z then digits 400 (num / den)
  else (1 - scale_up 400 num den 0)%Z.

(** The decimal [s * 10^(n-k)], where [s] has [k] digits. *)
Record Decimal := mkDecimal { s : Z; n : Z; k : Z }.

Definition dnum (d : Decimal) : Z :=
  if (k d <=? n d)%Z then (s d * 10 ^ (n d - k d))%Z else s d.
Definition dden (d : Decimal) : Z :=
  if (k d <=? n d)%Z then 1%Z else (10 ^ (k d - n d))%Z.

(** [10^k * 10^(n-k)] written with [k] digits. *)
Definition carry (d : Decimal) : Decimal :=
  if (s d =? 10 ^ k d)%Z then mkDecimal (10 ^ (k d - 1)) (n d + 1) (k d) else d.

Section Shortest.

(** The positive number [m * 2^e], with [m] of at most 53 bits. *)
Variables (m e : Z).

Definition num : Z := if (0 <=? e)%Z then (m * 2 ^ e)%Z else m.
Definition den : Z := if (0 <=? e)%Z then 1%Z else (2 ^ (- e))%Z.
Definition ulp : Z := if (0 <=? e)%Z then (2 ^ e)%Z else 1%Z.

(** The number and the two ends of the interval of the reals that round
    to it, as fractions over [D]: half way to the next number, and half
    way to the previous one, which is nearer when the number is a power of
    two. *)
Definition D : Z := (4 * den)%Z.
Definition X : Z := (4 * num)%Z.
Definition HIGH : Z := (X + 2 * ulp)%Z.
Definition LOW : Z :=
  if ((m =? 2 ^ 52) && (-1074 <? e))%Z then (X - ulp)%Z else (X - 2 * ulp)%Z.

(** Round to nearest, ties to even: the ends of the interval round to the
    number when its mantissa is even. *)
Definition rounds_here (d : Decimal) : bool :=
  if Z.even m
  then qle LOW D (dnum d) (dden d) && qle (dnum d) (dden d) HIGH D
  else qlt LOW D (dnum d) (dden d) && qlt (dnum d) (dden d) HIGH D.

(** The distance of [d] to the number, over [D * dden d]. *)
Definition distance (d : Decimal) : Z := Z.abs (dnum d * D - X * dden d).

(** The two decimals of [k] digits around the number. *)
Definition candidates (n0 k : Z) : Decimal * Decimal :=
  let lo := if (k <=? n0)%Z then (num / (den * 10 ^ (n0 - k)))%Z
            else ((num * 10 ^ (k - n0)) / den)%Z in
  (mkDecimal lo n0 k, carry (mkDecimal (lo + 1) n0 k)).

(** Of the candidates that round to the number, the closer one; the even
    one when they are equally close. *)
Definition choose (lo hi : Decimal) : option Decimal :=
  match rounds_here lo, rounds_here hi with
  | true, true =>
      let dlo := (distance lo * dden hi)%Z in
      let dhi := (distance hi * dden lo)%Z in
      if (dlo <? dhi)%Z then Some lo
      else if (dhi <? dlo)%Z then Some hi
      else if Z.even (s lo) then Some lo else Some hi
  | true, false => Some lo
  | false, true => Some hi
  | false, false => None
  end.

(** The least [k] for which a candidate rounds to the number; 17 digits
    always do. *)
Fixpoint shortest_from (fuel : nat) (n0 k : Z) : Decimal :=
  match fuel with
  | O => mkDecimal 0 0 1
  | S fuel =>
      match choose (candidates n0 k).1 (candidates n0 k).2 with
      | Some d => d
      | None => shortest_from fuel n0 (k + 1)
      end
  end.

Definition shortest : Decimal := shortest_from 17 (decimal_exponent num den) 1.

End Shortest.

(** [s] without its trailing zeros, so that [k] is its number of digits. *)
Fixpoint strip_zeros (fuel : nat) (d : Decimal) : Decimal :=
  match fuel with
  | O => d
  | S fuel =>
      if ((1 <? k d) && (s d mod 10 =? 0))%Z
      then strip_zeros fuel (mkDecimal (s d / 10) (n d) (k d - 1))
      else d
  end.

Definition zeros (z : Z) : string :=
  String.string_of_list_ascii (replicate (Z.to_nat z) (Ascii.ascii_of_nat 48)).

Definition digits_of (z : Z) : string := pretty (Z.to_N z).

(** The text of [s * 10^(n-k)]: plain digits for [-5 <= n <= 21], with an
    exponent otherwise. *)
Definition format (d : Decimal) : string :=
  let ds := digits_of (s d) in
  let n := n d in
  let k := k d in
  if ((-5 <=? n) && (n <=? 21))%Z then
    if (k <=? n)%Z then ds +:+ zeros (n - k)
    else if (0 <? n)%Z
    then String.substring 0 (Z.to_nat n) ds +:+ "."
         +:+ String.substring (Z.to_nat n) (Z.to_nat (k - n)) ds
    else "0." +:+ zeros (- n) +:+ ds
  else
    let sign := if (0 <=? n - 1)%Z then "+" else "-" in
    let exponent := digits_of (Z.abs (n - 1)) in
    if (k =? 1)%Z then ds +:+ "e" +:+ sign +:+ exponent
    else String.substring 0 1 ds +:+ "." +:+ String.substring 1 (Z.to_nat (k - 1)) ds
         +:+ "e" +:+ sign +:+ exponent.

Definition toString (x : t) : string :=
  match Prim2SF x with
  | S754_nan => "NaN"
  | S754_zero _ => "0"
  | S754_infinity false => "Infinity"
  | S754_infinity true => "-Infinity"
  | S754_finite negative m e =>
      (if negative then "-" else "")
      +:+ format (strip_zeros 17 (shortest (Z.pos m) e))
  end.

(** [Number.isFinite(x)]. *)
Definition isFinite (x : t) : bool :=
  match Prim2SF x with
  | S754_nan | S754_infinity _ => false
  | _ => true
  end.

End Number.

(** ** JSON values *)

Module Json.

Inductive value :=
  | VNull
  | VBool (b : bool)
  | VNum (n : float)
  | VStr (s : string)
  | VArr (items : list value)
  | VObj (fields : list (string * value)).

(** The own enumerable properties of an object, in enumeration order. *)
Abbreviation record := (list (string * value)).

(** [v !== null && typeof v === 'object']. *)
Definition is_object (v : value) : bool :=
  match v with
  | VArr _ | VObj _ => true
  | _ => false
  end.

(** A scalar field: [null], a boolean, a number or a string. *)
Definition is_scalar (v : value) : bool := negb (is_object v).

(** [Object.entries(v)], which is also the order in which [for (k in v)]
    visits the own properties of [v]: the fields of an object, the
    index/element pairs of an array. *)
Definition entries (v : value) : record :=
  match v with
  | VObj fields => fields
  | VArr items => imap (fun i x => (pretty i, x)) items
  | _ => []
  end.

Definition keys (o : record) : list string := o.*1.

(** *** The order of the own properties

    [Object.keys], [Object.entries] and [for-in] list the keys that are
    array indices first, in ascending order, and then the other keys in the
    order in which the properties were created. *)

Definition digit_value (c : Ascii.ascii) : option N :=
  let n := Ascii.N_of_ascii c in
  if ((48 <=? n) && (n <=? 57))%N then Some (n - 48)%N else None.

Fixpoint digits_value (s : string) (acc : N) : option N :=
  match s with
  | EmptyString => Some acc
  | String c s' =>
      match digit_value c with
      | Some d => digits_value s' (10 * acc + d)%N
      | None => None
      end
  end.

(** The array index a key denotes: the key is the decimal numeral, without
    leading zeros, of an integer below [2^32 - 1]. *)
Definition array_index (k : string) : option N :=
  match digits_value k 0 with
  | Some n =>
      if bool_decide (k = pretty n) && (n <? 4294967295)%N then Some n else None
  | None => None
  end.

(** [k1] may be listed before [k2]. *)
Definition key_before (k1 k2 : string) : bool :=
  match array_index k1, array_index k2 with
  | Some n1, Some n2 => (n1 <? n2)%N
  | None, Some _ => false
  | _, None => true
  end.

(** The properties of an object as [Object.entries] lists them: no key
    twice, array indices first and ascending. *)
Definition enumeration_order (o : record) : Prop :=
  NoDup (keys o)
  ∧ StronglySorted (fun k1 k2 => key_before k1 k2 = true) (keys o).

(** Where a property with the new key [k] is listed. *)
Fixpoint insert_index (n : N) (k : string) (v : value) (o : record) : record :=
  match o with
  | [] => [(k, v)]
  | (k', v') :: o' =>
      match array_index k' with
      | Some n' =>
          if (n' <? n)%N then (k', v') :: insert_index n k v o' else (k, v) :: o
      | None => (k, v) :: o
      end
  end.

Definition add_prop (k : string) (v : value) (o : record) : record :=
  match array_index k with
  | Some n => insert_index n k v o
  | None => o ++ [(k, v)]
  end.

(** CreateDataProperty, as in [{...o, [k]: v}]: the own property [k] gets
    the value [v]; an existing property keeps its place. *)
Definition define_prop (k : string) (v : value) (o : record) : record :=
  if bool_decide (k ∈ keys o)
  then (fun kv => if decide (kv.1 = k) then (k, v) else kv) <$> o
  else add_prop k v o.

(** *** Assignment to a property

    An object being filled: its own properties and its prototype, which is
    [Object.prototype] for an object literal.  [Object.prototype] has one
    accessor property, [__proto__]: its setter replaces the prototype of
    the object when it is given an object or [null], and does nothing
    otherwise.  Every other property found on the prototype chain of such
    an object is a writable data property. *)
Inductive prototype :=
  | ObjectPrototype
  | NoPrototype
  | Prototype (p : value).

Record object := mkObject { own : record; proto : prototype }.

(** [{}]. *)
Definition empty_object : object := mkObject [] ObjectPrototype.

(** Whether looking up [__proto__] from this prototype finds the accessor
    of [Object.prototype]: a prototype [p] that is a parsed object hides it
    when it has an own property of that name. *)
Definition finds_setter (p : prototype) : bool :=
  match p with
  | ObjectPrototype => true
  | NoPrototype => false
  | Prototype p => negb (bool_decide ("__proto__" ∈ keys (entries p)))
  end.

(** [o[k] = v] (OrdinarySet).  An own property is written; otherwise
    [__proto__] goes to the setter when the prototype chain leads to it;
    otherwise the property is created on [o]. *)
Definition set_prop (k : string) (v : value) (o : object) : object :=
  if bool_decide (k ∈ keys (own o)) then mkObject (define_prop k v (own o)) (proto o)
  else if bool_decide (k = "__proto__") && finds_setter (proto o) then
    match v with
    | VNull => mkObject (own o) NoPrototype
    | VObj _ | VArr _ => mkObject (own o) (Prototype v)
    | _ => o
    end
  else mkObject (define_prop k v (own o)) (proto o).

(** *** [JSON.stringify] *)

Definition dquote : string := String (Ascii.ascii_of_nat 34) EmptyString.
Definition backslash : string := String (Ascii.ascii_of_nat 92) EmptyString.

Definition hex_digit (n : nat) : string :=
  String (Ascii.ascii_of_nat (if decide (n < 10) then 48 + n else 87 + n))
         EmptyString.

(** One code unit inside a JSON string literal (ECMAScript QuoteJSONString). *)
Definition escape_char (c : Ascii.ascii) : string :=
  let n := Ascii.nat_of_ascii c in
  if decide (n = 34) then backslash +:+ dquote
  else if decide (n = 92) then backslash +:+ backslash
  else if decide (n = 8) then backslash +:+ "b"
  else if decide (n = 9) then backslash +:+ "t"
  else if decide (n = 10) then backslash +:+ "n"
  else if decide (n = 12) then backslash +:+ "f"
  else if decide (n = 13) then backslash +:+ "r"
  else if decide (n < 32)
       then backslash +:+ "u00" +:+ hex_digit (n / 16) +:+ hex_digit (n mod 16)
  else String c EmptyString.

Fixpoint escape (s : string) : string :=
  match s with
  | EmptyString => EmptyString
  | String c s' => escape_char c +:+ escape s'
  end.

Definition quote (s : string) : string := dquote +:+ escape s +:+ dquote.

(** A finite number is printed by [Number::toString], any other as [null]. *)
Definition stringify_number (n : float) : string :=
  if Number.isFinite n then Number.toString n else "null".

Fixpoint JSON_stringify (v : value) : string :=
  match v with
  | VNull => "null"
  | VBool true => "true"
  | VBool false => "false"
  | VNum n => stringify_number n
  | VStr s => quote s
  | VArr items => "[" +:+ String.concat "," (map JSON_stringify items) +:+ "]"
  | VObj fields =>
      "{" +:+ String.concat ","
                (map (fun kv => quote kv.1 +:+ ":" +:+ JSON_stringify kv.2) fields)
          +:+ "}"
  end.

(** Size of a value, the termination measure of the flattening loop. *)
Fixpoint value_size (v : value) : nat :=
  match v with
  | VArr items => S (list_sum (map value_size items))
  | VObj fields => S (list_sum (map (fun kv => value_size kv.2) fields))
  | _ => 1
  end.

End Json.
Import Json.

(** ** The tabular guard, flattening and sanitising (Excel and CSV workers)

    Both workers declare the same constants and the same three functions,
    line for line; one embedding serves both. *)

Module Tabular.

Definition FIRST_PREVIEW_CHUNK : nat := 100.
Definition PREVIEW_CHUNK_SIZE : nat := 200.
Definition PREVIEW_LIMIT : nat := 1000.
Definition MAX_ROWS : Z := 100000.
Definition MAX_COLUMNS : Z := 500.
Definition MAX_CELL_CHARS : Z := 200000.

(** The three [throw new Error(...)] sites of [enforceTabularLimits]. *)
Inductive LimitKind := rowsLimit | columnsLimit | cellLengthLimit.

(** A thrown [Error]: which limit, and the [context] of the call. *)
Record LimitExceeded := mkLimitExceeded { kind : LimitKind; context : string }.

(** [error.message]; [toLocaleString()] groups the digits, here as the
    en-US locale does. *)
Definition message (e : LimitExceeded) : string :=
  match kind e with
  | rowsLimit => context e +:+ ": dataset exceeds 100,000 rows"
  | columnsLimit => context e +:+ ": dataset exceeds 500 columns"
  | cellLengthLimit => context e +:+ ": cell value is too large (>200,000 chars)"
  end.

(** [typeof value === 'string' && value.length > MAX_CELL_CHARS]. *)
Definition cell_too_long (v : value) : bool :=
  match v with
  | VStr s => bool_decide (MAX_CELL_CHARS < Z.of_nat (String.length s))%Z
  | _ => false
  end.

(** The inner loop [for (const [key, value] of Object.entries(row))]. *)
Fixpoint scan_entries (ctx : string) (es : record) (columnSet : gset string)
  : LimitExceeded + gset string :=
  match es with
  | [] => inr columnSet
  | (key, v) :: es' =>
      let columnSet := {[key]} ∪ columnSet in
      if bool_decide (MAX_COLUMNS < Z.of_nat (size columnSet))%Z
      then inl (mkLimitExceeded columnsLimit ctx)
      else if cell_too_long v
      then inl (mkLimitExceeded cellLengthLimit ctx)
      else scan_entries ctx es' columnSet
  end.

(** The outer loop [for (const row of rows)]; a row that is not a non-null
    object is skipped. *)
Fixpoint scan_rows (ctx : string) (rows : list value) (columnSet : gset string)
  : LimitExceeded + gset string :=
  match rows with
  | [] => inr columnSet
  | row :: rows' =>
      if is_object row
      then match scan_entries ctx (entries row) columnSet with
           | inl e => inl e
           | inr columnSet' => scan_rows ctx rows' columnSet'
           end
      else scan_rows ctx rows' columnSet
  end.

Definition enforceTabularLimits (rows : list value) (ctx : string)
  : LimitExceeded + unit :=
  if bool_decide (MAX_ROWS < Z.of_nat (length rows))%Z
  then inl (mkLimitExceeded rowsLimit ctx)
  else match scan_rows ctx rows ∅ with
       | inl e => inl e
       | inr _ => inr tt
       end.

(** *** [flattenObject] *)

(** A stack entry [{ current, prefix }]. *)
Abbreviation frame := (value * string)%type.

(** [prefix ? `${prefix}.${k}` : k]: the empty prefix is falsy. *)
Definition newKey (prefix k : string) : string :=
  match prefix with
  | EmptyString => k
  | _ => prefix +:+ "." +:+ k
  end.

(** The body of the [while]: one pass of [for (const k in current)] over the
    properties of the popped frame.  The head of [stack] is its top. *)
Fixpoint for_in (prefix : string) (es : record) (stack : list frame)
    (result : object) : list frame * object :=
  match es with
  | [] => (stack, result)
  | (k, v) :: es' =>
      match v with
      | VObj _ => for_in prefix es' ((v, newKey prefix k) :: stack) result
      | VArr _ =>
          for_in prefix es' stack
            (set_prop (newKey prefix k) (VStr (JSON_stringify v)) result)
      | _ => for_in prefix es' stack (set_prop (newKey prefix k) v result)
      end
  end.

Definition stack_size (stack : list frame) : nat :=
  list_sum (map (fun f => value_size f.1) stack).

Lemma imap_pair_snd {A B : Type} (f : nat → A) (l : list B) :
  (imap (fun i x => (f i, x)) l).*2 = l.
Proof.
  revert f. induction l as [|x l IH]; intros f; [done|].
  simpl. f_equal. apply (IH (f ∘ S)).
Qed.

Lemma entries_size (v : value) :
  (list_sum (map (fun kv => value_size kv.2) (entries v)) < value_size v)%nat.
Proof.
  destruct v as [| | | |items|fields]; simpl; try lia.
  apply Nat.lt_succ_r.
  rewrite <- (imap_pair_snd pretty items) at 2.
  rewrite <- list_fmap_compose. done.
Qed.

Lemma for_in_size (prefix : string) (es : record) (stack : list frame)
    (result : object) :
  (stack_size (for_in prefix es stack result).1
   ≤ list_sum (map (fun kv => value_size kv.2) es) + stack_size stack)%nat.
Proof.
  revert stack result.
  induction es as [|[k v] es IH]; intros stack result; simpl; [lia|].
  destruct v;
    match goal with |- context [for_in _ _ ?s ?r] => specialize (IH s r) end;
    unfold stack_size in *; simpl in *; lia.
Qed.

(** The loop [while (stack.length > 0)]. *)
Equations? flatten_loop (stack : list frame) (result : object) : object
  by wf (stack_size stack) lt :=
flatten_loop [] result := result;
flatten_loop ((current, prefix) :: stack) result :=
  flatten_loop (for_in prefix (entries current) stack result).1
               (for_in prefix (entries current) stack result).2.
Proof.
  match goal with
  | |- context [for_in ?p _ _ _] =>
      pose proof (for_in_size p (entries current) stack result)
  end.
  pose proof (entries_size current).
  unfold stack_size in *. simpl in *. lia.
Qed.

(** The fields of the returned [result] are its own properties. *)
Definition flattenObject (obj : value) : value :=
  if negb (is_object obj) then obj
  else VObj (own (flatten_loop [(obj, "")] empty_object)).

(** *** [sanitizeForTabular] *)

(** [value !== null && typeof value === 'object' ? JSON.stringify(value) : value]. *)
Definition sanitize_field (v : value) : value :=
  if is_object v then VStr (JSON_stringify v) else v.

(** The loop filling [sanitized]. *)
Fixpoint sanitize_entries (es : record) (sanitized : object) : object :=
  match es with
  | [] => sanitized
  | (key, v) :: es' => sanitize_entries es' (set_prop key (sanitize_field v) sanitized)
  end.

Definition sanitize_item (item : value) : value :=
  if negb (is_object item) then VObj [("value", item)]
  else VObj (own (sanitize_entries (entries item) empty_object)).

Definition sanitizeForTabular (data : list value) : list value :=
  map sanitize_item data.

End Tabular.
Import Tabular.

(** ** Messages crossing the worker boundary ([types/worker.ts]) *)

Definition ArrayBuffer := list Byte.byte.

(** [data: string | ArrayBuffer]. *)
Inductive Data :=
  | Text (s : string)
  | Binary (b : ArrayBuffer).

(** [PreviewChunkPayload]; both producers fill every field. *)
Record PreviewChunkPayload := mkChunk {
  chunk : list value;
  chunkIndex : nat;
  totalRows : nat;
  done : bool }.

(** The payloads the two workers post. *)
Inductive payload :=
  | Chunk (p : PreviewChunkPayload)
  | Complete (totalRows previewRows : nat)
  | Rows (data : list value)
  | Workbook (data : ArrayBuffer)
  | Csv (text : string)
  | Preview (data : list value) (totalRows : nat)
  | Null.

(** [WorkerResponse<T>]. *)
Module WorkerResponse.
Record t (T : Type) := mk {
  type : string;
  payload : T;
  id : option string;
  error : option string }.
Arguments mk {T} _ _ _ _.
Arguments type {T} _.
Arguments payload {T} _.
Arguments id {T} _.
Arguments error {T} _.
End WorkerResponse.

(** [WorkerMessage<T>]. *)
Module WorkerMessage.
Record t (T : Type) := mk {
  type : string;
  payload : T;
  id : option string }.
Arguments mk {T} _ _ _.
Arguments type {T} _.
Arguments payload {T} _.
Arguments id {T} _.
End WorkerMessage.

(** What the two workers post. *)
Abbreviation Posted := (WorkerResponse.t payload).

(** ** The chunk emitter ([emitPreviewChunks], same text in both workers) *)

Module Emitter.

(** [xs.slice(start, end)] for [0 <= start]. *)
Definition slice {A : Type} (start end_ : nat) (xs : list A) : list A :=
  take (end_ - start) (drop start xs).

(** [chunkIndex === 0 ? FIRST_PREVIEW_CHUNK : PREVIEW_CHUNK_SIZE]. *)
Definition chunk_size (chunkIndex : nat) : nat :=
  if decide (chunkIndex = 0%nat) then FIRST_PREVIEW_CHUNK else PREVIEW_CHUNK_SIZE.

Lemma chunk_size_pos (chunkIndex : nat) : (0 < chunk_size chunkIndex)%nat.
Proof. unfold chunk_size. case_decide; compute; lia. Qed.

(** The loop [while (index < cappedRows.length)]: the responses it posts,
    in order ([await nextTick()] only yields between two of them). *)
Equations? chunk_loop (cappedRows : list value) (totalRows : nat)
    (id : option string) (index chunkIndex : nat) : list Posted
  by wf (length cappedRows - index)%nat lt :=
chunk_loop cappedRows totalRows id index chunkIndex
  with decide (index < length cappedRows)%nat := {
  | left _ =>
      WorkerResponse.mk "PREVIEW_CHUNK"
        (Chunk (mkChunk
           (slice index (index + chunk_size chunkIndex) cappedRows)
           chunkIndex totalRows
           (bool_decide (length cappedRows ≤ index + chunk_size chunkIndex)%nat)))
        id None
      :: chunk_loop cappedRows totalRows id
           (index + chunk_size chunkIndex)%nat (chunkIndex + 1)%nat
  | right _ => [] }.
Proof.
  match goal with
  | |- context [chunk_size ?c] => pose proof (chunk_size_pos c)
  end.
  lia.
Qed.

Definition emitPreviewChunks (rows : list value) (id : option string)
  : list Posted :=
  let cappedRows := slice 0 PREVIEW_LIMIT rows in
  let totalRows := length rows in
  chunk_loop cappedRows totalRows id 0 0
  ++ (if decide (length cappedRows = 0%nat)
      then [WorkerResponse.mk "PREVIEW_CHUNK"
              (Chunk (mkChunk [] 0 totalRows true)) id None]
      else [])
  ++ [WorkerResponse.mk "PREVIEW_COMPLETE"
        (Complete totalRows (length cappedRows)) id None].

(** The chunk batches among posted responses, and the rows they carry. *)
Definition batches (rs : list Posted) : list PreviewChunkPayload :=
  omap (fun r => match WorkerResponse.payload r with
                 | Chunk p => Some p
                 | _ => None
                 end) rs.

Definition emitted_rows (rs : list Posted) : list value :=
  concat (chunk <$> batches rs).

End Emitter.
Import Emitter.

(** ** The workers' message handlers *)

(** [options] of a conversion request.  [flatten] is read for its
    truthiness; [overwriteRows] is declared [any[]] and tested with
    [Array.isArray] at run time. *)
Record Options := mkOptions {
  sheetName : option string;
  delimiter : option string;
  flatten : bool;
  overwriteRows : option value }.

Record Request := mkRequest {
  data : Data;
  convType : option string;
  options : option Options }.

(** [options?.flatten]. *)
Definition wants_flatten (o : option Options) : bool :=
  match o with
  | Some o => flatten o
  | None => false
  end.

(** [Array.isArray(jsonData) ? jsonData : [jsonData]]. *)
Definition as_rows (jsonData : value) : list value :=
  match jsonData with
  | VArr items => items
  | _ => [jsonData]
  end.

(** The loop [for (let i = 0; i < rowLimit; i++) rows[i] = overwriteRows[i]].
    Every index it reads is below [overwriteRows.length]. *)
Definition overwrite_loop (overwriteRows : list value) (rowLimit : nat)
    (rows : list value) : list value :=
  foldl (fun rows i => match overwriteRows !! i with
                       | Some r => <[i := r]> rows
                       | None => rows
                       end)
        rows (seq 0 rowLimit).

(** [if (options?.overwriteRows && Array.isArray(options.overwriteRows)) ...],
    the same block in [excel-to-json] and in [csv-to-json]. *)
Definition apply_overwrite (o : option Options) (rows : list value) : list value :=
  match o ≫= overwriteRows with
  | Some (VArr overwriteRows) =>
      overwrite_loop overwriteRows (length overwriteRows `min` length rows) rows
  | _ => rows
  end.

(** [o || d] on an optional string: the empty string is falsy. *)
Definition or_else (o : option string) (d : string) : string :=
  match o with
  | Some EmptyString | None => d
  | Some s => s
  end.

(** The body of a [try]: the message of the thrown error, or a result. *)
Definition throws (A : Type) : Type := (string + A)%type.

#[global] Instance throws_bind : MBind throws :=
  fun A B f m => match m with
                 | inl errorMessage => inl errorMessage
                 | inr a => f a
                 end.

Definition guard (r : LimitExceeded + unit) : throws unit :=
  match r with
  | inl e => inl (message e)
  | inr u => inr u
  end.

(** The [catch] of both handlers: one [CONVERSION_ERROR] response. *)
Definition conversion_error (id : option string) (errorMessage : string)
  : Posted :=
  WorkerResponse.mk "CONVERSION_ERROR" Null id (Some errorMessage).

Definition catch (id : option string) (body : throws (list Posted))
  : list Posted :=
  match body with
  | inl errorMessage => [conversion_error id errorMessage]
  | inr posted => posted
  end.

(** [PARSE_FOR_PREVIEW] and [PARSE_FOR_PREVIEW_STREAM], after the input has
    been parsed: the same lines in both workers. *)
Definition parse_for_preview (stream : bool) (jsonData : value)
    (o : option Options) (id : option string) : throws (list Posted) :=
  let processedData := as_rows jsonData in
  let processedData :=
    if wants_flatten o then map flattenObject processedData else processedData in
  _ ← guard (enforceTabularLimits processedData "Preview parse");
  if stream then inr (emitPreviewChunks processedData id)
  else inr [WorkerResponse.mk "PARSE_SUCCESS"
              (Preview (slice 0 PREVIEW_LIMIT processedData) (length processedData))
              id None].

Module ExcelWorker.
Section ExcelWorker.

(** The codecs the worker calls; each may throw. *)
Variable parseJsonInput : Data → throws value.
Variable XLSX_sheet_to_json : Data → throws (list value).
Variable XLSX_write : list value → string → throws ArrayBuffer.

Definition try_body (m : WorkerMessage.t Request) : throws (list Posted) :=
  let type := WorkerMessage.type m in
  let id := WorkerMessage.id m in
  let '(mkRequest data convType options) := WorkerMessage.payload m in
  if decide (type = "CONVERT_EXCEL") then
    if decide (convType = Some "json-to-excel") then
      jsonData ← parseJsonInput data;
      let processedData := as_rows jsonData in
      let processedData :=
        if wants_flatten options then map flattenObject processedData
        else sanitizeForTabular processedData in
      _ ← guard (enforceTabularLimits processedData "Excel export");
      buffer ← XLSX_write processedData (or_else (options ≫= sheetName) "Sheet1");
      inr [WorkerResponse.mk "CONVERSION_SUCCESS" (Workbook buffer) id None]
    else if decide (convType = Some "excel-to-json") then
      jsonData ← XLSX_sheet_to_json data;
      _ ← guard (enforceTabularLimits jsonData "Excel parse");
      let jsonData := apply_overwrite options jsonData in
      inr [WorkerResponse.mk "CONVERSION_SUCCESS" (Rows jsonData) id None]
    else inr []
  else if decide (type = "PARSE_FOR_PREVIEW") then
    jsonData ← parseJsonInput data;
    parse_for_preview false jsonData options id
  else if decide (type = "PARSE_FOR_PREVIEW_STREAM") then
    jsonData ← parseJsonInput data;
    parse_for_preview true jsonData options id
  else if decide (type = "PREVIEW_EXCEL_STREAM") then
    rows ← XLSX_sheet_to_json data;
    let rows := if wants_flatten options then map flattenObject rows else rows in
    _ ← guard (enforceTabularLimits rows "Excel preview parse");
    inr (emitPreviewChunks rows id)
  else inr [].

(** [self.onmessage]: everything the handler posts for one message. *)
Definition onmessage (m : WorkerMessage.t Request) : list Posted :=
  catch (WorkerMessage.id m) (try_body m).

End ExcelWorker.
End ExcelWorker.

Module CsvWorker.
Section CsvWorker.

Variable toStringData : Data → string.
Variable JSON_parse : string → throws value.
Variable Papa_parse : string → string → throws (list value).
Variable Papa_unparse : list value → string → throws string.

(** The branches of [self.onmessage] that work on materialised rows.
    [PREVIEW_CSV_STREAM], which is driven by the parser's [step] callback,
    is not part of this embedding. *)
Definition try_body (m : WorkerMessage.t Request) : throws (list Posted) :=
  let type := WorkerMessage.type m in
  let id := WorkerMessage.id m in
  let '(mkRequest data convType options) := WorkerMessage.payload m in
  if decide (type = "CONVERT_CSV") then
    let stringData := toStringData data in
    if decide (convType = Some "json-to-csv") then
      jsonData ← JSON_parse stringData;
      let normalized := as_rows jsonData in
      let processedData :=
        if wants_flatten options then map flattenObject normalized
        else sanitizeForTabular normalized in
      _ ← guard (enforceTabularLimits processedData "CSV export");
      csv ← Papa_unparse processedData (or_else (options ≫= delimiter) ",");
      inr [WorkerResponse.mk "CONVERSION_SUCCESS" (Csv csv) id None]
    else if decide (convType = Some "csv-to-json") then
      results ← Papa_parse stringData (or_else (options ≫= delimiter) "");
      _ ← guard (enforceTabularLimits results "CSV parse");
      let results := apply_overwrite options results in
      inr [WorkerResponse.mk "CONVERSION_SUCCESS" (Rows results) id None]
    else inr []
  else if decide (type = "PARSE_FOR_PREVIEW") then
    jsonData ← JSON_parse (toStringData data);
    parse_for_preview false jsonData options id
  else if decide (type = "PARSE_FOR_PREVIEW_STREAM") then
    jsonData ← JSON_parse (toStringData data);
    parse_for_preview true jsonData options id
  else inr [].

Definition onmessage (m : WorkerMessage.t Request) : list Posted :=
  catch (WorkerMessage.id m) (try_body m).

End CsvWorker.
End CsvWorker.

(** ** [WorkerManager]

    The manager's fields, and the host objects its methods act on: the
    timers of [window.setTimeout], promises, and [Worker] instances.  A
    stored [resolve] or [reject] function is identified with the promise it
    settles; an [onProgress] callback with a number, its calls being
    logged.  Handlers run to completion one at a time, each followed by the
    promise reactions it queued. *)

Module WorkerManager.

Definition CANCELLED_MESSAGE : string := "Operation cancelled".

(** *** [isCancelledError] *)

(** [String.prototype.toLowerCase] on one 8-bit code unit. *)
Definition lower_char (c : Ascii.ascii) : Ascii.ascii :=
  let n := Ascii.nat_of_ascii c in
  if bool_decide (65 ≤ n ≤ 90)%nat
     || (bool_decide (192 ≤ n ≤ 222)%nat && negb (bool_decide (n = 215%nat)))
  then Ascii.ascii_of_nat (n + 32)
  else c.

Fixpoint toLowerCase (s : string) : string :=
  match s with
  | EmptyString => EmptyString
  | String c s' => String (lower_char c) (toLowerCase s')
  end.

(** [s.includes(sub)]. *)
Fixpoint includes (sub s : string) : bool :=
  String.prefix sub s ||
  match s with
  | EmptyString => false
  | String _ s' => includes sub s'
  end.

(** The values a caller can catch: a string, an [Error], anything else. *)
Inductive unknown :=
  | AString (s : string)
  | AnError (message : string)
  | Other.

Definition isCancelledError (error : unknown) : bool :=
  match error with
  | AString s => includes "cancel" (toLowerCase s)
  | AnError message => includes "cancel" (toLowerCase message)
  | Other => false
  end.

Section WorkerManager.

Context {TRequest TResponse : Type}.

(** How a promise was settled; every rejection of this class passes a string. *)
Inductive Settlement :=
  | Resolved (response : TResponse)
  | Rejected (error : string).

(** What the callback given to [window.setTimeout] in [postMessage] has
    captured; [outer] is the promise [postMessage] returned. *)
Record TimerCallback := mkTimerCallback {
  cb_type : string;
  cb_payload : TRequest;
  cb_transfer : option (list nat);
  cb_onProgress : option nat;
  cb_debounceMs : Z;
  cb_outer : nat }.

(** The chain [.then(resolve).catch(reject).finally(...)] hanging off the
    promise of a debounced request: once that promise is settled, [outer] is
    settled the same way and [debounceTimers.delete(type)] runs. *)
Record Reaction := mkReaction {
  re_outer : nat;
  re_type : string;
  re_settlement : Settlement }.

Record Host := mkHost {
  timers : gmap nat TimerCallback;
  nextTimer : nat;
  promises : gmap nat (option Settlement);
  nextPromise : nat;
  chains : gmap nat (nat * string);
  microtasks : list Reaction;
  nextWorker : nat;
  posted : list (nat * WorkerMessage.t TRequest * option (list nat));
  terminated : gset nat;
  progressCalls : list (nat * TResponse) }.

Record Manager := mkManager {
  worker : option nat;
  messageHandlers : gmap string nat;
  errorHandlers : gmap string nat;
  progressHandlers : gmap string nat;
  messageId : nat;
  debounceTimers : gmap string nat }.

Record State := mkState { this : Manager; host : Host }.

(** *** Host operations *)

Definition clearTimeout (timerId : nat) (h : Host) : Host :=
  mkHost (delete timerId (timers h)) (nextTimer h) (promises h) (nextPromise h)
         (chains h) (microtasks h) (nextWorker h) (posted h) (terminated h)
         (progressCalls h).

Definition setTimeout (cb : TimerCallback) (h : Host) : nat * Host :=
  (nextTimer h,
   mkHost (<[nextTimer h := cb]> (timers h)) (S (nextTimer h)) (promises h)
          (nextPromise h) (chains h) (microtasks h) (nextWorker h) (posted h)
          (terminated h) (progressCalls h)).

(** The timer's callback is taken off the schedule when it runs. *)
Definition unschedule (timerId : nat) (h : Host) : Host := clearTimeout timerId h.

(** [new Promise(...)]: a fresh pending promise. *)
Definition newPromise (h : Host) : nat * Host :=
  (nextPromise h,
   mkHost (timers h) (nextTimer h) (<[nextPromise h := None]> (promises h))
          (S (nextPromise h)) (chains h) (microtasks h) (nextWorker h)
          (posted h) (terminated h) (progressCalls h)).

(** [resolve(x)] or [reject(x)] of promise [p]: a pending promise is
    settled and its chain, if any, is queued; otherwise nothing happens. *)
Definition settle (p : nat) (st : Settlement) (h : Host) : Host :=
  match promises h !! p with
  | Some None =>
      mkHost (timers h) (nextTimer h) (<[p := Some st]> (promises h))
             (nextPromise h) (chains h)
             (microtasks h ++
                match chains h !! p with
                | Some (outer, type) => [mkReaction outer type st]
                | None => []
                end)
             (nextWorker h) (posted h) (terminated h) (progressCalls h)
  | _ => h
  end.

Definition chain (p outer : nat) (type : string) (h : Host) : Host :=
  mkHost (timers h) (nextTimer h) (promises h) (nextPromise h)
         (<[p := (outer, type)]> (chains h)) (microtasks h) (nextWorker h)
         (posted h) (terminated h) (progressCalls h).

(** [this.workerFactory()]. *)
Definition newWorker (h : Host) : nat * Host :=
  (nextWorker h,
   mkHost (timers h) (nextTimer h) (promises h) (nextPromise h) (chains h)
          (microtasks h) (S (nextWorker h)) (posted h) (terminated h)
          (progressCalls h)).

(** [worker.postMessage(message, transfer)]. *)
Definition worker_postMessage (w : nat) (message : WorkerMessage.t TRequest)
    (transfer : option (list nat)) (h : Host) : Host :=
  mkHost (timers h) (nextTimer h) (promises h) (nextPromise h) (chains h)
         (microtasks h) (nextWorker h) (posted h ++ [(w, message, transfer)])
         (terminated h) (progressCalls h).

(** [worker.terminate()]. *)
Definition worker_terminate (w : nat) (h : Host) : Host :=
  mkHost (timers h) (nextTimer h) (promises h) (nextPromise h) (chains h)
         (microtasks h) (nextWorker h) (posted h) ({[w]} ∪ terminated h)
         (progressCalls h).

Definition call_progress (cb : nat) (x : TResponse) (h : Host) : Host :=
  mkHost (timers h) (nextTimer h) (promises h) (nextPromise h) (chains h)
         (microtasks h) (nextWorker h) (posted h) (terminated h)
         (progressCalls h ++ [(cb, x)]).

Definition take_microtasks (h : Host) : Host :=
  mkHost (timers h) (nextTimer h) (promises h) (nextPromise h) (chains h)
         [] (nextWorker h) (posted h) (terminated h) (progressCalls h).

(** [m.forEach(f)] on a [Map], for an [f] that acts on the host. *)
Definition forEach (m : gmap string nat) (f : nat → Host → Host) (h : Host) : Host :=
  foldl (fun h kv => f kv.2 h) h (map_to_list m).

(** *** Methods *)

Definition init (s : State) : State :=
  match worker (this s) with
  | Some _ => s
  | None =>
      let '(w, h) := newWorker (host s) in
      mkState (mkManager (Some w) (messageHandlers (this s))
                 (errorHandlers (this s)) (progressHandlers (this s))
                 (messageId (this s)) (debounceTimers (this s)))
              h
  end.

(** [executePostMessage]; the first component is the promise returned. *)
Definition executePostMessage (type : string) (payload : TRequest)
    (transfer : option (list nat)) (onProgress : option nat) (s : State)
  : nat * State :=
  let '(p, h) := newPromise (host s) in
  let id := type +:+ "-" +:+ pretty (messageId (this s)) in
  let message := WorkerMessage.mk type payload (Some id) in
  (p,
   mkState
     (mkManager (worker (this s))
        (<[id := p]> (messageHandlers (this s)))
        (<[id := p]> (errorHandlers (this s)))
        (match onProgress with
         | Some cb => <[id := cb]> (progressHandlers (this s))
         | None => progressHandlers (this s)
         end)
        (S (messageId (this s)))
        (debounceTimers (this s)))
     (match worker (this s) with
      | Some w => worker_postMessage w message transfer h
      | None => h
      end)).

(** [postMessage]; the first component is the promise returned. *)
Definition postMessage (type : string) (payload : TRequest)
    (transfer : option (list nat)) (debounceMs : Z) (onProgress : option nat)
    (s : State) : nat * State :=
  let s := init s in
  if bool_decide (0 < debounceMs)%Z then
    let '(outer, h) := newPromise (host s) in
    let h := match debounceTimers (this s) !! type with
             | Some timerId => clearTimeout timerId h
             | None => h
             end in
    let '(timerId, h) :=
      setTimeout (mkTimerCallback type payload transfer onProgress debounceMs outer) h in
    (outer,
     mkState (mkManager (worker (this s)) (messageHandlers (this s))
                (errorHandlers (this s)) (progressHandlers (this s))
                (messageId (this s))
                (<[type := timerId]> (debounceTimers (this s))))
             h)
  else executePostMessage type payload transfer onProgress s.

(** The callback given to [window.setTimeout], run when timer [timerId] fires. *)
Definition timer_fires (timerId : nat) (s : State) : State :=
  match timers (host s) !! timerId with
  | None => s
  | Some cb =>
      let s := mkState (this s) (unschedule timerId (host s)) in
      let '(p, s) :=
        executePostMessage (cb_type cb) (cb_payload cb) (cb_transfer cb)
                           (cb_onProgress cb) s in
      mkState (this s) (chain p (cb_outer cb) (cb_type cb) (host s))
  end.

(** [if (x)] on an optional string. *)
Definition truthy (o : option string) : bool :=
  match o with
  | Some EmptyString | None => false
  | Some _ => true
  end.

Definition forget (id : string) (m : Manager) : Manager :=
  mkManager (worker m) (delete id (messageHandlers m))
            (delete id (errorHandlers m)) (delete id (progressHandlers m))
            (messageId m) (debounceTimers m).

(** [handler?.(payload)] followed by the three [delete(id)]. *)
Definition resolve_request (id : string) (x : TResponse) (s : State) : State :=
  mkState (forget id (this s))
          (match messageHandlers (this s) !! id with
           | Some handler => settle handler (Resolved x) (host s)
           | None => host s
           end).

(** [errorHandler?.(error)] followed by the three [delete(id)]. *)
Definition reject_request (id : string) (error : string) (s : State) : State :=
  mkState (forget id (this s))
          (match errorHandlers (this s) !! id with
           | Some errorHandler => settle errorHandler (Rejected error) (host s)
           | None => host s
           end).

(** [this.worker.onmessage], installed by [init]. *)
Definition onmessage (e : WorkerResponse.t TResponse) (s : State) : State :=
  let type := WorkerResponse.type e in
  let payload := WorkerResponse.payload e in
  match WorkerResponse.id e with
  | Some id =>
      if negb (truthy (Some id)) then s
      else if bool_decide (type = "PROGRESS" ∨ type = "PREVIEW_CHUNK") then
        match progressHandlers (this s) !! id with
        | Some progressHandler =>
            mkState (this s) (call_progress progressHandler payload (host s))
        | None => s
        end
      else if bool_decide (type = "PREVIEW_COMPLETE") then
        resolve_request id payload s
      else
        match WorkerResponse.error e with
        | Some error =>
            if truthy (Some error) then reject_request id error s
            else resolve_request id payload s
        | None => resolve_request id payload s
        end
  | None => s
  end.

Definition cancelAll (reason : string) (s : State) : State :=
  let h := forEach (debounceTimers (this s)) clearTimeout (host s) in
  let h := forEach (errorHandlers (this s))
                   (fun reject => settle reject (Rejected reason)) h in
  let h := match worker (this s) with
           | Some w => worker_terminate w h
           | None => h
           end in
  mkState (mkManager None ∅ ∅ ∅ (messageId (this s)) ∅) h.

Definition terminate (s : State) : State := cancelAll CANCELLED_MESSAGE s.

(** *** The event loop *)

(** One queued reaction of a debounced request's chain. *)
Definition react (s : State) (r : Reaction) : State :=
  mkState (mkManager (worker (this s)) (messageHandlers (this s))
             (errorHandlers (this s)) (progressHandlers (this s))
             (messageId (this s)) (delete (re_type r) (debounceTimers (this s))))
          (settle (re_outer r) (re_settlement r) (host s)).

Definition run_microtasks (s : State) : State :=
  foldl react (mkState (this s) (take_microtasks (host s))) (microtasks (host s)).

Inductive Event :=
  | Submit (type : string) (payload : TRequest) (transfer : option (list nat))
           (debounceMs : Z) (onProgress : option nat)
  | TimerFires (timerId : nat)
  | WorkerReplies (w : nat) (e : WorkerResponse.t TResponse)
  | CancelAll (reason : string).

Definition handle (ev : Event) (s : State) : State :=
  match ev with
  | Submit type payload transfer debounceMs onProgress =>
      (postMessage type payload transfer debounceMs onProgress s).2
  | TimerFires timerId => timer_fires timerId s
  | WorkerReplies w e =>
      if bool_decide (worker (this s) = Some w) then onmessage e s else s
  | CancelAll reason => cancelAll reason s
  end.

Definition step (s : State) (ev : Event) : State := run_microtasks (handle ev s).

Definition run (evs : list Event) (s : State) : State := foldl step s evs.

(** [new WorkerManager(workerFactory)]. *)
Definition new : State :=
  mkState (mkManager None ∅ ∅ ∅ 0 ∅) (mkHost ∅ 0 ∅ 0 ∅ [] 0 [] ∅ []).

(** The requests handed to a worker so far, oldest first. *)
Definition dispatched (s : State) : list (WorkerMessage.t TRequest) :=
  (fun x => x.1.2) <$> posted (host s).

End WorkerManager.

Arguments State : clear implicits.
Arguments Host : clear implicits.
Arguments Event : clear implicits.
Arguments Settlement : clear implicits.
Arguments TimerCallback : clear implicits.
Arguments Reaction : clear implicits.

End WorkerManager.

(** ** Download file names ([utils/fileName.ts])

    Strings are sequences of 8-bit code units, as above: the white space
    [trim] removes is then U+0009 to U+000D, the space and U+00A0. *)

Module FileName.

(** White space and line terminators of ECMAScript below U+0100. *)
Definition is_whitespace (c : Ascii.ascii) : bool :=
  bool_decide (Ascii.nat_of_ascii c ∈ [9; 10; 11; 12; 13; 32; 160]).

Fixpoint trimStart (s : string) : string :=
  match s with
  | EmptyString => EmptyString
  | String c s' => if is_whitespace c then trimStart s' else s
  end.

Fixpoint trimEnd (s : string) : string :=
  match s with
  | EmptyString => EmptyString
  | String c s' =>
      match trimEnd s' with
      | EmptyString => if is_whitespace c then EmptyString else String c EmptyString
      | t => String c t
      end
  end.

(** [s.trim()]. *)
Definition trim (s : string) : string := trimEnd (trimStart s).

Definition dot : Ascii.ascii := Ascii.ascii_of_nat 46.
Definition underscore : Ascii.ascii := Ascii.ascii_of_nat 95.

(** [s.lastIndexOf(c)] for a one-character [c]; [-1] when [c] is absent. *)
Fixpoint lastIndexOf (c : Ascii.ascii) (s : string) : Z :=
  match s with
  | EmptyString => (-1)%Z
  | String c' s' =>
      let i := lastIndexOf c s' in
      if bool_decide (0 ≤ i)%Z then (i + 1)%Z
      else if bool_decide (c' = c) then 0%Z else (-1)%Z
  end.

(** [s.slice(0, end)] for [0 <= end]. *)
Definition slice_to (end_ : Z) (s : string) : string :=
  String.substring 0 (Z.to_nat end_) s.

Definition getFileNameWithoutExtension (fileName : string) : string :=
  let trimmed := trim fileName in
  match trimmed with
  | EmptyString => EmptyString
  | _ =>
      let lastDotIndex := lastIndexOf dot trimmed in
      if bool_decide (lastDotIndex ≤ 0)%Z then trimmed
      else slice_to lastDotIndex trimmed
  end.

(** The class of [INVALID_FILENAME_CHARS]: the controls U+0000 to U+001F,
    the angle brackets, the colon, the double quote, the slash, the
    backslash, the bar, the question mark and the asterisk. *)
Definition is_invalid (c : Ascii.ascii) : bool :=
  bool_decide (Ascii.nat_of_ascii c < 32)
  || bool_decide (Ascii.nat_of_ascii c ∈ [60; 62; 58; 34; 47; 92; 124; 63; 42]).

(** [s.replace(INVALID_FILENAME_CHARS, '_')], the pattern being global. *)
Fixpoint replace_invalid (s : string) : string :=
  match s with
  | EmptyString => EmptyString
  | String c s' => String (if is_invalid c then underscore else c) (replace_invalid s')
  end.

(** [s.replace(/\.+$/, '')]: the dots at the end of the string are dropped. *)
Fixpoint strip_trailing_dots (s : string) : string :=
  match s with
  | EmptyString => EmptyString
  | String c s' =>
      match strip_trailing_dots s' with
      | EmptyString => if bool_decide (c = dot) then EmptyString else String c EmptyString
      | t => String c t
      end
  end.

Definition sanitizeFileNameBase (name : string) : string :=
  strip_trailing_dots (replace_invalid (trim name)).

(** The loop [for (const candidate of candidates)]; [null], [undefined] and
    the empty string are falsy candidates. *)
Fixpoint first_normalized (candidates : list (option string)) : option string :=
  match candidates with
  | [] => None
  | candidate :: rest =>
      match candidate with
      | None | Some EmptyString => first_normalized rest
      | Some candidate =>
          match sanitizeFileNameBase (getFileNameWithoutExtension candidate) with
          | EmptyString => first_normalized rest
          | normalized => Some normalized
          end
      end
  end.

Definition resolveExportBaseName (preferredName sourceFileName : option string)
    (fallback : string) : string :=
  match first_normalized [preferredName; sourceFileName; Some fallback] with
  | Some normalized => normalized
  | None => "export"
  end.

(** [s.replace(/^\./, '')]. *)
Definition strip_leading_dot (s : string) : string :=
  match s with
  | String c s' => if bool_decide (c = dot) then s' else s
  | EmptyString => EmptyString
  end.

Definition buildDownloadFileName (baseName extension : string) : string :=
  let normalizedBase :=
    match sanitizeFileNameBase (getFileNameWithoutExtension baseName) with
    | EmptyString => "export"
    | normalized => normalized
    end in
  let normalizedExtension :=
    WorkerManager.toLowerCase (trim (strip_leading_dot extension)) in
  match normalizedExtension with
  | EmptyString => normalizedBase
  | _ => normalizedBase +:+ "." +:+ normalizedExtension
  end.

End FileName.

(** ** The converter page ([JsonExcelConverter])

    The pure parts of [validateAndPreview] and [handleConvert]: what the
    progress callback of a streamed preview accumulates, and what the page
    shows once the request's promise has resolved. *)

Module Converter.

(** The callback's two locals, [collectedRows] and [collectedTotalRows]. *)
Record Collected := mkCollected {
  collectedRows : list value;
  collectedTotalRows : option nat }.

(** [const collectedRows = []; let collectedTotalRows = null]. *)
Definition nothing_collected : Collected := mkCollected [] None.

(** The [onProgress] callback given to
    [postMessage('PARSE_FOR_PREVIEW_STREAM', ...)]: a payload without an
    array [chunk] is ignored; the worker's batches always carry a numeric
    [totalRows]. *)
Definition onProgress (c : Collected) (progressData : payload) : Collected :=
  match progressData with
  | Chunk p => mkCollected (collectedRows c ++ chunk p) (Some (totalRows p))
  | _ => c
  end.

(** [setTotalRows(collectedTotalRows ?? collectedRows.length)]. *)
Definition shownTotalRows (c : Collected) : nat :=
  match collectedTotalRows c with
  | Some n => n
  | None => length (collectedRows c)
  end.

(** The page's two modes. *)
Inductive ConversionMode := json_to_excel | excel_to_json.

(** The name [handleConvert] gives the download:
    [buildDownloadFileName(resolveExportBaseName({preferredName:
    exportFileName, sourceFileName: file?.name, fallback}), ext)]. *)
Definition downloadName (mode : ConversionMode) (exportFileName : string)
    (fileName : option string) : string :=
  let sourceBaseName :=
    FileName.resolveExportBaseName (Some exportFileName) fileName
      (match mode with
       | json_to_excel => "json_data"
       | excel_to_json => "excel_data"
       end) in
  FileName.buildDownloadFileName sourceBaseName
    (match mode with
     | json_to_excel => "xlsx"
     | excel_to_json => "json"
     end).

End Converter.

(** ** The editable preview table ([TanStackDataTable])

    The table's rows are the preview rows of the converter page; what the
    user edits here is what [handleConvert] later sends as
    [overwriteRows].  An object literal creates its properties
    ([define_prop]), whatever their names. *)

Module DataTable.

(** [!maxRows || data.length <= maxRows ? data : data.slice(0, maxRows)];
    an absent [maxRows] and [0] are falsy. *)
Definition effectiveData (maxRows : option nat) (data : list value) : list value :=
  match maxRows with
  | None | Some 0 => data
  | Some maxRows =>
      if decide (length data ≤ maxRows) then data else slice 0 maxRows data
  end.

(** [set.add(k)] on a [Set] kept in insertion order. *)
Definition set_add (set : list string) (k : string) : list string :=
  if decide (k ∈ set) then set else set ++ [k].

(** [Array.from(new Set(effectiveData.flatMap(item => typeof item ===
    'object' && item !== null ? Object.keys(item) : [])))]. *)
Definition headers (effectiveData : list value) : list string :=
  foldl set_add []
    (effectiveData ≫= (fun item => if is_object item then keys (entries item) else [])).

(** [{...v}]: the own enumerable properties of [v]; a string spreads into
    its code units, a number, a boolean or [null] into nothing. *)
Definition spread (v : value) : record :=
  match v with
  | VObj _ | VArr _ => entries v
  | VStr s =>
      imap (fun i c => (pretty i, VStr (String c EmptyString))) (String.list_ascii_of_string s)
  | _ => []
  end.

(** [handleCellCommit]: [newData[rowIndex] = { ...newData[rowIndex],
    [columnId]: value }] on a copy of [data].  The [rowIndex] is that of a
    rendered row; past the end the assignment would leave holes in the
    array, which a list of rows cannot hold: no result is given there. *)
Definition handleCellCommit (rowIndex : nat) (columnId value : string)
    (data : list Json.value) : option (list Json.value) :=
  match data !! rowIndex with
  | Some row =>
      Some (<[rowIndex := VObj (define_prop columnId (VStr value) (spread row))]> data)
  | None => None
  end.

(** [data.filter((_, i) => i !== rowIndex)]. *)
Definition handleDeleteRow (rowIndex : nat) (data : list value) : list value :=
  (filter (fun ir => ir.1 ≠ rowIndex) (imap (fun i row => (i, row)) data)).*2.

(** [[...data, headers.reduce((acc, header) => ({...acc, [header]: ''}), {})]]. *)
Definition handleAddRow (headers : list string) (data : list value) : list value :=
  data ++ [VObj (foldl (fun acc header => define_prop header (VStr "") acc) [] headers)].

End DataTable.

(** ** The rows of the JSON tree view ([VirtualizedJsonTree])

    [visibleNodes]: the tree flattened to the rows to render, depth first,
    under the set of expanded paths. *)

Module JsonTree.

(** [JsonNode] ([types/json]): a node of the parsed tree; [children] is
    absent on a leaf. *)
Inductive JsonNode := mkJsonNode {
  key : string;
  value : Json.value;
  type : string;
  path : string;
  children : option (list JsonNode) }.

(** [FlatNode]: one row. *)
Record FlatNode := mkFlatNode {
  node : JsonNode;
  depth : nat;
  hasChildren : bool;
  flatPath : string }.

Definition CHILD_LIMIT : nat := 200.
Definition GLOBAL_RENDER_LIMIT : nat := 15 * 1000.

(** [node.children] when there is one, no children otherwise. *)
Definition child_list (n : JsonNode) : list JsonNode :=
  match children n with
  | Some l => l
  | None => []
  end.

(** [!!(node.children && node.children.length > 0)]. *)
Definition has_children (n : JsonNode) : bool :=
  bool_decide (0 < length (child_list n)).

(** The row pushed when the render budget is used up. *)
Definition truncated_global : FlatNode :=
  mkFlatNode
    (mkJsonNode "⚠️ VIEW TRUNCATED"
       (VStr ("Stopped rendering after 15,000 nodes to preserve browser "
              +:+ "performance. Collapse some nodes to see more."))
       "null" "truncated-global" None)
    1 false "truncated-global".

(** The node standing for the children past [CHILD_LIMIT]. *)
Definition placeholderNode (n : JsonNode) (remaining : nat) : JsonNode :=
  mkJsonNode ("...and " +:+ pretty remaining +:+ " more items")
    (VStr "Use search to find specific items") "null"
    (path n +:+ ".truncated") None.

(** The row of a node. *)
Definition row (n : JsonNode) (depth : nat) : FlatNode :=
  mkFlatNode n depth (has_children n) (path n).

(** What an expanded node pushes, top of the stack first: its children in
    order, or the first [CHILD_LIMIT] of them and then the placeholder. *)
Definition pushed (n : JsonNode) (depth : nat) : list (JsonNode * nat) :=
  let count := length (child_list n) in
  if decide (CHILD_LIMIT < count) then
    ((fun c => (c, depth + 1)) <$> take CHILD_LIMIT (child_list n))
    ++ [(placeholderNode n (count - CHILD_LIMIT), depth + 1)]
  else (fun c => (c, depth + 1)) <$> child_list n.

(** [hasChildren && (defaultExpanded || expandedPaths.has(node.path))]. *)
Definition expanded (defaultExpanded : bool) (expandedPaths : gset string)
    (n : JsonNode) : bool :=
  has_children n && (defaultExpanded || bool_decide (path n ∈ expandedPaths)).

(** The number of nodes of a tree, the termination measure of the loop. *)
Fixpoint node_size (n : JsonNode) : nat :=
  match n with
  | mkJsonNode _ _ _ _ (Some l) => S (list_sum (map node_size l))
  | mkJsonNode _ _ _ _ None => 1
  end.

Definition stack_size (stack : list (JsonNode * nat)) : nat :=
  list_sum (map (fun nd => node_size nd.1) stack).

Lemma node_size_pos (n : JsonNode) : 0 < node_size n.
Proof. destruct n as [? ? ? ? [l|]]; simpl; lia. Qed.

Lemma node_size_children (n : JsonNode) :
  node_size n = S (list_sum (map node_size (child_list n))).
Proof. by destruct n as [? ? ? ? [l|]]. Qed.

Lemma stack_size_app (s1 s2 : list (JsonNode * nat)) :
  stack_size (s1 ++ s2) = stack_size s1 + stack_size s2.
Proof. unfold stack_size. by rewrite map_app, list_sum_app. Qed.

Lemma stack_size_fmap (l : list JsonNode) (d : nat) :
  stack_size ((fun c => (c, d)) <$> l) = list_sum (map node_size l).
Proof.
  unfold stack_size. induction l as [|x l IH]; [done|].
  rewrite fmap_cons. simpl. by rewrite IH.
Qed.

Lemma pushed_size (n : JsonNode) (depth : nat) :
  stack_size (pushed n depth) < node_size n.
Proof.
  rewrite node_size_children. unfold pushed. case_decide as Hcount.
  - rewrite stack_size_app, stack_size_fmap.
    assert (list_sum (map node_size (child_list n))
            = list_sum (map node_size (take CHILD_LIMIT (child_list n)))
              + list_sum (map node_size (drop CHILD_LIMIT (child_list n)))) as ->.
    { by rewrite <- list_sum_app, <- map_app, take_drop. }
    assert (0 < list_sum (map node_size (drop CHILD_LIMIT (child_list n)))).
    { destruct (drop CHILD_LIMIT (child_list n)) as [|x l] eqn:Hdrop.
      - apply (f_equal length) in Hdrop. rewrite length_drop in Hdrop.
        simpl in Hdrop. lia.
      - simpl. pose proof (node_size_pos x). lia. }
    unfold stack_size. simpl. lia.
  - rewrite stack_size_fmap. lia.
Qed.

(** The loop [while (stack.length > 0)]; the head of [stack] is its top. *)
Equations? loop (defaultExpanded : bool) (expandedPaths : gset string)
    (stack : list (JsonNode * nat)) (result : list FlatNode) : list FlatNode
  by wf (stack_size stack) lt :=
loop defaultExpanded expandedPaths [] result := result;
loop defaultExpanded expandedPaths ((n, depth) :: stack) result :=
  if decide (GLOBAL_RENDER_LIMIT ≤ length result) then result ++ [truncated_global]
  else if expanded defaultExpanded expandedPaths n
       then loop defaultExpanded expandedPaths (pushed n depth ++ stack)
                 (result ++ [row n depth])
       else loop defaultExpanded expandedPaths stack (result ++ [row n depth]).
Proof.
  - rewrite stack_size_app.
    match goal with
    | |- context [pushed ?n ?d] => pose proof (pushed_size n d)
    end.
    unfold stack_size in *. simpl. lia.
  - pose proof (node_size_pos n). unfold stack_size. simpl. lia.
Qed.

Definition visibleNodes (data : JsonNode) (defaultExpanded : bool)
    (expandedPaths : gset string) : list FlatNode :=
  loop defaultExpanded expandedPaths [(data, 0)] [].

End JsonTree.


(** * Vocabulary of the statements *)

(** A flat record: distinct keys, scalar values. *)
Definition flat_record (o : record) : Prop :=
  NoDup (keys o) ∧ Forall (fun kv => is_scalar kv.2 = true) o.

(** The cells the guard visits, in scan order: the entries of every row that
    is a non-null object. *)
Definition cells (rows : list value) : record :=
  rows ≫= (fun row => if is_object row then entries row else []).

(** The distinct column keys of a run of cells. *)
Definition columns (es : record) : gset string := list_to_set (keys es).

(** No cell of [es] is a string longer than [MAX_CELL_CHARS]. *)
Definition cells_fit (es : record) : Prop :=
  Forall (fun kv => cell_too_long kv.2 = false) es.

(** The rows and the context an Excel-worker request hands to the guard,
    call site by call site. *)
Inductive guarded (parseJsonInput : Data → throws value)
    (XLSX_sheet_to_json : Data → throws (list value))
  : WorkerMessage.t Request → list value → string → Prop :=
  | guarded_export m jsonData :
      WorkerMessage.type m = "CONVERT_EXCEL" →
      convType (WorkerMessage.payload m) = Some "json-to-excel" →
      parseJsonInput (data (WorkerMessage.payload m)) = inr jsonData →
      guarded parseJsonInput XLSX_sheet_to_json m
        (if wants_flatten (options (WorkerMessage.payload m))
         then map flattenObject (as_rows jsonData)
         else sanitizeForTabular (as_rows jsonData))
        "Excel export"
  | guarded_parse m jsonData :
      WorkerMessage.type m = "CONVERT_EXCEL" →
      convType (WorkerMessage.payload m) = Some "excel-to-json" →
      XLSX_sheet_to_json (data (WorkerMessage.payload m)) = inr jsonData →
      guarded parseJsonInput XLSX_sheet_to_json m jsonData "Excel parse"
  | guarded_preview m jsonData :
      WorkerMessage.type m = "PARSE_FOR_PREVIEW"
      ∨ WorkerMessage.type m = "PARSE_FOR_PREVIEW_STREAM" →
      parseJsonInput (data (WorkerMessage.payload m)) = inr jsonData →
      guarded parseJsonInput XLSX_sheet_to_json m
        (if wants_flatten (options (WorkerMessage.payload m))
         then map flattenObject (as_rows jsonData)
         else as_rows jsonData)
        "Preview parse"
  | guarded_excel_stream m rows :
      WorkerMessage.type m = "PREVIEW_EXCEL_STREAM" →
      XLSX_sheet_to_json (data (WorkerMessage.payload m)) = inr rows →
      guarded parseJsonInput XLSX_sheet_to_json m
        (if wants_flatten (options (WorkerMessage.payload m))
         then map flattenObject rows
         else rows)
        "Excel preview parse".

(** A string of [p] copies of the letter x. *)
Definition xs (p : positive) : string :=
  Pos.iter (String (Ascii.ascii_of_nat 120)) EmptyString p.

(** One row with a cell of 200,001 characters, then 100,000 more rows. *)
Definition oversized_rows : list value :=
  VObj [("note", VStr (xs 200001))] :: replicate (N.to_nat 100000) VNull.


(** Ten parsed rows [0..9] and three supplied rows [100..102]. *)
Definition ten_rows : list value :=
  (fun n => VNum (Number.of_Z (Z.of_nat n))) <$> seq 0 10.
Definition three_edits : list value := [VNum 100; VNum 101; VNum 102].

Import WorkerManager.

Section ManagerVocabulary.

Context {TRequest TResponse : Type}.

(** What [cancelAll(reason)] leaves behind, from the state [s] it ran in. *)
Definition torn_down (reason : string) (s s' : State TRequest TResponse) : Prop :=
  (∀ type timerId,
     debounceTimers (this s) !! type = Some timerId →
     timers (host s') !! timerId = None)
  ∧ (∀ id p,
       errorHandlers (this s) !! id = Some p →
       promises (host s) !! p = Some None →
       promises (host s') !! p = Some (Some (Rejected reason)))
  ∧ messageHandlers (this s') = ∅
  ∧ errorHandlers (this s') = ∅
  ∧ progressHandlers (this s') = ∅
  ∧ debounceTimers (this s') = ∅
  ∧ worker (this s') = None
  ∧ (∀ w, worker (this s) = Some w → w ∈ terminated (host s')).

(** [o] is the promise of a debounced call: allocated, and no stored
    handler settles it. *)
Definition outer_ok (s : State TRequest TResponse) (o : nat) : Prop :=
  o < nextPromise (host s) ∧ ∀ id, errorHandlers (this s) !! id ≠ Some o.

(** What holds of every state a manager can be in between two handlers. *)
Record consistent (s : State TRequest TResponse) : Prop := mkConsistent {
  inv_same : messageHandlers (this s) = errorHandlers (this s);
  inv_pending : ∀ id p,
    errorHandlers (this s) !! id = Some p →
    promises (host s) !! p = Some None ∧ p < nextPromise (host s);
  inv_inj : ∀ id id' p,
    errorHandlers (this s) !! id = Some p →
    errorHandlers (this s) !! id' = Some p → id = id';
  inv_timers : ∀ t cb,
    timers (host s) !! t = Some cb → outer_ok s (cb_outer cb);
  inv_chains : ∀ p o ty,
    chains (host s) !! p = Some (o, ty) → outer_ok s o;
  inv_micro : ∀ r, r ∈ microtasks (host s) → outer_ok s (re_outer r) }.

(** The arguments of one [postMessage(type, ...)] call. *)
Record Submission := mkSubmission {
  sub_payload : TRequest;
  sub_transfer : option (list nat);
  sub_debounceMs : Z;
  sub_onProgress : option nat }.

Definition submit (type : string) (x : Submission) : Event TRequest TResponse :=
  Submit type (sub_payload x) (sub_transfer x) (sub_debounceMs x)
         (sub_onProgress x).

(** The timers of [s] without the one recorded for [type]. *)
Definition drop_old (type : string) (s : State TRequest TResponse) : gmap nat (TimerCallback TRequest) :=
  match debounceTimers (this s) !! type with
  | Some timerId => delete timerId (timers (host s))
  | None => timers (host s)
  end.

(** No timer is scheduled under an identifier not yet handed out. *)
Definition timers_fresh (s : State TRequest TResponse) : Prop :=
  ∀ t, nextTimer (host s) ≤ t → timers (host s) !! t = None.

End ManagerVocabulary.

Arguments Submission : clear implicits.

(** Two requests on a fresh manager: one in flight, one waiting for its
    debounce timer. *)
Definition busy_manager : State string string :=
  run [Submit "CONVERT_EXCEL" "sheet" None 0 None;
       Submit "SEARCH_JSON" "query" None 150 None] new.

(** A search for "a" is in flight and "b" has been submitted when the
    worker's reply for "a" arrives. *)
Definition reply_before_cancel : list (Event string string) :=
  [Submit "SEARCH_JSON" "a" None 150 None;
   TimerFires 0;
   Submit "SEARCH_JSON" "b" None 150 None;
   WorkerReplies 0
     (WorkerResponse.mk "SEARCH_RESULT" "hits for a" (Some "SEARCH_JSON-0") None)].

(** A search for "a" is in flight; "b", "c" and "d" are then submitted, each
    before the timer of the one before fires, and the worker's reply for "a"
    arrives between "b" and "c". *)
Definition reply_during_burst : list (Event string string) :=
  [Submit "SEARCH_JSON" "a" None 150 None;
   TimerFires 0;
   Submit "SEARCH_JSON" "b" None 150 None;
   WorkerReplies 0
     (WorkerResponse.mk "SEARCH_RESULT" "hits for a" (Some "SEARCH_JSON-0") None);
   Submit "SEARCH_JSON" "c" None 150 None;
   Submit "SEARCH_JSON" "d" None 150 None].

Section WorkerVocabulary.

Context {TRequest TResponse : Type}.

(** The worker the manager holds was created by its factory and has not been
    terminated; every terminated worker was created by the factory. *)
Definition worker_live (s : State TRequest TResponse) : Prop :=
  (∀ w, worker (this s) = Some w →
        w < nextWorker (host s) ∧ w ∉ terminated (host s))
  ∧ (∀ w, w ∈ terminated (host s) → w < nextWorker (host s)).

(** [`${type}-${n}`], the id [executePostMessage] gives request number [n]. *)
Definition request_id (type : string) (n : nat) : string :=
  type +:+ "-" +:+ pretty n.

(** [id] was given to one of the first [bound] requests. *)
Definition issued (bound : nat) (id : string) : Prop :=
  ∃ type n, id = request_id type n ∧ n < bound.

(** The ids in use (recorded in a handler map, or carried by a dispatched
    request) were all issued, and no two dispatched requests share one. *)
Definition ids_issued (s : State TRequest TResponse) : Prop :=
  (∀ id, is_Some (messageHandlers (this s) !! id) → issued (messageId (this s)) id)
  ∧ (∀ id, is_Some (errorHandlers (this s) !! id) → issued (messageId (this s)) id)
  ∧ (∀ id, is_Some (progressHandlers (this s) !! id) → issued (messageId (this s)) id)
  ∧ (∀ m, m ∈ dispatched s →
          ∃ n, n < messageId (this s)
               ∧ WorkerMessage.id m = Some (request_id (WorkerMessage.type m) n))
  ∧ NoDup (WorkerMessage.id <$> dispatched s).

(** What the manager does with a reply of its worker that ends request
    [id]. *)
Definition settlement_of (e : WorkerResponse.t TResponse) : Settlement TResponse :=
  if bool_decide (WorkerResponse.type e = "PREVIEW_COMPLETE") then
    Resolved (WorkerResponse.payload e)
  else
    match WorkerResponse.error e with
    | Some error =>
        if truthy (Some error) then Rejected error
        else Resolved (WorkerResponse.payload e)
    | None => Resolved (WorkerResponse.payload e)
    end.

End WorkerVocabulary.

(** The string has a hyphen in it. *)
Fixpoint has_dash (s : string) : bool :=
  match s with
  | EmptyString => false
  | String c s' => bool_decide (c = Ascii.ascii_of_nat 45) || has_dash s'
  end.

Section ChainVocabulary.

Context {TRequest TResponse : Type}.

(** No promise of a debounced call (the [outer] of a timer, of a chain or
    of a queued reaction) has a chain of its own, and only promises handed
    out have one: settling such a promise queues nothing. *)
Definition calm (h : Host TRequest TResponse) : Prop :=
  (∀ r, r ∈ microtasks h → chains h !! re_outer r = None)
  ∧ (∀ t cb, timers h !! t = Some cb → chains h !! cb_outer cb = None)
  ∧ (∀ p o ty, chains h !! p = Some (o, ty) → chains h !! o = None)
  ∧ (∀ p, is_Some (chains h !! p) → p < nextPromise h).

End ChainVocabulary.

(** ** What a worker answers *)

(** A successful answer to request [id]: batches, if any, then one closing
    response, none of them with an error. *)
Definition reply_ok (id : option string) (rs : list Posted) : Prop :=
  ∃ (chunks : list Posted) (last : Posted),
    rs = chunks ++ [last]
    ∧ Forall (fun r : Posted =>
                WorkerResponse.type r = "PREVIEW_CHUNK"
                ∧ WorkerResponse.id r = id
                ∧ WorkerResponse.error r = None) chunks
    ∧ WorkerResponse.id last = id
    ∧ WorkerResponse.error last = None
    ∧ WorkerResponse.type last
      ∈ ["PREVIEW_COMPLETE"; "CONVERSION_SUCCESS"; "PARSE_SUCCESS"].

(** The requests the Excel worker has a branch for. *)
Definition excel_recognised (m : WorkerMessage.t Request) : bool :=
  bool_decide
    (WorkerMessage.type m = "CONVERT_EXCEL"
     ∧ (convType (WorkerMessage.payload m) = Some "json-to-excel"
        ∨ convType (WorkerMessage.payload m) = Some "excel-to-json"))
  || bool_decide
       (WorkerMessage.type m
        ∈ ["PARSE_FOR_PREVIEW"; "PARSE_FOR_PREVIEW_STREAM"; "PREVIEW_EXCEL_STREAM"]).

(** The requests the embedded branches of the CSV worker answer. *)
Definition csv_recognised (m : WorkerMessage.t Request) : bool :=
  bool_decide
    (WorkerMessage.type m = "CONVERT_CSV"
     ∧ (convType (WorkerMessage.payload m) = Some "json-to-csv"
        ∨ convType (WorkerMessage.payload m) = Some "csv-to-json"))
  || bool_decide
       (WorkerMessage.type m ∈ ["PARSE_FOR_PREVIEW"; "PARSE_FOR_PREVIEW_STREAM"]).

(** ** File names *)

(** Every character of [s] passes the test [p]. *)
Fixpoint all_chars (p : Ascii.ascii → bool) (s : string) : bool :=
  match s with
  | EmptyString => true
  | String c s' => p c && all_chars p s'
  end.

(** [c] occurs in [s]. *)
Fixpoint has_char (c : Ascii.ascii) (s : string) : bool :=
  match s with
  | EmptyString => false
  | String c' s' => bool_decide (c' = c) || has_char c s'
  end.

(** The last character of [s] is [c]. *)
Fixpoint ends_with (c : Ascii.ascii) (s : string) : bool :=
  match s with
  | EmptyString => false
  | String c' EmptyString => bool_decide (c' = c)
  | String _ s' => ends_with c s'
  end.

Definition starts_with_whitespace (s : string) : bool :=
  match s with
  | EmptyString => false
  | String c _ => FileName.is_whitespace c
  end.

(** A name that can be given to a file: none of the characters of
    [INVALID_FILENAME_CHARS], no dot at the end, no white space in front. *)
Definition clean_name (s : string) : Prop :=
  all_chars (fun c => negb (FileName.is_invalid c)) s = true
  ∧ ends_with FileName.dot s = false
  ∧ starts_with_whitespace s = false.

(** A stretch of a name with no white space and no invalid character. *)
Definition plain (s : string) : Prop :=
  all_chars (fun c => negb (FileName.is_invalid c) && negb (FileName.is_whitespace c)) s
  = true.

(** ** The tree view *)

Section TreeVocabulary.

Import JsonTree.

Variables (defaultExpanded : bool) (expandedPaths : gset string).

(** The rows of a tree in document order: a node, then, if it is expanded,
    the rows of its first [CHILD_LIMIT] children and, if it has more, the
    placeholder that stands for the others. *)
Fixpoint preorder (depth : nat) (n : JsonNode) {struct n} : list FlatNode :=
  row n depth ::
  if expanded defaultExpanded expandedPaths n then
    match n with
    | mkJsonNode _ _ _ _ (Some kids) =>
        (fix go (budget : nat) (l : list JsonNode) {struct l} : list FlatNode :=
           match l, budget with
           | x :: l', S budget' => preorder (depth + 1) x ++ go budget' l'
           | _, _ => []
           end) CHILD_LIMIT kids
        ++ (if decide (CHILD_LIMIT < length kids)
            then [row (placeholderNode n (length kids - CHILD_LIMIT)) (depth + 1)]
            else [])
    | _ => []
    end
  else [].

(** The rows of the nodes on a stack, top first. *)
Definition preorder_stack (stack : list (JsonNode * nat)) : list FlatNode :=
  stack ≫= (fun nd => preorder nd.2 nd.1).

End TreeVocabulary.

(** ** The leaves of a nested object *)

(** The fields of one level that [flattenObject] writes at once: the scalar
    fields as they are and the array fields as JSON text, under the key
    joined to [prefix]. *)
Definition own_leaves (prefix : string) (es : record) : record :=
  omap (fun kv => match kv.2 with
                  | VObj _ => None
                  | VArr _ => Some (newKey prefix kv.1, VStr (JSON_stringify kv.2))
                  | _ => Some (newKey prefix kv.1, kv.2)
                  end) es.

(** The nested objects of one level, with the prefix of their fields. *)
Definition nested_objects (prefix : string) (es : record) : list frame :=
  omap (fun kv => match kv.2 with
                  | VObj _ => Some (kv.2, newKey prefix kv.1)
                  | _ => None
                  end) es.

(** The leaves of an object in the order [flattenObject] reaches them: the
    leaves of its own level, then the leaves of its nested objects, the
    last nested object first. *)
Fixpoint leaves (prefix : string) (v : value) {struct v} : record :=
  match v with
  | VObj fields =>
      own_leaves prefix fields
      ++ (fix below (es : record) {struct es} : record :=
            match es with
            | [] => []
            | (k, x) :: es' =>
                below es' ++ match x with
                             | VObj _ => leaves (newKey prefix k) x
                             | _ => []
                             end
            end) fields
  | _ => []
  end.

(** The same for the properties [es] of the value a frame holds. *)
Definition leaves_of_entries (prefix : string) (es : record) : record :=
  own_leaves prefix es
  ++ (reverse (nested_objects prefix es) ≫= (fun f => leaves f.2 f.1)).

(** Creating properties one after the other. *)
Definition define_all (o : record) (kvs : record) : record :=
  foldl (fun r kv => define_prop kv.1 kv.2 r) o kvs.

(** Writing key/value pairs into an object one after the other. *)
Definition write_all (result : object) (kvs : record) : object :=
  foldl (fun r kv => set_prop kv.1 kv.2 r) result kvs.

(** * Properties *)

(** ** The chunk emitter *)

Section EmitterFacts.

Implicit Types (rows cappedRows : list value) (id : option string).

Lemma slice_length {A : Type} (start end_ : nat) (xs : list A) :
  length (slice start end_ xs) = ((end_ - start) `min` (length xs - start))%nat.
Proof. unfold slice. by rewrite length_take, length_drop. Qed.

Lemma slice_0 {A : Type} (n : nat) (xs : list A) : slice 0 n xs = take n xs.
Proof. unfold slice. by rewrite Nat.sub_0_r. Qed.

Lemma chunk_loop_unfold cappedRows total id index ci :
  chunk_loop cappedRows total id index ci =
  if decide (index < length cappedRows)%nat
  then WorkerResponse.mk "PREVIEW_CHUNK"
         (Chunk (mkChunk (slice index (index + chunk_size ci) cappedRows) ci total
                   (bool_decide (length cappedRows ≤ index + chunk_size ci)%nat)))
         id None
       :: chunk_loop cappedRows total id (index + chunk_size ci) (ci + 1)
  else [].
Proof.
  rewrite chunk_loop_equation_1.
  destruct (decide _); simpl; [|done].
  by f_equal.
Qed.

(** Induction on the number of rows the loop still has to emit. *)
Lemma chunk_loop_ind (P : nat → nat → Prop) cappedRows :
  (∀ index ci, (length cappedRows ≤ index)%nat → P index ci) →
  (∀ index ci, (index < length cappedRows)%nat →
     P (index + chunk_size ci)%nat (ci + 1)%nat → P index ci) →
  ∀ index ci, P index ci.
Proof.
  intros Hstop Hgo index ci.
  remember (length cappedRows - index)%nat as n eqn:Hn.
  revert index ci Hn.
  induction n as [n IH] using lt_wf_ind; intros index ci Hn.
  destruct (decide (index < length cappedRows)%nat) as [Hlt|Hge].
  - apply Hgo; [done|].
    apply (IH (length cappedRows - (index + chunk_size ci))%nat); [|done].
    pose proof (chunk_size_pos ci). lia.
  - apply Hstop. lia.
Qed.

Lemma batches_cons_chunk (r : Posted) (p : PreviewChunkPayload) (rs : list Posted) :
  WorkerResponse.payload r = Chunk p → batches (r :: rs) = p :: batches rs.
Proof. intros H. unfold batches. simpl. by rewrite H. Qed.

Lemma batches_app (rs1 rs2 : list Posted) :
  batches (rs1 ++ rs2) = batches rs1 ++ batches rs2.
Proof. apply omap_app. Qed.

(** Every response of the loop is a chunk batch. *)
Lemma chunk_loop_types cappedRows total id index ci :
  Forall (fun r : Posted => WorkerResponse.type r = "PREVIEW_CHUNK")
         (chunk_loop cappedRows total id index ci).
Proof.
  revert index ci. apply (chunk_loop_ind _ cappedRows); intros index ci Hi.
  - rewrite chunk_loop_unfold. by rewrite decide_False by lia.
  - intros IH. rewrite chunk_loop_unfold, decide_True by done.
    by constructor.
Qed.

(** The rows of the batches, put end to end, are the capped rows from
    [index] on. *)
Lemma chunk_loop_rows cappedRows total id index ci :
  emitted_rows (chunk_loop cappedRows total id index ci) = drop index cappedRows.
Proof.
  revert index ci. apply (chunk_loop_ind _ cappedRows); intros index ci Hi.
  - rewrite chunk_loop_unfold, decide_False by lia.
    by rewrite drop_ge.
  - intros IH. rewrite chunk_loop_unfold, decide_True by done.
    unfold emitted_rows in *. erewrite batches_cons_chunk by done.
    rewrite fmap_cons, concat_cons, IH. simpl. unfold slice.
    replace (index + chunk_size ci - index)%nat with (chunk_size ci) by lia.
    rewrite <- drop_drop. apply take_drop.
Qed.

(** The loop emits nothing exactly when no row is left. *)
Lemma chunk_loop_nil cappedRows total id index ci :
  (length cappedRows ≤ index)%nat → chunk_loop cappedRows total id index ci = [].
Proof. intros H. rewrite chunk_loop_unfold. by rewrite decide_False by lia. Qed.

(** Batch [j] of the loop: its index, where it starts, and its size. *)
Lemma chunk_loop_batch cappedRows total id index ci :
  ∀ (j : nat) (b : PreviewChunkPayload),
    batches (chunk_loop cappedRows total id index ci) !! j = Some b →
    let start :=
      index + length (concat (chunk <$> take j
                 (batches (chunk_loop cappedRows total id index ci)))) in
    chunkIndex b = ci + j
    ∧ totalRows b = total
    ∧ start < length cappedRows
    ∧ length (chunk b) = (length cappedRows - start) `min` chunk_size (ci + j).
Proof.
  revert index ci.
  apply (chunk_loop_ind (fun index ci => ∀ j b,
    batches (chunk_loop cappedRows total id index ci) !! j = Some b →
    chunkIndex b = ci + j
    ∧ totalRows b = total
    ∧ index + length (concat (chunk <$> take j
               (batches (chunk_loop cappedRows total id index ci))))
      < length cappedRows
    ∧ length (chunk b)
      = (length cappedRows -
         (index + length (concat (chunk <$> take j
               (batches (chunk_loop cappedRows total id index ci))))))
        `min` chunk_size (ci + j)) cappedRows); intros index ci Hi.
  - intros j b. by rewrite chunk_loop_nil.
  - intros IH j b. rewrite chunk_loop_unfold, decide_True by done.
    erewrite batches_cons_chunk by done.
    destruct j as [|j]; simpl.
    + intros [= <-]. simpl. rewrite slice_length.
      rewrite !Nat.add_0_r. repeat split; [done|lia].
    + intros Hb. destruct (IH j b Hb) as (Hci & Htot & Hstart & Hlen).
      rewrite length_app, slice_length.
      assert (index + chunk_size ci < length cappedRows)%nat as Hfull.
      { destruct (decide (index + chunk_size ci < length cappedRows)%nat);
          [done|].
        rewrite chunk_loop_nil in Hb by lia. done. }
      replace ((index + chunk_size ci - index) `min`
               (length cappedRows - index))%nat
        with (chunk_size ci) by lia.
      rewrite Nat.add_assoc.
      replace (ci + S j)%nat with (ci + 1 + j)%nat by lia.
      done.
Qed.

Lemma emit_batches_nonempty rows id :
  slice 0 PREVIEW_LIMIT rows ≠ [] →
  batches (emitPreviewChunks rows id)
  = batches (chunk_loop (slice 0 PREVIEW_LIMIT rows) (length rows) id 0 0).
Proof.
  intros Hne. unfold emitPreviewChunks. cbv zeta.
  rewrite decide_False by (by destruct (slice 0 PREVIEW_LIMIT rows)).
  rewrite !batches_app. simpl. by rewrite app_nil_r.
Qed.

(** C2: for a row sequence of length N > 1000, the batches of
    [emitPreviewChunks] carry exactly 1000 rows in total (the first 1000
    rows, in order), and the stream ends with one [PREVIEW_COMPLETE]
    response whose payload has [totalRows = N] and [previewRows = 1000]. *)
Theorem preview_cap_reports_true_total rows id :
  1000 < length rows →
  emitted_rows (emitPreviewChunks rows id) = take 1000 rows
  ∧ list_sum (length ∘ chunk <$> batches (emitPreviewChunks rows id)) = 1000
  ∧ ∃ chunks : list Posted,
      emitPreviewChunks rows id
      = chunks ++ [WorkerResponse.mk "PREVIEW_COMPLETE"
                     (Complete (length rows) 1000) id None]
      ∧ Forall (fun r : Posted => WorkerResponse.type r = "PREVIEW_CHUNK") chunks.
Proof.
  intros HN.
  assert (length (slice 0 PREVIEW_LIMIT rows) = 1000) as Hcap.
  { rewrite slice_0, length_take. unfold PREVIEW_LIMIT. lia. }
  assert (emitted_rows (emitPreviewChunks rows id) = take 1000 rows) as Hrows.
  { unfold emitted_rows. rewrite emit_batches_nonempty.
    - fold (emitted_rows (chunk_loop (slice 0 PREVIEW_LIMIT rows)
                            (length rows) id 0 0)).
      rewrite chunk_loop_rows, slice_0. done.
    - intros Hnil. by rewrite Hnil in Hcap. }
  split; [done|]. split.
  - unfold emitted_rows in Hrows.
    apply (f_equal length) in Hrows.
    rewrite length_concat, <- list_fmap_compose, length_take in Hrows. lia.
  - exists (chunk_loop (slice 0 PREVIEW_LIMIT rows) (length rows) id 0 0).
    split; [|apply chunk_loop_types].
    unfold emitPreviewChunks. cbv zeta. rewrite Hcap.
    rewrite decide_False by done. done.
Qed.

Lemma preview_cap_reports_true_total_witness :
  1000 < length (replicate 1001 VNull)
  ∧ list_sum (length ∘ chunk <$>
                batches (emitPreviewChunks (replicate 1001 VNull) (Some "PREVIEW-0")))
    = 1000.
Proof.
  assert (1000 < length (replicate 1001 VNull)) as H
    by (rewrite length_replicate; lia).
  split; [exact H|].
  exact (proj1 (proj2 (preview_cap_reports_true_total _ (Some "PREVIEW-0") H))).
Defined.

(** C3: when the capped sequence has N >= 1 rows, the first batch holds
    min(N, 100) rows and every later batch min(remaining, 200) rows, where
    [remaining] counts the capped rows not yet emitted (and is positive);
    batch [i] carries [chunkIndex = i], so indices start at 0 and go up by
    one.  Batches follow as long as capped rows remain: the batches
    together carry the capped rows, each once and in order. *)
Theorem chunk_sizing rows id :
  let N := length (slice 0 PREVIEW_LIMIT rows) in
  let sent := batches (emitPreviewChunks rows id) in
  1 ≤ N →
  (∃ first, sent !! 0 = Some first ∧ length (chunk first) = N `min` 100)
  ∧ (∀ (i : nat) (b : PreviewChunkPayload),
       sent !! i = Some b →
       let remaining := N - length (concat (chunk <$> take i sent)) in
       chunkIndex b = i
       ∧ 0 < remaining
       ∧ length (chunk b)
         = if decide (i = 0) then N `min` 100 else remaining `min` 200)
  ∧ (∀ i : nat,
       length (concat (chunk <$> take i sent)) < N → is_Some (sent !! i))
  ∧ concat (chunk <$> sent) = slice 0 PREVIEW_LIMIT rows.
Proof.
  intros N sent HN.
  assert (slice 0 PREVIEW_LIMIT rows ≠ []) as Hne.
  { intros Hnil. subst N. rewrite Hnil in HN. simpl in HN. lia. }
  assert (∀ (i : nat) (b : PreviewChunkPayload),
      sent !! i = Some b →
      chunkIndex b = i
      ∧ 0 < N - length (concat (chunk <$> take i sent))
      ∧ length (chunk b)
        = if decide (i = 0) then N `min` 100
          else (N - length (concat (chunk <$> take i sent))) `min` 200) as Hall.
  { intros i b. subst sent. rewrite emit_batches_nonempty by done.
    intros Hb. apply chunk_loop_batch in Hb. cbv zeta in Hb.
    destruct Hb as (Hci & _ & Hstart & Hlen). simpl in *.
    fold N in Hstart, Hlen. repeat split; [done|lia|].
    rewrite Hlen. unfold chunk_size, FIRST_PREVIEW_CHUNK, PREVIEW_CHUNK_SIZE.
    destruct i; simpl; [lia|done]. }
  assert (concat (chunk <$> sent) = slice 0 PREVIEW_LIMIT rows) as Hcover.
  { subst sent. rewrite emit_batches_nonempty by done.
    fold (emitted_rows (chunk_loop (slice 0 PREVIEW_LIMIT rows) (length rows) id 0 0)).
    apply chunk_loop_rows. }
  split; [|split; [exact Hall|split; [|exact Hcover]]].
  - destruct (sent !! 0) as [first|] eqn:Hfirst.
    + exists first. split; [done|].
      destruct (Hall 0 first Hfirst) as (_ & _ & Hlen). done.
    + exfalso. subst sent. rewrite emit_batches_nonempty in Hfirst by done.
      rewrite chunk_loop_unfold, decide_True in Hfirst by (fold N; lia).
      by erewrite batches_cons_chunk in Hfirst.
  - intros i Hi. destruct (sent !! i) as [b|] eqn:Hb; [by exists b|].
    exfalso. apply lookup_ge_None in Hb.
    rewrite take_ge, Hcover in Hi by done. fold N in Hi. lia.
Qed.

Lemma chunk_sizing_witness :
  1 ≤ length (slice 0 PREVIEW_LIMIT (replicate 350 VNull))
  ∧ ∃ first,
      batches (emitPreviewChunks (replicate 350 VNull) None) !! 0 = Some first
      ∧ length (chunk first)
        = length (slice 0 PREVIEW_LIMIT (replicate 350 VNull)) `min` 100.
Proof.
  assert (1 ≤ length (slice 0 PREVIEW_LIMIT (replicate 350 VNull))) as H
    by (vm_compute; lia).
  split; [exact H|].
  exact (proj1 (chunk_sizing (replicate 350 VNull) None H)).
Defined.

(** C9: when the capped sequence is empty the emitter posts exactly one
    batch, empty, with index 0 and marked final, and then one
    [PREVIEW_COMPLETE] response with the total and the emitted row counts;
    and whatever the rows, at least one [PREVIEW_CHUNK] response comes
    before the single terminal [PREVIEW_COMPLETE]. *)
Theorem empty_preview_still_emits_a_batch rows id :
  (slice 0 PREVIEW_LIMIT rows = [] →
   emitPreviewChunks rows id
   = [WorkerResponse.mk "PREVIEW_CHUNK"
        (Chunk (mkChunk [] 0 (length rows) true)) id None;
      WorkerResponse.mk "PREVIEW_COMPLETE" (Complete (length rows) 0) id None])
  ∧ ∃ (first : Posted) (more : list Posted),
      emitPreviewChunks rows id
      = first :: more
        ++ [WorkerResponse.mk "PREVIEW_COMPLETE"
              (Complete (length rows) (length (slice 0 PREVIEW_LIMIT rows)))
              id None]
      ∧ Forall (fun r : Posted => WorkerResponse.type r = "PREVIEW_CHUNK")
               (first :: more).
Proof.
  split.
  - intros Hnil. unfold emitPreviewChunks. cbv zeta. rewrite Hnil.
    by rewrite chunk_loop_nil.
  - unfold emitPreviewChunks. cbv zeta.
    destruct (slice 0 PREVIEW_LIMIT rows) as [|r cappedRows] eqn:Hcap.
    + rewrite chunk_loop_nil by done. simpl.
      eexists _, []. split; [done|]. by repeat constructor.
    + rewrite decide_False by done. rewrite app_nil_l.
      pose proof (chunk_loop_types (r :: cappedRows) (length rows) id 0 0) as Hty.
      destruct (chunk_loop (r :: cappedRows) (length rows) id 0 0)
        as [|first more] eqn:Hloop.
      * rewrite chunk_loop_unfold, decide_True in Hloop by (simpl; lia). done.
      * exists first, more. done.
Qed.

Lemma empty_preview_still_emits_a_batch_witness :
  slice 0 PREVIEW_LIMIT ([] : list value) = []
  ∧ emitPreviewChunks [] (Some "PARSE_FOR_PREVIEW_STREAM-0")
    = [WorkerResponse.mk "PREVIEW_CHUNK" (Chunk (mkChunk [] 0 0 true))
         (Some "PARSE_FOR_PREVIEW_STREAM-0") None;
       WorkerResponse.mk "PREVIEW_COMPLETE" (Complete 0 0)
         (Some "PARSE_FOR_PREVIEW_STREAM-0") None].
Proof.
  split; [reflexivity|].
  exact (proj1 (empty_preview_still_emits_a_batch [] _) eq_refl).
Defined.

End EmitterFacts.

(** ** Flattening and sanitising *)

(** [Number::toString], and [JSON.stringify] on numbers: integers and
    fractions in plain digits, an exponent from 1e21 and below 1e-6, the
    shortest digits that read back for a number above 2^53, no negative
    zero. *)
Example number_texts :
  JSON_stringify
    (VArr (VNum <$> [1; -2.5; 0.1; 1e21; 1e-7; 0.000001;
                     123456789012345680000; 12345678901234567168;
                     (-0)]%float))
  = "[1,-2.5,0.1,1e+21,1e-7,0.000001,123456789012345680000,12345678901234567000,0]".
Proof. by vm_compute. Qed.

Section TabularFacts.

Implicit Types (o es fields kvs : record) (result : object) (k : string) (v : value).

(** *** Creating a property *)

Lemma update_keys k v o :
  keys ((fun kv => if decide (kv.1 = k) then (k, v) else kv) <$> o) = keys o.
Proof.
  unfold keys. induction o as [|[k' v'] o IH]; [done|].
  rewrite !fmap_cons, IH. f_equal. simpl. by destruct (decide (k' = k)).
Qed.

Lemma insert_index_perm (n : N) k v o : insert_index n k v o ≡ₚ (k, v) :: o.
Proof.
  induction o as [|[k' v'] o IH]; simpl; [done|].
  destruct (array_index k') as [n'|]; [|done].
  destruct (n' <? n)%N; [|done]. rewrite IH. apply Permutation_swap.
Qed.

Lemma add_prop_perm k v o : add_prop k v o ≡ₚ (k, v) :: o.
Proof.
  unfold add_prop. destruct (array_index k); [apply insert_index_perm|].
  symmetry. apply Permutation_cons_append.
Qed.

Lemma define_prop_new k v o : k ∉ keys o → define_prop k v o ≡ₚ o ++ [(k, v)].
Proof.
  intros Hk. unfold define_prop. rewrite bool_decide_false by done.
  rewrite add_prop_perm. apply Permutation_cons_append.
Qed.

Lemma elem_of_keys_define_prop x k v o :
  x ∈ keys (define_prop k v o) ↔ x = k ∨ x ∈ keys o.
Proof.
  unfold define_prop. case_bool_decide as Hk.
  - rewrite update_keys. split; [tauto|]. by intros [->|].
  - unfold keys. rewrite add_prop_perm, fmap_cons, elem_of_cons. done.
Qed.

Lemma define_prop_NoDup k v o : NoDup (keys o) → NoDup (keys (define_prop k v o)).
Proof.
  unfold define_prop. case_bool_decide as Hk.
  - by rewrite update_keys.
  - unfold keys. rewrite add_prop_perm, fmap_cons. intros. by apply NoDup_cons.
Qed.

Lemma define_prop_Forall (P : string * value → Prop) k v o :
  P (k, v) → Forall P o → Forall P (define_prop k v o).
Proof.
  intros Hkv Ho. unfold define_prop. case_bool_decide as Hk.
  - apply Forall_fmap. eapply Forall_impl; [exact Ho|].
    intros [k' v'] H. simpl. by destruct (decide (k' = k)).
  - rewrite add_prop_perm. by constructor.
Qed.

Lemma define_prop_lookup o k k' (v v' : value) :
  (k', v') ∈ define_prop k v o ↔ (k' = k ∧ v' = v) ∨ (k' ≠ k ∧ (k', v') ∈ o).
Proof.
  unfold define_prop. case_bool_decide as Hk.
  - rewrite list_elem_of_fmap. split.
    + intros ([k0 v0] & Heq & Hin). simpl in Heq.
      destruct (decide (k0 = k)) as [->|Hne]; injection Heq as -> ->; [by left|by right].
    + intros [[-> ->]|[Hne Hin]].
      * apply list_elem_of_fmap in Hk as ([k0 v0] & -> & Hin).
        exists (k0, v0). simpl. by rewrite decide_True.
      * exists (k', v'). simpl. by rewrite decide_False.
  - rewrite add_prop_perm, elem_of_cons. split.
    + intros [Heq|Hin]; [injection Heq as -> ->; by left|].
      right. split; [|done]. intros ->. apply Hk.
      apply list_elem_of_fmap. by exists (k, v').
    + intros [[-> ->]|[_ Hin]]; [by left|by right].
Qed.

Lemma update_absent k v o :
  k ∉ keys o → (fun kv => if decide (kv.1 = k) then (k, v) else kv) <$> o = o.
Proof.
  unfold keys. induction o as [|[k' v'] o IH]; [done|].
  rewrite !fmap_cons. cbn [fst]. intros Hk.
  apply not_elem_of_cons in Hk as [Hne Hk].
  rewrite decide_False by done. by rewrite IH.
Qed.

Lemma list_to_map_define_prop k v o :
  NoDup (keys o) →
  (list_to_map (define_prop k v o) : gmap string value)
  = <[k := v]> (list_to_map o).
Proof.
  intros Hnd. unfold define_prop. case_bool_decide as Hk.
  - unfold keys in Hnd, Hk.
    induction o as [|[k' v'] o IH]; [by apply elem_of_nil in Hk|].
    rewrite fmap_cons in Hnd, Hk. cbn [fst] in Hnd, Hk.
    apply NoDup_cons in Hnd as [Hk' Hnd].
    rewrite fmap_cons. cbn [fst].
    destruct (decide (k' = k)) as [->|Hne]; rewrite !list_to_map_cons.
    + rewrite insert_insert_eq. f_equal. by rewrite update_absent.
    + apply elem_of_cons in Hk as [->|Hk]; [done|].
      rewrite IH by done. by apply insert_insert_ne.
  - rewrite (list_to_map_proper _ ((k, v) :: o)); [done| |apply add_prop_perm].
    apply (define_prop_NoDup k v) in Hnd. unfold define_prop in Hnd.
    by rewrite bool_decide_false in Hnd.
Qed.

(** *** The order of the properties *)

Lemma array_index_pretty k (n : N) : array_index k = Some n → k = pretty n.
Proof.
  unfold array_index. destruct (digits_value k 0) as [m|]; [|done].
  case_bool_decide as Hk; simpl; [|done].
  destruct (m <? 4294967295)%N; [|done]. by intros [= <-].
Qed.

Lemma key_before_trans k1 k2 k3 :
  key_before k1 k2 = true → key_before k2 k3 = true → key_before k1 k3 = true.
Proof.
  unfold key_before.
  destruct (array_index k1), (array_index k2), (array_index k3);
    rewrite ?N.ltb_lt; try done. lia.
Qed.

Lemma insert_index_sorted (n : N) k v o :
  array_index k = Some n → k ∉ keys o →
  StronglySorted (fun k1 k2 => key_before k1 k2 = true) (keys o) →
  StronglySorted (fun k1 k2 => key_before k1 k2 = true) (keys (insert_index n k v o)).
Proof.
  intros Hn. unfold keys.
  induction o as [|[k' v'] o IH]; intros Hk Hs; simpl.
  - repeat constructor.
  - rewrite fmap_cons in Hk, Hs. simpl in Hk, Hs.
    apply not_elem_of_cons in Hk as [Hne Hk].
    apply StronglySorted_cons in Hs as [Hall Hs].
    assert (key_before k k' = true →
            StronglySorted (fun k1 k2 => key_before k1 k2 = true)
                           (((k, v) :: (k', v') :: o).*1)) as Hfront.
    { intros Hkk'. rewrite !fmap_cons. simpl.
      apply StronglySorted_cons. split.
      - constructor; [done|]. eapply Forall_impl; [exact Hall|].
        intros x Hx. by eapply key_before_trans.
      - by apply StronglySorted_cons. }
    destruct (array_index k') as [n'|] eqn:Hn'.
    + destruct (n' <? n)%N eqn:Hlt.
      * rewrite fmap_cons. simpl. apply StronglySorted_cons. split; [|by apply IH].
        rewrite (insert_index_perm n k v o), fmap_cons. simpl.
        constructor; [|done]. unfold key_before. by rewrite Hn', Hn.
      * apply Hfront. unfold key_before. rewrite Hn, Hn'.
        apply N.ltb_ge in Hlt. apply N.ltb_lt.
        assert (n ≠ n'); [|lia]. intros ->.
        apply array_index_pretty in Hn, Hn'. congruence.
    + apply Hfront. unfold key_before. by rewrite Hn, Hn'.
Qed.

Lemma define_prop_order k v o :
  enumeration_order o → enumeration_order (define_prop k v o).
Proof.
  intros [Hnd Hs]. split; [by apply define_prop_NoDup|].
  unfold define_prop. case_bool_decide as Hk; [by rewrite update_keys|].
  unfold add_prop. destruct (array_index k) as [n|] eqn:Hn.
  - by apply insert_index_sorted.
  - unfold keys. rewrite fmap_app. apply StronglySorted_app. split; [|split].
    + intros x1 x2 _ Hx2. apply list_elem_of_singleton in Hx2 as ->.
      unfold key_before. cbn [fst]. rewrite Hn. by destruct (array_index x1).
    + done.
    + repeat constructor.
Qed.

Lemma enumeration_order_app_l o o' : enumeration_order (o ++ o') → enumeration_order o.
Proof.
  unfold enumeration_order, keys. rewrite fmap_app. intros [Hnd Hs]. split.
  - by apply NoDup_app in Hnd as (? & _ & _).
  - by apply StronglySorted_app_1_l in Hs.
Qed.

Lemma enumeration_order_app_r o o' : enumeration_order (o ++ o') → enumeration_order o'.
Proof.
  unfold enumeration_order, keys. rewrite fmap_app. intros [Hnd Hs]. split.
  - by apply NoDup_app in Hnd as (_ & _ & ?).
  - by apply StronglySorted_app_1_r in Hs.
Qed.

(** A property that [Object.entries] would list last is added last. *)
Lemma define_prop_last k v o :
  enumeration_order (o ++ [(k, v)]) → define_prop k v o = o ++ [(k, v)].
Proof.
  intros [Hnd Hs]. unfold keys in Hnd, Hs. rewrite fmap_app in Hnd, Hs.
  assert (k ∉ keys o) as Hk.
  { apply NoDup_app in Hnd as (_ & Hdisj & _). intros Hin.
    apply (Hdisj k Hin). simpl. by left. }
  unfold define_prop. rewrite bool_decide_false by done.
  unfold add_prop. destruct (array_index k) as [n|] eqn:Hn; [|done].
  assert (∀ x, x ∈ keys o → ∃ m, array_index x = Some m ∧ (m < n)%N) as Hbefore.
  { intros x Hx.
    assert (key_before x k = true) as Hxk.
    { apply (StronglySorted_app_1_elem_of _ _ _ _ _ Hs Hx). simpl. by left. }
    unfold key_before in Hxk. rewrite Hn in Hxk.
    destruct (array_index x) as [m|]; [|done].
    exists m. split; [done|]. by apply N.ltb_lt. }
  clear Hnd Hs Hk. induction o as [|[k' v'] o IH]; [done|].
  simpl. destruct (Hbefore k') as (m & -> & Hm); [by left|].
  assert ((m <? n)%N = true) as -> by (by apply N.ltb_lt).
  rewrite IH; [done|]. intros x Hx. apply Hbefore. by right.
Qed.

(** *** The index keys of an array *)

Lemma digit_value_pretty (d : N) :
  (d < 10)%N → digit_value (pretty_N_char d) = Some d.
Proof.
  intros Hd.
  assert (d = 0 ∨ d = 1 ∨ d = 2 ∨ d = 3 ∨ d = 4 ∨ d = 5 ∨ d = 6 ∨ d = 7
          ∨ d = 8 ∨ d = 9)%N as Hcases by lia.
  repeat (destruct Hcases as [->|Hcases]; [reflexivity|]). by subst.
Qed.

Lemma digits_value_pretty_go (x : N) (s : string) :
  digits_value (pretty_N_go x s) 0 = digits_value s x.
Proof.
  revert s. induction (N.lt_wf_0 x) as [x _ IH]; intros s.
  assert (x = 0 ∨ 0 < x)%N as [->|Hx] by lia.
  - by rewrite pretty_N_go_0.
  - rewrite pretty_N_go_step by done. rewrite IH by (by apply N.div_lt).
    cbn [digits_value]. rewrite digit_value_pretty by (by apply N.mod_lt).
    f_equal. rewrite (N.div_mod x 10) at 3 by done. lia.
Qed.

(** The numeral of an integer below [2^32 - 1] is an array index. *)
Lemma array_index_of_pretty (n : N) :
  (n < 4294967295)%N → array_index (pretty n) = Some n.
Proof.
  intros Hn. unfold array_index.
  assert (digits_value (pretty n) 0 = Some n) as ->.
  { unfold pretty, pretty_N. case_decide as H0; [by subst|].
    by rewrite digits_value_pretty_go. }
  rewrite bool_decide_true by done.
  by assert ((n <? 4294967295)%N = true) as -> by (by apply N.ltb_lt).
Qed.

Lemma pretty_nat_N (n : nat) : pretty n = pretty (N.of_nat n).
Proof. done. Qed.

(** The properties of an array are listed in the order of its elements. *)
Lemma entries_array_order (items : list value) :
  (Z.of_nat (length items) ≤ 4294967295)%Z →
  enumeration_order (entries (VArr items)).
Proof.
  intros Hlen. unfold enumeration_order, keys. cbn [entries].
  assert (∀ (start : nat) (l : list value),
            (Z.of_nat (start + length l) ≤ 4294967295)%Z →
            NoDup (imap (fun i x => (pretty (start + i), x)) l).*1
            ∧ StronglySorted (fun k1 k2 => key_before k1 k2 = true)
                (imap (fun i x => (pretty (start + i), x)) l).*1) as H.
  { intros start l. revert start.
    induction l as [|x l IH]; intros start Hl; [split; constructor|].
    cbn [imap length] in *. rewrite fmap_cons. cbn [fst].
    assert (imap ((fun i x => (pretty (start + i), x)) ∘ S) l
            = imap (fun i x => (pretty (S start + i), x)) l) as Hshift.
    { apply imap_ext. intros i y _. simpl. do 2 f_equal. lia. }
    rewrite Hshift. destruct (IH (S start)) as [Hnd Hs]; [lia|].
    assert (Forall (fun k => key_before (pretty (start + 0)) k = true
                             ∧ k ≠ pretty (start + 0))
                   (imap (fun i x => (pretty (S start + i), x)) l).*1) as Hall.
    { apply Forall_forall. intros k Hk.
      apply list_elem_of_fmap in Hk as ([k' y] & -> & Hin).
      apply elem_of_lookup_imap in Hin as (i & z & Heq & Hi).
      injection Heq as -> _. cbn [fst].
      apply lookup_lt_Some in Hi.
      split.
      - unfold key_before. rewrite !pretty_nat_N.
        rewrite !array_index_of_pretty by lia. apply N.ltb_lt. lia.
      - intros Heq. apply (inj pretty) in Heq. lia. }
    split.
    - apply NoDup_cons. split; [|done]. intros Hin.
      rewrite Forall_forall in Hall. by destruct (Hall _ Hin).
    - apply StronglySorted_cons. split; [|done].
      eapply Forall_impl; [exact Hall|]. by intros k [? _]. }
  destruct (H 0 items) as [Hnd Hs]; [simpl; lia|]. done.
Qed.

(** *** Assigning to a property *)

Lemma set_prop_plain k v result :
  k ≠ "__proto__" →
  set_prop k v result = mkObject (define_prop k v (own result)) (proto result).
Proof.
  intros Hk. unfold set_prop. case_bool_decide; [done|].
  by rewrite (bool_decide_false (k = "__proto__")).
Qed.

Lemma set_prop_own k v result :
  own (set_prop k v result) = own result
  ∨ own (set_prop k v result) = define_prop k v (own result).
Proof.
  unfold set_prop. case_bool_decide; [by right|].
  destruct (bool_decide _ && _); [|by right]. destruct v; by left.
Qed.

(** What holds of the properties of an object, and still does after a
    scalar property is created, holds after a scalar is assigned. *)
Lemma set_prop_keeps (P : record → Prop) k v result :
  (∀ k v o, is_scalar v = true → P o → P (define_prop k v o)) →
  is_scalar v = true → P (own result) → P (own (set_prop k v result)).
Proof.
  intros HP Hv Hres. destruct (set_prop_own k v result) as [->| ->]; [done|].
  by apply HP.
Qed.

Lemma for_in_keeps (P : record → Prop) pfx es (stack : list frame) result :
  (∀ k v o, is_scalar v = true → P o → P (define_prop k v o)) →
  P (own result) → P (own (for_in pfx es stack result).2).
Proof.
  intros HP. revert stack result.
  induction es as [|[k v] es IH]; intros stack result Hres; simpl; [done|].
  destruct v; apply IH; try done; by apply (set_prop_keeps P).
Qed.

Lemma flatten_loop_keeps (P : record → Prop) (stack : list frame) result :
  (∀ k v o, is_scalar v = true → P o → P (define_prop k v o)) →
  P (own result) → P (own (flatten_loop stack result)).
Proof.
  intros HP. funelim (flatten_loop stack result); [done|].
  intros Hres. apply (H P HP). by apply (for_in_keeps P).
Qed.

Lemma sanitize_field_scalar v : is_scalar (sanitize_field v) = true.
Proof. unfold sanitize_field. by destruct v. Qed.

Lemma sanitize_entries_keeps (P : record → Prop) es (sanitized : object) :
  (∀ k v o, is_scalar v = true → P o → P (define_prop k v o)) →
  P (own sanitized) → P (own (sanitize_entries es sanitized)).
Proof.
  intros HP. revert sanitized.
  induction es as [|[k v] es IH]; intros sanitized H; simpl; [done|].
  apply IH, (set_prop_keeps P); [done|apply sanitize_field_scalar|done].
Qed.

Lemma define_prop_flat k v o :
  is_scalar v = true → flat_record o → flat_record (define_prop k v o).
Proof.
  intros Hv [Hnd Hsc]. split; [by apply define_prop_NoDup|].
  by apply define_prop_Forall.
Qed.

Lemma flat_record_nil : flat_record [].
Proof. split; [apply NoDup_nil_2|apply Forall_nil_2]. Qed.

Lemma enumeration_order_nil : enumeration_order [].
Proof. split; [apply NoDup_nil_2|constructor]. Qed.

(** *** The loop of [flattenObject] *)

Lemma nested_objects_cons (prefix k : string) v es :
  nested_objects prefix ((k, v) :: es)
  = match v with
    | VObj _ => [(v, newKey prefix k)]
    | _ => []
    end ++ nested_objects prefix es.
Proof. unfold nested_objects. by destruct v. Qed.

Lemma own_leaves_cons (prefix k : string) v es :
  own_leaves prefix ((k, v) :: es)
  = match v with
    | VObj _ => []
    | VArr _ => [(newKey prefix k, VStr (JSON_stringify v))]
    | _ => [(newKey prefix k, v)]
    end ++ own_leaves prefix es.
Proof. unfold own_leaves. by destruct v. Qed.

Lemma leaves_unfold (prefix : string) fields :
  leaves prefix (VObj fields) = leaves_of_entries prefix fields.
Proof.
  unfold leaves_of_entries. cbn [leaves]. f_equal.
  induction fields as [|[k x] es IH]; [done|].
  rewrite IH, nested_objects_cons, reverse_app, bind_app. f_equal.
  destruct x; try done. rewrite reverse_singleton, bind_cons. simpl.
  by rewrite app_nil_r.
Qed.

Lemma write_all_app result (l1 l2 : record) :
  write_all result (l1 ++ l2) = write_all (write_all result l1) l2.
Proof. apply foldl_app. Qed.

(** One pass of [for (const k in current)]: the leaves of the level are
    written, its nested objects are pushed, the last one on top. *)
Lemma for_in_spec (prefix : string) es (stack : list frame) result :
  for_in prefix es stack result
  = (reverse (nested_objects prefix es) ++ stack,
     write_all result (own_leaves prefix es)).
Proof.
  revert stack result. induction es as [|[k v] es IH]; intros stack result; [done|].
  rewrite nested_objects_cons, own_leaves_cons, reverse_app, write_all_app.
  destruct v; cbn [for_in]; rewrite IH, ?reverse_singleton, ?reverse_nil;
    rewrite <- ?app_assoc, ?app_nil_r; done.
Qed.

Lemma nested_objects_are_objects (prefix : string) es :
  Forall (fun f : frame => match f.1 with VObj _ => True | _ => False end)
         (reverse (nested_objects prefix es)).
Proof.
  apply Forall_reverse, Forall_forall. intros [v p] Hin.
  unfold nested_objects in Hin. apply list_elem_of_omap in Hin as ([k x] & _ & Hx).
  simpl in *. destruct x; try done. by injection Hx as <- <-.
Qed.

Lemma flatten_loop_spec (stack : list frame) result :
  Forall (fun f : frame => match f.1 with VObj _ => True | _ => False end) stack →
  flatten_loop stack result
  = write_all result (stack ≫= (fun f => leaves f.2 f.1)).
Proof.
  funelim (flatten_loop stack result); intros Hstack; [done|].
  apply Forall_cons in Hstack as [Hcur Hstack]. simpl in Hcur.
  destruct current as [| | | | |fields]; try done.
  rewrite for_in_spec. rewrite for_in_spec in H. cbn [fst snd entries] in *.
  rewrite H.
  - rewrite bind_cons, bind_app. cbn [fst snd].
    rewrite leaves_unfold. unfold leaves_of_entries.
    by rewrite !write_all_app.
  - apply Forall_app. split; [apply nested_objects_are_objects|done].
Qed.

(** [flattenObject] writes the leaves of its argument, in the order of
    [leaves_of_entries], into an empty object. *)
Lemma flattenObject_spec (obj : value) :
  is_object obj = true →
  flattenObject obj
  = VObj (own (write_all empty_object (leaves_of_entries "" (entries obj)))).
Proof.
  intros Hobj. unfold flattenObject. rewrite Hobj. simpl. f_equal. f_equal.
  simp flatten_loop. rewrite for_in_spec. cbn [fst snd].
  rewrite flatten_loop_spec.
  - unfold leaves_of_entries. by rewrite app_nil_r, write_all_app.
  - rewrite app_nil_r. apply nested_objects_are_objects.
Qed.

(** Without a key [__proto__], assigning is creating. *)
Lemma write_all_plain result kvs :
  "__proto__" ∉ keys kvs →
  write_all result kvs = mkObject (define_all (own result) kvs) (proto result).
Proof.
  revert result. unfold keys.
  induction kvs as [|[k v] kvs IH]; intros result Hk; [by destruct result|].
  rewrite fmap_cons in Hk. apply not_elem_of_cons in Hk as [Hne Hk].
  unfold write_all, define_all in *. simpl.
  rewrite set_prop_plain by done. by rewrite IH.
Qed.

Lemma define_all_keys x o kvs :
  x ∈ keys (define_all o kvs) ↔ x ∈ keys o ∨ x ∈ keys kvs.
Proof.
  revert o. unfold define_all.
  induction kvs as [|[k v] kvs IH]; intros o; simpl.
  - change (keys []) with (@nil string). rewrite elem_of_nil. tauto.
  - rewrite IH, elem_of_keys_define_prop.
    change (keys ((k, v) :: kvs)) with (k :: keys kvs).
    rewrite elem_of_cons. tauto.
Qed.

Lemma define_all_keeps (P : record → Prop) o kvs :
  (∀ k v o, is_scalar v = true → P o → P (define_prop k v o)) →
  Forall (fun kv => is_scalar kv.2 = true) kvs →
  P o → P (define_all o kvs).
Proof.
  intros HP Hsc. revert o. unfold define_all.
  induction Hsc as [|[k v] kvs Hv _ IH]; intros o Ho; simpl; [done|].
  by apply IH, HP.
Qed.

(** In enumeration order, creating properties one by one lists them one
    after the other. *)
Lemma define_all_in_order o kvs :
  enumeration_order (o ++ kvs) → define_all o kvs = o ++ kvs.
Proof.
  revert o. unfold define_all.
  induction kvs as [|[k v] kvs IH]; intros o Ho; simpl.
  - by rewrite app_nil_r.
  - rewrite define_prop_last.
    + rewrite IH; rewrite <- app_assoc; done.
    + apply (enumeration_order_app_l _ kvs). by rewrite <- app_assoc.
Qed.





(** The fields of a flattened object. *)
Lemma flattenObject_fields (obj : value) :
  is_object obj = true →
  ∃ fields,
    flattenObject obj = VObj fields
    ∧ flat_record fields
    ∧ enumeration_order fields
    ∧ ("__proto__" ∉ keys (leaves_of_entries "" (entries obj)) →
       "__proto__" ∉ keys fields).
Proof.
  intros Hobj. pose proof (flattenObject_spec obj Hobj) as Hspec.
  unfold flattenObject in Hspec |- *. rewrite Hobj in Hspec |- *.
  cbn [negb] in Hspec |- *. injection Hspec as Hown.
  eexists. split; [done|]. split; [|split].
  - apply (flatten_loop_keeps flat_record); [|apply flat_record_nil].
    intros k v o. apply define_prop_flat.
  - apply (flatten_loop_keeps enumeration_order); [|apply enumeration_order_nil].
    intros k v o _. apply define_prop_order.
  - intros Hk. rewrite Hown, write_all_plain by done. cbn [own empty_object].
    rewrite define_all_keys. intros [Hin|Hin]; [|done].
    by apply elem_of_nil in Hin.
Qed.



(** The empty string is a falsy prefix: under an empty key the nested keys
    are not joined to anything. *)
Example flatten_under_empty_key :
  flattenObject (VObj [("", VObj [("b", VNum 1)]); ("c", VObj [("b", VNum 2)])])
  = VObj [("c.b", VNum 2); ("b", VNum 1)].
Proof. by vm_compute. Qed.


(** *** [sanitizeForTabular] *)

Lemma sanitize_entries_spec es (sanitized : object) :
  sanitize_entries es sanitized
  = write_all sanitized ((fun kv => (kv.1, sanitize_field kv.2)) <$> es).
Proof.
  revert sanitized. induction es as [|[k v] es IH]; intros sanitized; [done|].
  simpl. by rewrite IH.
Qed.

Lemma sanitize_entries_map es (sanitized : object) :
  enumeration_order (own sanitized ++ es) →
  "__proto__" ∉ keys es →
  own (sanitize_entries es sanitized)
  = own sanitized ++ ((fun kv => (kv.1, sanitize_field kv.2)) <$> es).
Proof.
  intros Ho Hk. rewrite sanitize_entries_spec.
  assert (keys ((fun kv => (kv.1, sanitize_field kv.2)) <$> es) = keys es) as Hkeys.
  { unfold keys. rewrite <- list_fmap_compose. done. }
  rewrite write_all_plain by (by rewrite Hkeys). cbn [own].
  apply define_all_in_order. unfold enumeration_order, keys in *.
  rewrite fmap_app in *. unfold keys in Hkeys. by rewrite Hkeys.
Qed.




(** Assigning scalars under distinct keys never leaves an own property
    [__proto__]: the one assignment to that name goes to the setter. *)
Lemma write_all_no_proto_key result kvs :
  Forall (fun kv => is_scalar kv.2 = true) kvs →
  NoDup (keys kvs) →
  "__proto__" ∉ keys (own result) →
  proto result = ObjectPrototype ∨ "__proto__" ∉ keys kvs →
  "__proto__" ∉ keys (own (write_all result kvs)).
Proof.
  intros Hsc. revert result. unfold keys.
  induction Hsc as [|[k v] kvs Hv _ IH]; intros result Hnd Hown Hproto; [done|].
  rewrite fmap_cons in Hnd, Hproto. cbn [fst snd] in *.
  apply NoDup_cons in Hnd as [Hk Hnd].
  change (write_all result ((k, v) :: kvs))
    with (write_all (set_prop k v result) kvs).
  destruct (decide (k = "__proto__")) as [->|Hne].
  - apply IH; [done| |by right].
    destruct Hproto as [Hproto|Hproto]; [|by destruct Hproto; left].
    unfold set_prop. rewrite bool_decide_false by done.
    rewrite Hproto. simpl. by destruct v.
  - rewrite set_prop_plain by done. apply IH; [done| |].
    + cbn [own]. rewrite elem_of_keys_define_prop. intros [?|?]; done.
    + cbn [proto]. destruct Hproto as [?|Hproto]; [by left|right].
      intros Hin. apply Hproto. by right.
Qed.

(** The fields of a sanitised item. *)
Lemma sanitize_item_fields (item : value) :
  ∃ fields,
    sanitize_item item = VObj fields
    ∧ flat_record fields
    ∧ enumeration_order fields
    ∧ (NoDup (keys (entries item)) → "__proto__" ∉ keys fields).
Proof.
  unfold sanitize_item. destruct (is_object item) eqn:Hobj; simpl.
  - eexists. split; [done|]. split; [|split].
    + apply (sanitize_entries_keeps flat_record); [|apply flat_record_nil].
      intros k v o. apply define_prop_flat.
    + apply (sanitize_entries_keeps enumeration_order); [|apply enumeration_order_nil].
      intros k v o _. apply define_prop_order.
    + intros Hnd. rewrite sanitize_entries_spec.
      assert (keys ((fun kv => (kv.1, sanitize_field kv.2)) <$> entries item)
              = keys (entries item)) as Hkeys.
      { unfold keys. by rewrite <- list_fmap_compose. }
      apply write_all_no_proto_key.
      * apply Forall_fmap, Forall_forall. intros kv _. apply sanitize_field_scalar.
      * by rewrite Hkeys.
      * apply not_elem_of_nil.
      * by left.
  - eexists. split; [done|]. split; [|split].
    + split; [apply NoDup_singleton|]. constructor; [|done].
      simpl. unfold is_scalar. by rewrite Hobj.
    + split; [apply NoDup_singleton|repeat constructor].
    + intros _. apply (bool_decide_unpack _). by vm_compute.
Qed.

(** Sanitising a flat record gives an equal record. *)
Lemma sanitize_flat_record fields :
  enumeration_order fields →
  Forall (fun kv => is_scalar kv.2 = true) fields →
  "__proto__" ∉ keys fields →
  sanitize_item (VObj fields) = VObj fields.
Proof.
  intros Ho Hsc Hk. unfold sanitize_item. simpl. f_equal.
  rewrite sanitize_entries_map by done. simpl.
  induction Hsc as [|[k v] l Hv _ IH]; [done|].
  rewrite fmap_cons. simpl. f_equal.
  - f_equal. unfold sanitize_field. unfold is_scalar in Hv. simpl in Hv.
    by destruct (is_object v).
  - apply IH.
    + apply (enumeration_order_app_r [(k, v)]). done.
    + intros Hin. apply Hk. by right.
Qed.

End TabularFacts.

(** ** The tabular limit guard *)

Section GuardFacts.

Implicit Types (rows : list value) (ctx : string) (es pre post : record)
  (cs : gset string).

Lemma scan_entries_app ctx es1 es2 cs :
  scan_entries ctx (es1 ++ es2) cs
  = match scan_entries ctx es1 cs with
    | inl e => inl e
    | inr cs' => scan_entries ctx es2 cs'
    end.
Proof.
  revert cs. induction es1 as [|[k v] es1 IH]; intros cs; simpl; [done|].
  destruct (bool_decide _); [done|].
  destruct (cell_too_long v); [done|]. apply IH.
Qed.

Lemma scan_rows_cells ctx rows cs :
  scan_rows ctx rows cs = scan_entries ctx (cells rows) cs.
Proof.
  revert cs. induction rows as [|row rows IH]; intros cs; [done|].
  unfold cells. simpl. fold (cells rows). rewrite scan_entries_app.
  destruct (is_object row); simpl; [|apply IH].
  destruct (scan_entries ctx (entries row) cs); [done|apply IH].
Qed.

Lemma cells_cons (row : value) rows :
  cells (row :: rows) = (if is_object row then entries row else []) ++ cells rows.
Proof. done. Qed.

Lemma columns_cons k v es : columns ((k, v) :: es) = {[k]} ∪ columns es.
Proof. done. Qed.

Lemma columns_snoc es k v : columns (es ++ [(k, v)]) = {[k]} ∪ columns es.
Proof.
  unfold columns, keys. rewrite fmap_app, list_to_set_app_L. simpl.
  set_solver.
Qed.

(** While nothing is violated the scan only collects keys. *)
Lemma scan_entries_ok ctx es cs :
  cells_fit es →
  (Z.of_nat (size (columns es ∪ cs)) ≤ MAX_COLUMNS)%Z →
  scan_entries ctx es cs = inr (columns es ∪ cs).
Proof.
  revert cs. induction es as [|[k v] es IH]; intros cs Hfit Hsize.
  - simpl. f_equal. unfold columns. simpl. set_solver.
  - apply Forall_cons in Hfit as [Hv Hfit]. simpl in Hv.
    rewrite columns_cons in Hsize |- *. simpl.
    assert (size ({[k]} ∪ cs) ≤ size ({[k]} ∪ columns es ∪ cs)) as Hsub.
    { apply subseteq_size. set_solver. }
    rewrite bool_decide_eq_false_2 by lia. rewrite Hv.
    rewrite IH; [f_equal; set_solver|done|].
    replace (columns es ∪ ({[k]} ∪ cs)) with ({[k]} ∪ columns es ∪ cs)
      by set_solver.
    done.
Qed.

(** What a scan that ends without an error has seen. *)
Lemma scan_entries_inr ctx es cs cs' :
  scan_entries ctx es cs = inr cs' →
  cs' = columns es ∪ cs
  ∧ cells_fit es
  ∧ (es ≠ [] → (Z.of_nat (size cs') ≤ MAX_COLUMNS)%Z).
Proof.
  revert cs. induction es as [|[k v] es IH]; intros cs Hscan.
  - simpl in Hscan. injection Hscan as <-.
    split; [unfold columns; simpl; set_solver|]. split; [constructor|done].
  - simpl in Hscan. case_bool_decide as Hsize; [done|].
    destruct (cell_too_long v) eqn:Hv; [done|].
    destruct (IH _ Hscan) as (-> & Hfit & Hbound).
    split; [rewrite columns_cons; set_solver|].
    split; [by constructor|]. intros _.
    destruct es as [|e es]; [|by apply Hbound].
    unfold columns. simpl.
    replace (∅ ∪ ({[k]} ∪ cs)) with ({[k]} ∪ cs) by set_solver. lia.
Qed.

(** A cell that is too long stops the scan, if nothing stopped it before. *)
Lemma scan_entries_long ctx es cs k v :
  (k, v) ∈ es → cell_too_long v = true → ∃ e, scan_entries ctx es cs = inl e.
Proof.
  revert cs. induction es as [|[k' v'] es IH]; intros cs Hin Hlong.
  - by apply elem_of_nil in Hin.
  - simpl. case_bool_decide; [by eexists|].
    apply elem_of_cons in Hin as [[= <- <-]|Hin].
    + rewrite Hlong. by eexists.
    + destruct (cell_too_long v'); [by eexists|]. by apply IH.
Qed.

Lemma enforce_rows_limit rows ctx :
  (MAX_ROWS < Z.of_nat (length rows))%Z →
  enforceTabularLimits rows ctx = inl (mkLimitExceeded rowsLimit ctx).
Proof.
  intros H. unfold enforceTabularLimits. by rewrite bool_decide_eq_true_2.
Qed.

Lemma enforce_scan rows ctx :
  (Z.of_nat (length rows) ≤ MAX_ROWS)%Z →
  enforceTabularLimits rows ctx
  = match scan_entries ctx (cells rows) ∅ with
    | inl e => inl e
    | inr _ => inr ()
    end.
Proof.
  intros H. unfold enforceTabularLimits.
  rewrite bool_decide_eq_false_2 by lia. by rewrite scan_rows_cells.
Qed.

(** The guard passes exactly the row lists within the three limits. *)
Lemma enforce_ok_iff rows ctx :
  enforceTabularLimits rows ctx = inr ()
  ↔ (Z.of_nat (length rows) ≤ MAX_ROWS)%Z
    ∧ (Z.of_nat (size (columns (cells rows))) ≤ MAX_COLUMNS)%Z
    ∧ cells_fit (cells rows).
Proof.
  split.
  - intros Hok.
    destruct (decide (MAX_ROWS < Z.of_nat (length rows))%Z) as [Hrows|Hrows].
    { by rewrite enforce_rows_limit in Hok. }
    rewrite enforce_scan in Hok by lia.
    destruct (scan_entries ctx (cells rows) ∅) as [e|cs] eqn:Hscan; [done|].
    destruct (scan_entries_inr _ _ _ _ Hscan) as (-> & Hfit & Hbound).
    split; [lia|]. split; [|done].
    destruct (cells rows) as [|c l] eqn:Hcells.
    + change (columns []) with (∅ : gset string). by rewrite size_empty.
    + rewrite union_empty_r_L in Hbound. by apply Hbound.
  - intros (Hrows & Hcols & Hfit).
    rewrite enforce_scan by done.
    rewrite scan_entries_ok; [done|done|by rewrite union_empty_r_L].
Qed.

Lemma enforce_columns_limit rows ctx pre k v post :
  (Z.of_nat (length rows) ≤ MAX_ROWS)%Z →
  cells rows = pre ++ (k, v) :: post →
  cells_fit pre →
  (Z.of_nat (size (columns pre)) ≤ MAX_COLUMNS)%Z →
  (MAX_COLUMNS < Z.of_nat (size (columns (pre ++ [(k, v)]))))%Z →
  enforceTabularLimits rows ctx = inl (mkLimitExceeded columnsLimit ctx).
Proof.
  intros Hrows Hcells Hfit Hpre Hover.
  rewrite enforce_scan, Hcells, scan_entries_app by done.
  rewrite scan_entries_ok; [|done|by rewrite union_empty_r_L].
  rewrite union_empty_r_L. simpl. rewrite columns_snoc in Hover.
  by rewrite bool_decide_eq_true_2.
Qed.

Lemma enforce_cell_limit rows ctx pre k s post :
  (Z.of_nat (length rows) ≤ MAX_ROWS)%Z →
  cells rows = pre ++ (k, VStr s) :: post →
  cells_fit pre →
  (Z.of_nat (size (columns (pre ++ [(k, VStr s)]))) ≤ MAX_COLUMNS)%Z →
  (MAX_CELL_CHARS < Z.of_nat (String.length s))%Z →
  enforceTabularLimits rows ctx = inl (mkLimitExceeded cellLengthLimit ctx).
Proof.
  intros Hrows Hcells Hfit Hcols Hlong.
  rewrite columns_snoc in Hcols.
  rewrite enforce_scan, Hcells, scan_entries_app by done.
  rewrite scan_entries_ok; [|done|].
  - rewrite union_empty_r_L. simpl.
    rewrite bool_decide_eq_false_2 by lia.
    by rewrite bool_decide_eq_true_2.
  - rewrite union_empty_r_L.
    assert (size (columns pre) ≤ size ({[k]} ∪ columns pre)); [|lia].
    apply subseteq_size. set_solver.
Qed.

Lemma enforce_long_cell rows ctx k s :
  (k, VStr s) ∈ cells rows →
  (MAX_CELL_CHARS < Z.of_nat (String.length s))%Z →
  ∃ e, enforceTabularLimits rows ctx = inl e.
Proof.
  intros Hin Hlong.
  destruct (decide (MAX_ROWS < Z.of_nat (length rows))%Z) as [Hrows|Hrows].
  - rewrite enforce_rows_limit by done. by eexists.
  - rewrite enforce_scan by lia.
    destruct (scan_entries_long ctx (cells rows) ∅ k (VStr s) Hin) as [e ->].
    + simpl. by rewrite bool_decide_eq_true_2.
    + by eexists.
Qed.

(** A failed guard is all the Excel worker reports: one
    [CONVERSION_ERROR] response with the guard's message. *)
Lemma guard_failure_is_terminal parseJsonInput XLSX_sheet_to_json XLSX_write
    (m : WorkerMessage.t Request) rows ctx (e : LimitExceeded) :
  guarded parseJsonInput XLSX_sheet_to_json m rows ctx →
  enforceTabularLimits rows ctx = inl e →
  ExcelWorker.onmessage parseJsonInput XLSX_sheet_to_json XLSX_write m
  = [conversion_error (WorkerMessage.id m) (message e)].
Proof.
  unfold ExcelWorker.onmessage, ExcelWorker.try_body.
  destruct m as [type [data convType options] id]. simpl.
  intros Hg He. inversion Hg as [? ? Ht Hc Hp|? ? Ht Hc Hp|? ? Ht Hp|? ? Ht Hp];
    subst; simpl in *.
  - rewrite Ht, Hc, Hp. simpl. rewrite He. done.
  - rewrite Ht, Hc, Hp. simpl. rewrite He. done.
  - destruct Ht as [-> | ->]; simpl; rewrite Hp; simpl;
      unfold parse_for_preview; rewrite He; done.
  - rewrite Ht, Hp. simpl. rewrite He. done.
Qed.

Lemma xs_length (p : positive) : Z.of_nat (String.length (xs p)) = Z.pos p.
Proof.
  unfold xs.
  assert (∀ s, String.length (Pos.iter (String (Ascii.ascii_of_nat 120)) s p)
               = Pos.to_nat p + String.length s) as H.
  { induction p as [p IH|p IH|]; intros s; cbn [Pos.iter String.length].
    - rewrite !IH, Pos2Nat.inj_xI. lia.
    - rewrite !IH, Pos2Nat.inj_xO. lia.
    - done. }
  rewrite H. change (String.length EmptyString) with 0.
  rewrite Nat.add_0_r. apply positive_nat_Z.
Qed.

Lemma oversized_rows_length :
  Z.of_nat (length oversized_rows) = 100001%Z.
Proof.
  unfold oversized_rows. rewrite length_cons, length_replicate.
  rewrite Nat2Z.inj_succ, N_nat_Z. reflexivity.
Qed.

(** C1, as stated, fails: this row list holds a string cell of 200,001
    characters, and the guard rejects it with the rows-limit error, not
    with a cell-length error. *)
Lemma long_cell_in_oversized_rows :
  ("note", VStr (xs 200001)) ∈ cells oversized_rows
  ∧ (MAX_CELL_CHARS < Z.of_nat (String.length (xs 200001)))%Z
  ∧ enforceTabularLimits oversized_rows "Excel parse"
    = inl (mkLimitExceeded rowsLimit "Excel parse")
  ∧ enforceTabularLimits oversized_rows "Excel parse"
    ≠ inl (mkLimitExceeded cellLengthLimit "Excel parse").
Proof.
  assert (enforceTabularLimits oversized_rows "Excel parse"
          = inl (mkLimitExceeded rowsLimit "Excel parse")) as Hrows.
  { apply enforce_rows_limit. rewrite oversized_rows_length. reflexivity. }
  split; [|split; [|split]].
  - unfold oversized_rows. rewrite cells_cons.
    apply elem_of_app. left. apply list_elem_of_singleton. done.
  - rewrite xs_length. reflexivity.
  - exact Hrows.
  - rewrite Hrows. discriminate.
Qed.

(** C1 (amended): more than 100,000 rows fail with the rows-limit error.
    Otherwise the cells are scanned in order and the first violation decides:
    the columns-limit error as soon as the accumulated key set exceeds 500,
    the cell-length error at a string cell longer than 200,000 characters
    whose key keeps the set within 500.  Hence any such cell makes the guard
    fail, and the guard passes exactly the row lists within all three
    limits.  And when the guard fails on the rows a request hands to it,
    the worker posts one [CONVERSION_ERROR] response and nothing else. *)
Theorem tabular_guard_first_violation rows ctx :
  ((MAX_ROWS < Z.of_nat (length rows))%Z →
   enforceTabularLimits rows ctx = inl (mkLimitExceeded rowsLimit ctx))
  ∧ (∀ pre k v post,
       (Z.of_nat (length rows) ≤ MAX_ROWS)%Z →
       cells rows = pre ++ (k, v) :: post →
       cells_fit pre →
       (Z.of_nat (size (columns pre)) ≤ MAX_COLUMNS)%Z →
       (MAX_COLUMNS < Z.of_nat (size (columns (pre ++ [(k, v)]))))%Z →
       enforceTabularLimits rows ctx = inl (mkLimitExceeded columnsLimit ctx))
  ∧ (∀ pre k s post,
       (Z.of_nat (length rows) ≤ MAX_ROWS)%Z →
       cells rows = pre ++ (k, VStr s) :: post →
       cells_fit pre →
       (Z.of_nat (size (columns (pre ++ [(k, VStr s)]))) ≤ MAX_COLUMNS)%Z →
       (MAX_CELL_CHARS < Z.of_nat (String.length s))%Z →
       enforceTabularLimits rows ctx = inl (mkLimitExceeded cellLengthLimit ctx))
  ∧ (∀ k s,
       (k, VStr s) ∈ cells rows →
       (MAX_CELL_CHARS < Z.of_nat (String.length s))%Z →
       ∃ e, enforceTabularLimits rows ctx = inl e)
  ∧ (enforceTabularLimits rows ctx = inr ()
     ↔ (Z.of_nat (length rows) ≤ MAX_ROWS)%Z
       ∧ (Z.of_nat (size (columns (cells rows))) ≤ MAX_COLUMNS)%Z
       ∧ cells_fit (cells rows))
  ∧ (∀ parseJsonInput XLSX_sheet_to_json XLSX_write
       (m : WorkerMessage.t Request) (e : LimitExceeded),
       guarded parseJsonInput XLSX_sheet_to_json m rows ctx →
       enforceTabularLimits rows ctx = inl e →
       ExcelWorker.onmessage parseJsonInput XLSX_sheet_to_json XLSX_write m
       = [WorkerResponse.mk "CONVERSION_ERROR" Null (WorkerMessage.id m)
            (Some (message e))]).
Proof.
  split; [apply enforce_rows_limit|].
  split; [intros; by eapply enforce_columns_limit|].
  split; [intros; by eapply enforce_cell_limit|].
  split; [intros; by eapply enforce_long_cell|].
  split; [apply enforce_ok_iff|].
  intros. by eapply guard_failure_is_terminal.
Qed.

(** A single cell of 200,001 characters, nothing else over a limit. *)
Example guard_rejects_long_cell :
  enforceTabularLimits [VObj [("note", VStr (xs 200001))]] "Excel parse"
  = inl (mkLimitExceeded cellLengthLimit "Excel parse").
Proof.
  apply (enforce_cell_limit _ _ [] "note" (xs 200001) []).
  - change (Z.of_nat 1 ≤ MAX_ROWS)%Z. unfold MAX_ROWS. lia.
  - reflexivity.
  - constructor.
  - rewrite columns_snoc. change (columns []) with (∅ : gset string).
    rewrite union_empty_r_L, size_singleton. unfold MAX_COLUMNS. lia.
  - rewrite xs_length. reflexivity.
Qed.

(** One row with 501 columns. *)
Example guard_rejects_501_columns :
  enforceTabularLimits
    [VObj ((fun i => (pretty i, VNum 0)) <$> seq 0 501)] "Excel parse"
  = inl (mkLimitExceeded columnsLimit "Excel parse").
Proof. by vm_compute. Qed.

Lemma tabular_guard_first_violation_witness :
  (MAX_ROWS < Z.of_nat (length oversized_rows))%Z
  ∧ enforceTabularLimits oversized_rows "Preview parse"
    = inl (mkLimitExceeded rowsLimit "Preview parse").
Proof.
  assert (MAX_ROWS < Z.of_nat (length oversized_rows))%Z as H
    by (rewrite oversized_rows_length; reflexivity).
  split; [exact H|].
  exact (proj1 (tabular_guard_first_violation oversized_rows "Preview parse") H).
Defined.

End GuardFacts.

(** ** Overwriting the first rows *)

Section OverwriteFacts.

Implicit Types (rows supplied result : list value).





Example overwrite_three_of_ten :
  apply_overwrite (Some (mkOptions None None false (Some (VArr three_edits))))
                  ten_rows
  = [VNum 100; VNum 101; VNum 102; VNum 3; VNum 4; VNum 5; VNum 6; VNum 7;
     VNum 8; VNum 9].
Proof. by vm_compute. Qed.

End OverwriteFacts.

(** ** [WorkerManager] *)

Section ManagerFacts.

Context {TRequest TResponse : Type}.

Abbreviation State := (State TRequest TResponse).
Abbreviation Host := (Host TRequest TResponse).
Abbreviation Settlement := (Settlement TResponse).

Implicit Types (s : State) (h : Host) (p : nat) (st : Settlement)
  (reason : string).

Lemma settle_timers p st h : timers (settle p st h) = timers h.
Proof. unfold settle. by repeat case_match. Qed.

Lemma settle_terminated p st h : terminated (settle p st h) = terminated h.
Proof. unfold settle. by repeat case_match. Qed.

Lemma settle_posted p st h : posted (settle p st h) = posted h.
Proof. unfold settle. by repeat case_match. Qed.

(** Settling a pending promise fixes its state. *)
Lemma settle_pending p st h :
  promises h !! p = Some None → promises (settle p st h) !! p = Some (Some st).
Proof. intros Hp. unfold settle. rewrite Hp. simpl. apply lookup_insert_eq. Qed.

(** A settled promise never changes again. *)
Lemma settle_settled p q st st' h :
  promises h !! p = Some (Some st) →
  promises (settle q st' h) !! p = Some (Some st).
Proof.
  intros Hp. unfold settle.
  destruct (promises h !! q) as [[?|]|] eqn:Hq; simpl; try done.
  rewrite lookup_insert_ne; [done|]. intros ->. congruence.
Qed.

Lemma settle_other p q st h :
  p ≠ q → promises (settle q st h) !! p = promises h !! p.
Proof.
  intros Hne. unfold settle.
  destruct (promises h !! q) as [[?|]|]; simpl; try done.
  by rewrite lookup_insert_ne.
Qed.

(** [forEach] keeps what every call keeps. *)
Lemma forEach_preserves (P : Host → Prop) (m : gmap string nat)
    (f : nat → Host → Host) h :
  (∀ x h, P h → P (f x h)) → P h → P (forEach m f h).
Proof.
  intros Hf. unfold forEach. revert h.
  induction (map_to_list m) as [|kv l IH]; intros h Hh; simpl; [done|].
  by apply IH, Hf.
Qed.

(** [forEach] reaches every value of the map: what the call on [x]
    establishes from the invariant [I], and later calls keep, holds at the
    end. *)
Lemma forEach_reaches (I Q : Host → Prop) (m : gmap string nat)
    (f : nat → Host → Host) h (k : string) (x : nat) :
  m !! k = Some x →
  (∀ y h, I h → I (f y h)) →
  (∀ h, I h → Q (f x h)) →
  (∀ y h, Q h → Q (f y h)) →
  I h → Q (forEach m f h).
Proof.
  intros Hk HI Hx HQ. apply elem_of_map_to_list in Hk.
  unfold forEach. revert h.
  induction (map_to_list m) as [|kv l IH]; intros h Hh; simpl.
  - by apply elem_of_nil in Hk.
  - apply elem_of_cons in Hk as [<-|Hk].
    + simpl. clear IH. generalize (Hx h Hh). generalize (f x h).
      induction l as [|kv' l IH]; intros h' Hh'; simpl; [done|].
      by apply IH, HQ.
    + by apply IH, HI.
Qed.

Lemma cancelAll_torn_down reason s : torn_down reason s (cancelAll reason s).
Proof.
  unfold torn_down, cancelAll. simpl. repeat split; try done.
  - intros type timerId Ht.
    assert (∀ h, timers h !! timerId = None →
                 timers (match worker (this s) with
                         | Some w => worker_terminate w h
                         | None => h
                         end) !! timerId = None) as Hterm
      by (intros h; by destruct (worker (this s))).
    apply Hterm.
    apply (forEach_preserves (fun h => timers h !! timerId = None)).
    { intros x h. by rewrite settle_timers. }
    apply (forEach_reaches (fun _ => True)
             (fun h => timers h !! timerId = None) _ _ _ type timerId);
      try done.
    + intros h _. simpl. apply lookup_delete_eq.
    + intros y h Hh. simpl. rewrite lookup_delete. by case_decide.
  - intros id p Hid Hp.
    assert (∀ h, promises h !! p = Some (Some (Rejected reason)) →
                 promises (match worker (this s) with
                           | Some w => worker_terminate w h
                           | None => h
                           end) !! p = Some (Some (Rejected reason))) as Hterm
      by (intros h; by destruct (worker (this s))).
    apply Hterm.
    apply (forEach_reaches
             (fun h => promises h !! p = Some None
                       ∨ promises h !! p = Some (Some (Rejected reason)))
             (fun h => promises h !! p = Some (Some (Rejected reason)))
             _ _ _ id p); try done.
    + intros y h [Hh|Hh].
      * destruct (decide (p = y)) as [<-|Hne].
        -- right. by apply settle_pending.
        -- left. by rewrite settle_other.
      * right. by apply settle_settled.
    + intros h [Hh|Hh]; [by apply settle_pending|by apply settle_settled].
    + intros y h Hh. by apply settle_settled.
    + left.
      apply (forEach_preserves (fun h => promises h !! p = Some None));
        [|done].
      by intros x h.
  - intros w Hw. rewrite Hw. simpl. set_solver.
Qed.

(** The queued reactions of [cancelAll]'s rejections undo none of it. *)
Lemma react_torn_down reason s s' (r : Reaction TResponse) :
  torn_down reason s s' → torn_down reason s (react s' r).
Proof.
  unfold torn_down, react. simpl.
  intros (Ht & Hp & Hm & He & Hpr & Hd & Hw & Hterm).
  repeat split; try done.
  - intros type timerId H. rewrite settle_timers. by eapply Ht.
  - intros id p Hid Hpend. apply settle_settled. by eapply Hp.
  - rewrite Hd. apply delete_empty.
  - intros w H. rewrite settle_terminated. by apply Hterm.
Qed.

Lemma run_microtasks_torn_down reason s s' :
  torn_down reason s s' → torn_down reason s (run_microtasks s').
Proof.
  intros H. unfold run_microtasks.
  assert (torn_down reason s (mkState (this s') (take_microtasks (host s'))))
    as H0 by exact H.
  revert H0. generalize (mkState (this s') (take_microtasks (host s'))).
  induction (microtasks (host s')) as [|r l IH]; intros s0 H0; simpl; [done|].
  by apply IH, react_torn_down.
Qed.

End ManagerFacts.

(** *** Reachable states *)

Section Reachable.

Context {TRequest TResponse : Type}.

Abbreviation RState := (State TRequest TResponse).

Implicit Types (s : RState) (reason : string).

Lemma consistent_new : consistent (new : RState).
Proof. split; simpl; try done; intros; simplify_map_eq; set_solver. Qed.

(** Settling the promise of a debounced call. *)
Lemma consistent_settle_outer s (o : nat) (st : Settlement TResponse) :
  consistent s → outer_ok s o →
  consistent (mkState (this s) (settle o st (host s))).
Proof.
  intros [Hs Hp Hi Ht Hc Hm] [Hlt Ho].
  unfold settle. destruct (promises (host s) !! o) as [[stt|]|] eqn:Hpo;
    [by destruct s|..|by destruct s].
  split; simpl; try done.
  - intros id p Hid. destruct (Hp id p Hid) as [Hpend Hb].
    split; [|done]. rewrite lookup_insert_ne; [done|].
    intros ->. by apply (Ho id).
  - intros r Hr. apply elem_of_app in Hr as [Hr|Hr]; [by apply Hm|].
    destruct (chains (host s) !! o) as [[o' ty]|] eqn:Hco;
      [|by apply elem_of_nil in Hr].
    apply list_elem_of_singleton in Hr as ->. simpl. by eapply Hc.
Qed.

Lemma consistent_react s (r : Reaction TResponse) :
  consistent s → outer_ok s (re_outer r) → consistent (react s r).
Proof.
  intros Hs Hr.
  destruct (consistent_settle_outer s (re_outer r) (re_settlement r) Hs Hr)
    as [H1 H2 H3 H4 H5 H6].
  unfold react. split; simpl in *; done.
Qed.

Lemma consistent_run_microtasks s : consistent s → consistent (run_microtasks s).
Proof.
  intros Hs. unfold run_microtasks.
  assert (∀ (l : list (Reaction TResponse)) s0,
            consistent s0 → Forall (fun r => outer_ok s0 (re_outer r)) l →
            consistent (foldl react s0 l)) as Hfold.
  { induction l as [|r l IH]; intros s0 H0 Hl; simpl; [done|].
    apply Forall_cons in Hl as [Hr Hl].
    apply IH; [by apply consistent_react|].
    eapply Forall_impl; [exact Hl|].
    intros r' [Hlt Hne]. split; simpl.
    - unfold settle. by repeat case_match.
    - done. }
  apply Hfold.
  - destruct Hs as [H1 H2 H3 H4 H5 H6]. split; simpl; try done.
    intros r Hr. by apply elem_of_nil in Hr.
  - apply Forall_forall. intros r Hr.
    destruct (inv_micro s Hs r Hr) as [Hlt Hne]. by split.
Qed.

Lemma consistent_init s : consistent s → consistent (init s).
Proof.
  intros [H1 H2 H3 H4 H5 H6]. unfold init.
  destruct (worker (this s)); [by split|]. by split.
Qed.

(** What [executePostMessage] changes. *)
Lemma execute_fields s type (payload : TRequest) transfer onProgress :
  let s' := (executePostMessage type payload transfer onProgress s).2 in
  let id := type +:+ "-" +:+ pretty (messageId (this s)) in
  let p := nextPromise (host s) in
  messageHandlers (this s') = <[id := p]> (messageHandlers (this s))
  ∧ errorHandlers (this s') = <[id := p]> (errorHandlers (this s))
  ∧ promises (host s') = <[p := None]> (promises (host s))
  ∧ nextPromise (host s') = S p
  ∧ timers (host s') = timers (host s)
  ∧ chains (host s') = chains (host s)
  ∧ microtasks (host s') = microtasks (host s).
Proof.
  unfold executePostMessage. simpl. by destruct (worker (this s)).
Qed.

Lemma consistent_execute s type (payload : TRequest) transfer onProgress :
  consistent s →
  consistent (executePostMessage type payload transfer onProgress s).2.
Proof.
  intros [H1 H2 H3 H4 H5 H6].
  destruct (execute_fields s type payload transfer onProgress)
    as (F1 & F2 & F3 & F4 & F5 & F6 & F7).
  set (s' := (executePostMessage type payload transfer onProgress s).2) in *.
  set (id := type +:+ "-" +:+ pretty (messageId (this s))) in *.
  assert (∀ id0 p,
            errorHandlers (this s') !! id0 = Some p →
            (id0 = id ∧ p = nextPromise (host s))
            ∨ (id0 ≠ id ∧ errorHandlers (this s) !! id0 = Some p)) as Hcase.
  { intros id0 p. rewrite F2. destruct (decide (id = id0)) as [<-|Hne].
    - rewrite lookup_insert_eq. intros [= <-]. by left.
    - rewrite lookup_insert_ne by done. intros. by right. }
  assert (∀ o, outer_ok s o → outer_ok s' o) as Hok.
  { intros o [Hlt Hne]. split; [rewrite F4; lia|].
    intros id0 Hid. apply Hcase in Hid as [[_ ->]|[_ Hid]]; [lia|].
    by apply (Hne id0). }
  split.
  - by rewrite F1, F2, H1.
  - intros id0 p Hid. rewrite F3, F4.
    apply Hcase in Hid as [[-> ->]|[Hne Hid]].
    + rewrite lookup_insert_eq. split; [done|lia].
    + destruct (H2 _ _ Hid) as [Hp Hb].
      rewrite lookup_insert_ne by lia. split; [done|lia].
  - intros id0 id1 p Hid0 Hid1.
    apply Hcase in Hid0 as [[-> ->]|[Hne0 Hid0]];
      apply Hcase in Hid1 as [[-> Hp]|[Hne1 Hid1]]; try done.
    + destruct (H2 _ _ Hid1). lia.
    + subst p. destruct (H2 _ _ Hid0). lia.
    + by eapply H3.
  - intros t cb Ht. rewrite F5 in Ht. by apply Hok, (H4 t).
  - intros p o ty Hc. rewrite F6 in Hc. by apply Hok, (H5 p o ty).
  - intros r Hr. rewrite F7 in Hr. by apply Hok, H6.
Qed.

(** What a debounced [postMessage] changes, after [init]. *)
Lemma debounced_fields s type (payload : TRequest) transfer debounceMs onProgress :
  (0 < debounceMs)%Z →
  let s0 := init s in
  let s' := (postMessage type payload transfer debounceMs onProgress s).2 in
  messageHandlers (this s') = messageHandlers (this s0)
  ∧ errorHandlers (this s') = errorHandlers (this s0)
  ∧ promises (host s') = <[nextPromise (host s0) := None]> (promises (host s0))
  ∧ nextPromise (host s') = S (nextPromise (host s0))
  ∧ timers (host s')
    = <[nextTimer (host s0) :=
          mkTimerCallback type payload transfer onProgress debounceMs
            (nextPromise (host s0))]>
        (match debounceTimers (this s0) !! type with
         | Some timerId => delete timerId (timers (host s0))
         | None => timers (host s0)
         end)
  ∧ chains (host s') = chains (host s0)
  ∧ microtasks (host s') = microtasks (host s0).
Proof.
  intros Hms. unfold postMessage. rewrite bool_decide_eq_true_2 by done.
  simpl. by destruct (debounceTimers (this (init s)) !! type).
Qed.

Lemma consistent_postMessage s type (payload : TRequest) transfer debounceMs
    onProgress :
  consistent s →
  consistent (postMessage type payload transfer debounceMs onProgress s).2.
Proof.
  intros Hs. apply consistent_init in Hs.
  destruct (decide (0 < debounceMs)%Z) as [Hms|Hms].
  2:{ unfold postMessage. rewrite bool_decide_eq_false_2 by done.
      by apply consistent_execute. }
  destruct (debounced_fields s type payload transfer debounceMs onProgress Hms)
    as (F1 & F2 & F3 & F4 & F5 & F6 & F7).
  set (s' := (postMessage type payload transfer debounceMs onProgress s).2) in *.
  destruct Hs as [H1 H2 H3 H4 H5 H6].
  assert (∀ o, outer_ok (init s) o → outer_ok s' o) as Hok.
  { intros o [Hlt Hne]. split; [rewrite F4; lia|by rewrite F2]. }
  split.
  - by rewrite F1, F2.
  - intros id p Hid. rewrite F2 in Hid. destruct (H2 _ _ Hid) as [Hp Hb].
    rewrite F3, F4, lookup_insert_ne by lia. split; [done|lia].
  - intros id id' p. rewrite F2. apply H3.
  - intros t cb. rewrite F5.
    destruct (decide (nextTimer (host (init s)) = t)) as [<-|Hne].
    + rewrite lookup_insert_eq. intros [= <-]. simpl.
      split; [rewrite F4; lia|]. rewrite F2.
      intros id Hid. destruct (H2 _ _ Hid). lia.
    + rewrite lookup_insert_ne by done. intros Ht. apply Hok, (H4 t).
      destruct (debounceTimers (this (init s)) !! type); [|done].
      rewrite lookup_delete in Ht. by case_decide.
  - intros p o ty. rewrite F6. intros Hc. by apply Hok, (H5 p o ty).
  - intros r. rewrite F7. intros Hr. by apply Hok, H6.
Qed.

Lemma consistent_timer_fires s (timerId : nat) :
  consistent s → consistent (timer_fires timerId s).
Proof.
  intros Hs. unfold timer_fires.
  destruct (timers (host s) !! timerId) as [cb|] eqn:Hcb; [|done].
  set (s0 := mkState (this s) (unschedule timerId (host s))).
  assert (consistent s0) as Hs0.
  { destruct Hs as [H1 H2 H3 H4 H5 H6]. split; simpl; try done.
    intros t cb' Ht. rewrite lookup_delete in Ht. case_decide; [done|].
    by apply (H4 t). }
  assert (outer_ok s0 (cb_outer cb)) as Hcbok
    by (destruct (inv_timers s Hs _ _ Hcb); by split).
  pose proof (consistent_execute s0 (cb_type cb) (cb_payload cb)
                (cb_transfer cb) (cb_onProgress cb) Hs0) as Hs1.
  destruct (execute_fields s0 (cb_type cb) (cb_payload cb) (cb_transfer cb)
              (cb_onProgress cb)) as (F1 & F2 & F3 & F4 & F5 & F6 & F7).
  destruct (executePostMessage (cb_type cb) (cb_payload cb) (cb_transfer cb)
              (cb_onProgress cb) s0) as [p s1] eqn:Hexec.
  assert (p = nextPromise (host s)) as Hp.
  { unfold executePostMessage in Hexec. simpl in Hexec. by injection Hexec. }
  clear Hexec. subst s0. simpl in *.
  assert (outer_ok s1 (cb_outer cb)) as Hcbok1.
  { destruct Hcbok as [Hlt Hne]. simpl in *. split; [rewrite F4; lia|].
    rewrite F2. intros id.
    destruct (decide (cb_type cb +:+ "-" +:+ pretty (messageId (this s)) = id))
      as [<-|Hid].
    - rewrite lookup_insert_eq. intros [= Heq]. lia.
    - rewrite lookup_insert_ne by done. apply Hne. }
  destruct Hs1 as [H1 H2 H3 H4 H5 H6]. split; simpl; try done.
  intros p0 o ty.
  destruct (decide (p = p0)) as [Heq|Hne].
  - rewrite <- Heq, lookup_insert_eq. by intros [= <- <-].
  - rewrite lookup_insert_ne by done. apply H5.
Qed.

Lemma consistent_forget s (id : string) :
  consistent s → consistent (mkState (forget id (this s)) (host s)).
Proof.
  intros [H1 H2 H3 H4 H5 H6].
  assert (∀ id0 p, delete id (errorHandlers (this s)) !! id0 = Some p →
                   errorHandlers (this s) !! id0 = Some p) as Hsub.
  { intros id0 p. rewrite lookup_delete. by case_decide. }
  assert (∀ o, outer_ok s o →
               outer_ok (mkState (forget id (this s)) (host s)) o) as Hok.
  { intros o [Hlt Hne]. split; [done|]. simpl.
    intros id0 Hid. by apply (Hne id0), Hsub. }
  split; simpl.
  - by rewrite H1.
  - intros id0 p Hid. by apply (H2 id0), Hsub.
  - intros id0 id1 p Hid0 Hid1. apply (H3 id0 id1 p); by apply Hsub.
  - intros t cb Ht. by apply Hok, (H4 t).
  - intros p o ty Hc. by apply Hok, (H5 p o ty).
  - intros r Hr. by apply Hok, H6.
Qed.

(** Settling the promise registered for [id] while forgetting [id]. *)
Lemma consistent_settle_request s (id : string) (p : nat)
    (st : Settlement TResponse) :
  consistent s →
  errorHandlers (this s) !! id = Some p →
  consistent (mkState (forget id (this s)) (settle p st (host s))).
Proof.
  intros Hs Hid.
  apply (consistent_settle_outer (mkState (forget id (this s)) (host s)) p st);
    [by apply consistent_forget|].
  split; simpl.
  - by destruct (inv_pending s Hs id p Hid).
  - intros id0. rewrite lookup_delete. case_decide as Hne; [done|].
    intros Hid0. apply Hne. by apply (inv_inj s Hs id id0 p).
Qed.

Lemma consistent_onmessage s (e : WorkerResponse.t TResponse) :
  consistent s → consistent (onmessage e s).
Proof.
  intros Hs.
  assert (∀ id x, consistent (resolve_request id x s)) as Hres.
  { intros id x. unfold resolve_request.
    destruct (messageHandlers (this s) !! id) as [p|] eqn:Hp.
    - rewrite (inv_same s Hs) in Hp. by apply consistent_settle_request.
    - by apply consistent_forget. }
  assert (∀ id x, consistent (reject_request id x s)) as Hrej.
  { intros id x. unfold reject_request.
    destruct (errorHandlers (this s) !! id) as [p|] eqn:Hp.
    - by apply consistent_settle_request.
    - by apply consistent_forget. }
  unfold onmessage.
  destruct (WorkerResponse.id e) as [id|]; [|done].
  destruct (negb (truthy (Some id))); [done|].
  case_bool_decide.
  { destruct (progressHandlers (this s) !! id); [|done].
    destruct Hs as [H1 H2 H3 H4 H5 H6]. by split. }
  case_bool_decide; [done|].
  destruct (WorkerResponse.error e) as [error|]; [|done].
  by destruct (truthy (Some error)).
Qed.

Lemma consistent_cancelAll s reason : consistent s → consistent (cancelAll reason s).
Proof.
  intros Hs. unfold cancelAll.
  set (keeps := fun h : Host TRequest TResponse =>
         nextPromise h = nextPromise (host s)
         ∧ chains h = chains (host s)
         ∧ (∀ t cb, timers h !! t = Some cb → timers (host s) !! t = Some cb)
         ∧ (∀ r, r ∈ microtasks h → re_outer r < nextPromise (host s))).
  assert (keeps (host s)) as H0.
  { repeat split; try done. intros r Hr. by destruct (inv_micro s Hs r Hr). }
  assert (∀ x h, keeps h → keeps (clearTimeout x h)) as Hclear.
  { intros x h (K1 & K2 & K3 & K4). repeat split; simpl; try done.
    intros t cb. rewrite lookup_delete. case_decide; [done|]. apply K3. }
  assert (∀ x h, keeps h → keeps (settle x (Rejected reason) h)) as Hsettle.
  { intros x h (K1 & K2 & K3 & K4). unfold settle.
    destruct (promises h !! x) as [[?|]|]; try done.
    repeat split; simpl; try done.
    intros r Hr. apply elem_of_app in Hr as [Hr|Hr]; [by apply K4|].
    rewrite K2 in Hr.
    destruct (chains (host s) !! x) as [[o ty]|] eqn:Hc;
      [|by apply elem_of_nil in Hr].
    apply list_elem_of_singleton in Hr as ->. simpl.
    by destruct (inv_chains s Hs x o ty Hc). }
  assert (keeps (match worker (this s) with
                 | Some w =>
                     worker_terminate w
                       (forEach (errorHandlers (this s))
                          (fun reject => settle reject (Rejected reason))
                          (forEach (debounceTimers (this s)) clearTimeout (host s)))
                 | None =>
                     forEach (errorHandlers (this s))
                       (fun reject => settle reject (Rejected reason))
                       (forEach (debounceTimers (this s)) clearTimeout (host s))
                 end)) as (K1 & K2 & K3 & K4).
  { assert (keeps (forEach (errorHandlers (this s))
                     (fun reject => settle reject (Rejected reason))
                     (forEach (debounceTimers (this s)) clearTimeout (host s))))
      as HK.
    { apply forEach_preserves; [done|]. by apply forEach_preserves. }
    destruct (worker (this s)); [|done].
    destruct HK as (K1 & K2 & K3 & K4). by repeat split. }
  split; simpl; try done.
  - intros t cb Ht. split; simpl; [|done].
    rewrite K1. by destruct (inv_timers s Hs t cb (K3 t cb Ht)).
  - intros p o ty Hc. split; simpl; [|done].
    rewrite K1. rewrite K2 in Hc. by destruct (inv_chains s Hs p o ty Hc).
  - intros r Hr. split; simpl; [|done]. rewrite K1. by apply K4.
Qed.

Lemma consistent_step s (ev : Event TRequest TResponse) :
  consistent s → consistent (step s ev).
Proof.
  intros Hs. unfold step. apply consistent_run_microtasks.
  destruct ev; simpl.
  - by apply consistent_postMessage.
  - by apply consistent_timer_fires.
  - case_bool_decide; [by apply consistent_onmessage|done].
  - by apply consistent_cancelAll.
Qed.

(** Every state reached from a new manager is consistent; in particular
    the promise of every registered request is still pending. *)
Lemma consistent_run (evs : list (Event TRequest TResponse)) :
  consistent (run evs new).
Proof.
  unfold run. generalize (consistent_new). generalize (new : RState).
  induction evs as [|ev evs IH]; intros s Hs; simpl; [done|].
  by apply IH, consistent_step.
Qed.

(** X27: after [cancelAll(reason)] every timer recorded in [debounceTimers]
    is cleared, the promise of every request recorded in [errorHandlers] is
    rejected with [reason], the handler maps and [debounceTimers] are
    empty, the worker is terminated if there was one, and the manager
    holds no worker.  This is so when [cancelAll] returns and still so once
    the promise reactions it queued have run.  In every state a manager can
    reach, the promise of each request recorded in [errorHandlers] is
    pending, so each of them is rejected. *)
Theorem cancelAll_tears_down reason s :
  torn_down reason s (cancelAll reason s)
  ∧ torn_down reason s (step s (CancelAll reason))
  ∧ (∀ evs, s = run evs new →
     ∀ id p, errorHandlers (this s) !! id = Some p →
             promises (host s) !! p = Some None).
Proof.
  split; [apply cancelAll_torn_down|]. split.
  - unfold step. simpl. apply run_microtasks_torn_down, cancelAll_torn_down.
  - intros evs -> id p Hid.
    by destruct (inv_pending _ (consistent_run evs) id p Hid).
Qed.

End Reachable.

Lemma cancelAll_tears_down_witness :
  debounceTimers (this busy_manager) !! "SEARCH_JSON" = Some 0
  ∧ errorHandlers (this busy_manager) !! "CONVERT_EXCEL-0" = Some 0
  ∧ promises (host busy_manager) !! 0 = Some None
  ∧ timers (host (cancelAll "Cancelled by user" busy_manager)) !! 0 = None
  ∧ promises (host (cancelAll "Cancelled by user" busy_manager)) !! 0
    = Some (Some (Rejected "Cancelled by user")).
Proof.
  assert (debounceTimers (this busy_manager) !! "SEARCH_JSON" = Some 0) as Ht
    by (by vm_compute).
  assert (errorHandlers (this busy_manager) !! "CONVERT_EXCEL-0" = Some 0) as He
    by (by vm_compute).
  assert (promises (host busy_manager) !! 0 = Some None) as Hp
    by (by vm_compute).
  destruct (proj1 (cancelAll_tears_down "Cancelled by user" busy_manager))
    as (Htimers & Hpromises & _).
  split; [exact Ht|]. split; [exact He|]. split; [exact Hp|].
  split; [exact (Htimers _ _ Ht)|exact (Hpromises _ _ He Hp)].
Defined.

(** The future of a submission still waiting for its debounce timer is not
    among the pending requests: [cancelAll] clears the timer and that
    promise stays pending. *)
Example cancelAll_leaves_debounced_future_pending :
  cb_outer <$> timers (host busy_manager) !! 0 = Some 1
  ∧ promises (host (step busy_manager (CancelAll "Cancelled by user"))) !! 1
    = Some None.
Proof. by vm_compute. Qed.

(** C4 fails on the code.  A search for "a" is in flight and "b" waits for
    its debounce timer when the worker's reply for "a" arrives; the reply's
    [finally] deletes the entry of "b"'s timer from [debounceTimers].
    [cancelAll] clears the timers it finds in [debounceTimers], so the
    timer of "b" stays scheduled.  When it fires, the request is registered
    with no worker to send it to: nothing is dispatched and its promise is
    never settled. *)
Lemma cancelAll_misses_unrecorded_timer :
  let s := run reply_before_cancel new in
  let s' := step s (CancelAll "Superseded by a newer search") in
  let s'' := step s' (TimerFires 1) in
  cb_payload <$> timers (host s) = {[1 := "b"]}
  ∧ debounceTimers (this s) = ∅
  ∧ cb_payload <$> timers (host s') = {[1 := "b"]}
  ∧ worker (this s') = None
  ∧ errorHandlers (this s'') = {["SEARCH_JSON-1" := 3]}
  ∧ promises (host s'') !! 3 = Some None
  ∧ worker (this s'') = None
  ∧ dispatched s''
    = [WorkerMessage.mk "SEARCH_JSON" "a" (Some "SEARCH_JSON-0")].
Proof. by vm_compute. Qed.

(** C5 fails on the code: [cancelAll] rejects the pending request with the
    reason string itself, and [isCancelledError] looks for the letters
    "cancel" in it.  The reason the callers give when a newer preview
    request supersedes an older one has no such letters; the default reason
    has them. *)
Lemma superseded_rejection_not_recognised :
  let reason := "Superseded by a newer preview request" in
  let s : State string string :=
    run [Submit "PARSE_FOR_PREVIEW_STREAM" "rows" None 0 None] new in
  errorHandlers (this s) !! "PARSE_FOR_PREVIEW_STREAM-0" = Some 0
  ∧ promises (host s) !! 0 = Some None
  ∧ promises (host (step s (CancelAll reason))) !! 0
    = Some (Some (Rejected reason))
  ∧ isCancelledError (AString reason) = false
  ∧ isCancelledError (AString CANCELLED_MESSAGE) = true.
Proof. by vm_compute. Qed.

(** What [isCancelledError] does recognise. *)
Lemma isCancelledError_iff (reason : string) :
  isCancelledError (AString reason) = true
  ↔ includes "cancel" (toLowerCase reason) = true.
Proof. done. Qed.

(** C6 fails on the code.  A search for "a" is in flight; "b", "c" and "d"
    are then submitted, each before the timer of the one before fires, and
    the worker's reply for "a" arrives between "b" and "c".  The reply's
    [finally] drops the entry of "b"'s timer from [debounceTimers], so "c"
    does not clear it: both "b" and "d" are dispatched. *)
Lemma debounce_burst_dispatches_two :
  let s := run reply_during_burst new in
  dispatched s = [WorkerMessage.mk "SEARCH_JSON" "a" (Some "SEARCH_JSON-0")]
  ∧ cb_payload <$> timers (host s) = {[1 := "b"; 3 := "d"]}
  ∧ dispatched (run [TimerFires 1; TimerFires 2; TimerFires 3] s)
    = [WorkerMessage.mk "SEARCH_JSON" "a" (Some "SEARCH_JSON-0");
       WorkerMessage.mk "SEARCH_JSON" "b" (Some "SEARCH_JSON-1");
       WorkerMessage.mk "SEARCH_JSON" "d" (Some "SEARCH_JSON-2")].
Proof. by vm_compute. Qed.

(** *** A burst of debounced submissions with nothing in between *)

Section DebounceFacts.

Context {TRequest TResponse : Type}.

Abbreviation MState := (State TRequest TResponse).

Lemma step_submit_debounced (s : MState) (type : string) (x : Submission TRequest) :
  microtasks (host s) = [] →
  (0 < sub_debounceMs x)%Z →
  let s1 := step s (submit type x) in
  microtasks (host s1) = []
  ∧ dispatched s1 = dispatched s
  ∧ messageId (this s1) = messageId (this s)
  ∧ is_Some (worker (this s1))
  ∧ debounceTimers (this s1) = <[type := nextTimer (host s)]> (debounceTimers (this s))
  ∧ timers (host s1)
    = <[nextTimer (host s) :=
          mkTimerCallback type (sub_payload x) (sub_transfer x)
            (sub_onProgress x) (sub_debounceMs x) (nextPromise (host s))]>
        (drop_old type s)
  ∧ nextTimer (host s1) = S (nextTimer (host s))
  ∧ nextPromise (host s1) = S (nextPromise (host s)).
Proof.
  intros Hmicro Hms. unfold step, submit, handle, postMessage, drop_old.
  rewrite bool_decide_eq_true_2 by done.
  unfold init, run_microtasks.
  destruct s as [[w mh eh ph mid dt] h]. simpl in *.
  destruct w as [w|]; simpl; destruct (dt !! type) as [old|]; simpl;
    rewrite Hmicro; simpl; repeat split; eauto.
Qed.

Lemma burst_invariant (type : string) (subs : list (Submission TRequest))
    (x : Submission TRequest) (s : MState) :
  microtasks (host s) = [] →
  timers_fresh s →
  Forall (fun y => 0 < sub_debounceMs y)%Z (subs ++ [x]) →
  let s' := run (submit type <$> subs ++ [x]) s in
  let last := nextTimer (host s) + length subs in
  microtasks (host s') = []
  ∧ dispatched s' = dispatched s
  ∧ messageId (this s') = messageId (this s)
  ∧ is_Some (worker (this s'))
  ∧ timers (host s')
    = <[last :=
          mkTimerCallback type (sub_payload x) (sub_transfer x)
            (sub_onProgress x) (sub_debounceMs x)
            (nextPromise (host s) + length subs)]>
        (drop_old type s).
Proof.
  revert s. induction subs as [|y subs IH]; intros s Hmicro Hfresh Hms.
  - simpl in *. apply Forall_cons in Hms as [Hms _].
    destruct (step_submit_debounced s type x Hmicro Hms)
      as (H1 & H2 & H3 & H4 & _ & H6 & _).
    rewrite !Nat.add_0_r. done.
  - simpl in Hms. apply Forall_cons in Hms as [Hy Hms].
    change (run (submit type <$> (y :: subs) ++ [x]) s)
      with (run (submit type <$> subs ++ [x]) (step s (submit type y))).
    cbv zeta. rewrite length_cons.
    destruct (step_submit_debounced s type y Hmicro Hy)
      as (H1 & H2 & H3 & H4 & H5 & H6 & H7 & H8).
    set (s1 := step s (submit type y)) in *.
    assert (timers_fresh s1) as Hfresh1.
    { intros t Ht. rewrite H6, H7 in *.
      rewrite lookup_insert_ne by lia. unfold drop_old.
      destruct (debounceTimers (this s) !! type);
        [rewrite lookup_delete; case_decide; [done|]|]; apply Hfresh; lia. }
    destruct (IH s1 H1 Hfresh1 Hms) as (I1 & I2 & I3 & I4 & I5).
    repeat split; [done|congruence|congruence|done|].
    rewrite I5, H7, H8.
    replace (S (nextTimer (host s)) + length subs)
      with (nextTimer (host s) + S (length subs)) by lia.
    replace (S (nextPromise (host s)) + length subs)
      with (nextPromise (host s) + S (length subs)) by lia.
    f_equal. unfold drop_old at 1. rewrite H5, lookup_insert_eq, H6.
    rewrite delete_insert_eq. apply delete_id.
    unfold drop_old.
    destruct (debounceTimers (this s) !! type);
      [rewrite lookup_delete; case_decide; [done|]|]; by apply Hfresh.
Qed.

(** X1: in a burst of debounced submissions of one kind during which nothing
    else happens, nothing is dispatched; afterwards the only timer of the
    burst still scheduled is the last one, and when it fires exactly one
    request is dispatched, with the payload of the last submission. *)
Theorem debounce_collapse_quiet (type : string) (subs : list (Submission TRequest))
    (x : Submission TRequest) (s : MState) :
  microtasks (host s) = [] →
  timers_fresh s →
  Forall (fun y => 0 < sub_debounceMs y)%Z (subs ++ [x]) →
  let s' := run (submit type <$> subs ++ [x]) s in
  let last := nextTimer (host s) + length subs in
  dispatched s' = dispatched s
  ∧ (∀ t, nextTimer (host s) ≤ t → t ≠ last →
          step s' (TimerFires t) = run_microtasks s'
          ∧ dispatched (step s' (TimerFires t)) = dispatched s)
  ∧ dispatched (step s' (TimerFires last))
    = dispatched s
      ++ [WorkerMessage.mk type (sub_payload x)
            (Some (type +:+ "-" +:+ pretty (messageId (this s))))].
Proof.
  intros Hmicro Hfresh Hms s' last.
  destruct (burst_invariant type subs x s Hmicro Hfresh Hms)
    as (I1 & I2 & I3 & [w I4] & I5).
  fold s' in I1, I2, I3, I4, I5. fold last in I5.
  assert (∀ s0 : MState, microtasks (host s0) = [] →
            dispatched (run_microtasks s0) = dispatched s0) as Hrun.
  { intros s0 H0. unfold run_microtasks. rewrite H0. done. }
  split; [done|]. split.
  - intros t Ht Hne.
    assert (timers (host s') !! t = None) as Hnone.
    { rewrite I5, lookup_insert_ne by done. unfold drop_old.
      destruct (debounceTimers (this s) !! type);
        [rewrite lookup_delete; case_decide; [done|]|]; by apply Hfresh. }
    unfold step. simpl. unfold timer_fires. rewrite Hnone.
    split; [done|]. by rewrite Hrun.
  - unfold step. simpl. unfold timer_fires.
    rewrite I5, lookup_insert_eq. simpl.
    unfold executePostMessage. simpl. rewrite I4, I3.
    rewrite Hrun by (simpl; done).
    unfold dispatched in *. simpl. rewrite fmap_app, I2. done.
Qed.

End DebounceFacts.

Lemma debounce_collapse_quiet_witness :
  dispatched
    (step (run (submit "SEARCH_JSON"
                  <$> [mkSubmission "a" None 100 None;
                       mkSubmission "b" None 100 None]
                      ++ [mkSubmission "c" None 100 None])
               (new : State string string))
          (TimerFires (nextTimer (host (new : State string string)) + 2)))
  = dispatched (new : State string string)
    ++ [WorkerMessage.mk "SEARCH_JSON" "c" (Some "SEARCH_JSON-0")].
Proof.
  refine (proj2 (proj2 (debounce_collapse_quiet "SEARCH_JSON"
                          [mkSubmission "a" None 100 None;
                           mkSubmission "b" None 100 None]
                          (mkSubmission "c" None 100 None)
                          (new : State string string) eq_refl _ _))).
  - intros t _. apply lookup_empty.
  - repeat constructor; simpl; lia.
Defined.

(** *** Replies nobody waits for *)

Section LateReplies.

Context {TRequest TResponse : Type}.

Implicit Types (s : State TRequest TResponse).

(** X2: a reply whose id no handler map knows (or that has no id) changes
    nothing; in particular, after [cancelAll] every reply is ignored. *)
Theorem unknown_reply_ignored s (e : WorkerResponse.t TResponse) :
  ((∀ id, WorkerResponse.id e = Some id →
          messageHandlers (this s) !! id = None
          ∧ errorHandlers (this s) !! id = None
          ∧ progressHandlers (this s) !! id = None) →
   onmessage e s = s)
  ∧ ∀ reason, onmessage e (cancelAll reason s) = cancelAll reason s.
Proof.
  assert (∀ s0 : State TRequest TResponse,
            (∀ id, WorkerResponse.id e = Some id →
                   messageHandlers (this s0) !! id = None
                   ∧ errorHandlers (this s0) !! id = None
                   ∧ progressHandlers (this s0) !! id = None) →
            onmessage e s0 = s0) as Hgen.
  { intros s0 Hunknown. unfold onmessage.
    destruct (WorkerResponse.id e) as [id|]; [|done].
    destruct (Hunknown id eq_refl) as (Hm & He & Hp).
    assert (forget id (this s0) = this s0) as Hforget.
    { unfold forget. rewrite !delete_id by done. by destruct (this s0). }
    assert (∀ x, resolve_request id x s0 = s0) as Hres.
    { intros x. unfold resolve_request. rewrite Hm, Hforget. by destruct s0. }
    assert (∀ x, reject_request id x s0 = s0) as Hrej.
    { intros x. unfold reject_request. rewrite He, Hforget. by destruct s0. }
    destruct (negb (truthy (Some id))); [done|].
    case_bool_decide; [by rewrite Hp|].
    case_bool_decide; [done|].
    destruct (WorkerResponse.error e) as [error|]; [|done].
    by destruct (truthy (Some error)). }
  split; [apply Hgen|].
  intros reason. apply Hgen. intros id _. simpl. by rewrite !lookup_empty.
Qed.

End LateReplies.

Lemma unknown_reply_ignored_witness :
  (∀ id, WorkerResponse.id
           (WorkerResponse.mk "CONVERSION_SUCCESS" "late" (Some "CONVERT_EXCEL-7") None)
         = Some id →
         messageHandlers (this busy_manager) !! id = None
         ∧ errorHandlers (this busy_manager) !! id = None
         ∧ progressHandlers (this busy_manager) !! id = None)
  ∧ onmessage
      (WorkerResponse.mk "CONVERSION_SUCCESS" "late" (Some "CONVERT_EXCEL-7") None)
      busy_manager
    = busy_manager.
Proof.
  assert (∀ id, WorkerResponse.id
           (WorkerResponse.mk "CONVERSION_SUCCESS" "late" (Some "CONVERT_EXCEL-7") None)
         = Some id →
         messageHandlers (this busy_manager) !! id = None
         ∧ errorHandlers (this busy_manager) !! id = None
         ∧ progressHandlers (this busy_manager) !! id = None) as H.
  { intros id [= <-]. by vm_compute. }
  split; [exact H|].
  exact (proj1 (unknown_reply_ignored busy_manager _) H).
Defined.

(** *** The worker a request goes to *)

Section LiveWorker.

Context {TRequest TResponse : Type}.

Abbreviation LState := (State TRequest TResponse).
Abbreviation LHost := (Host TRequest TResponse).

Implicit Types (s : LState) (h : LHost).

(** A change of state that touches neither the worker nor the factory. *)
Lemma worker_live_same s s' :
  worker (this s') = worker (this s) →
  nextWorker (host s') = nextWorker (host s) →
  terminated (host s') = terminated (host s) →
  worker_live s → worker_live s'.
Proof. intros Hw Hn Ht [H1 H2]. split; rewrite ?Hw, Hn, Ht; done. Qed.

Lemma settle_nextWorker h (p : nat) (st : Settlement TResponse) :
  nextWorker (settle p st h) = nextWorker h.
Proof. unfold settle. by repeat case_match. Qed.

Lemma worker_live_init s : worker_live s → worker_live (init s).
Proof.
  intros Hs. unfold init.
  destruct (worker (this s)) as [w|] eqn:Hw; [exact Hs|].
  destruct Hs as [H1 H2]. split; simpl.
  - intros w [= <-]. split; [lia|]. intros Hin. apply H2 in Hin. lia.
  - intros w Hin. apply H2 in Hin. lia.
Qed.

Lemma execute_worker_fields s type (payload : TRequest) transfer onProgress :
  let s' := (executePostMessage type payload transfer onProgress s).2 in
  worker (this s') = worker (this s)
  ∧ nextWorker (host s') = nextWorker (host s)
  ∧ terminated (host s') = terminated (host s)
  ∧ messageId (this s') = S (messageId (this s))
  ∧ posted (host s')
    = posted (host s)
      ++ match worker (this s) with
         | Some w =>
             [(w, WorkerMessage.mk type payload
                    (Some (request_id type (messageId (this s)))), transfer)]
         | None => []
         end.
Proof.
  unfold executePostMessage. simpl.
  destruct (worker (this s)); simpl; by rewrite ?app_nil_r.
Qed.

Lemma worker_live_postMessage s type (payload : TRequest) transfer debounceMs
    onProgress :
  worker_live s →
  worker_live (postMessage type payload transfer debounceMs onProgress s).2.
Proof.
  intros Hs. apply worker_live_init in Hs. unfold postMessage.
  case_bool_decide.
  - revert Hs. apply worker_live_same; simpl;
      by destruct (debounceTimers (this (init s)) !! type).
  - destruct (execute_worker_fields (init s) type payload transfer onProgress)
      as (F1 & F2 & F3 & _).
    revert Hs. by apply worker_live_same.
Qed.

Lemma worker_live_timer_fires s (timerId : nat) :
  worker_live s → worker_live (timer_fires timerId s).
Proof.
  unfold timer_fires.
  destruct (timers (host s) !! timerId) as [cb|]; [|done].
  destruct (execute_worker_fields
              (mkState (this s) (unschedule timerId (host s)))
              (cb_type cb) (cb_payload cb) (cb_transfer cb) (cb_onProgress cb))
    as (F1 & F2 & F3 & _).
  destruct (executePostMessage (cb_type cb) (cb_payload cb) (cb_transfer cb)
              (cb_onProgress cb) (mkState (this s) (unschedule timerId (host s))))
    as [p s1].
  simpl in *. by apply worker_live_same.
Qed.

Lemma worker_live_onmessage s (e : WorkerResponse.t TResponse) :
  worker_live s → worker_live (onmessage e s).
Proof.
  assert (∀ id x, worker_live s → worker_live (resolve_request id x s)) as Hres.
  { intros id x. unfold resolve_request.
    apply worker_live_same; simpl; [done|..];
      destruct (messageHandlers (this s) !! id);
      by rewrite ?settle_nextWorker, ?settle_terminated. }
  assert (∀ id x, worker_live s → worker_live (reject_request id x s)) as Hrej.
  { intros id x. unfold reject_request.
    apply worker_live_same; simpl; [done|..];
      destruct (errorHandlers (this s) !! id);
      by rewrite ?settle_nextWorker, ?settle_terminated. }
  unfold onmessage.
  destruct (WorkerResponse.id e) as [id|]; [|done].
  destruct (negb (truthy (Some id))); [done|].
  case_bool_decide.
  { by destruct (progressHandlers (this s) !! id). }
  case_bool_decide; [apply Hres|].
  destruct (WorkerResponse.error e) as [error|]; [|apply Hres].
  destruct (truthy (Some error)); [apply Hrej|apply Hres].
Qed.

Lemma worker_live_cancelAll s reason : worker_live s → worker_live (cancelAll reason s).
Proof.
  intros [H1 H2]. unfold cancelAll.
  set (h1 := forEach (errorHandlers (this s))
               (fun reject => settle reject (Rejected reason))
               (forEach (debounceTimers (this s)) clearTimeout (host s))).
  assert (nextWorker h1 = nextWorker (host s)
          ∧ terminated h1 = terminated (host s)) as [Hn Ht].
  { subst h1.
    apply (forEach_preserves
             (fun h => nextWorker h = nextWorker (host s)
                       ∧ terminated h = terminated (host s))).
    { intros x h [? ?]. by rewrite settle_nextWorker, settle_terminated. }
    apply (forEach_preserves
             (fun h => nextWorker h = nextWorker (host s)
                       ∧ terminated h = terminated (host s))); [|done].
    by intros x h [? ?]. }
  split; simpl; [done|].
  intros w. destruct (worker (this s)) as [w0|] eqn:Hw; simpl.
  - rewrite Hn, Ht, elem_of_union, elem_of_singleton.
    intros [->|Hin]; [by apply H1|by apply H2].
  - rewrite Hn, Ht. apply H2.
Qed.

Lemma worker_live_run_microtasks s : worker_live s → worker_live (run_microtasks s).
Proof.
  intros Hs. unfold run_microtasks.
  assert (worker_live (mkState (this s) (take_microtasks (host s)))) as H0
    by (revert Hs; by apply worker_live_same).
  revert H0. generalize (mkState (this s) (take_microtasks (host s))).
  induction (microtasks (host s)) as [|r l IH]; intros s0 H0; simpl; [done|].
  apply IH. revert H0. unfold react.
  apply worker_live_same; simpl;
    by rewrite ?settle_nextWorker, ?settle_terminated.
Qed.

Lemma worker_live_step s (ev : Event TRequest TResponse) :
  worker_live s → worker_live (step s ev).
Proof.
  intros Hs. unfold step. apply worker_live_run_microtasks.
  destruct ev; simpl.
  - by apply worker_live_postMessage.
  - by apply worker_live_timer_fires.
  - case_bool_decide; [by apply worker_live_onmessage|done].
  - by apply worker_live_cancelAll.
Qed.

Lemma worker_live_run (evs : list (Event TRequest TResponse)) :
  worker_live (run evs new).
Proof.
  assert (worker_live (new : LState)) as H0.
  { split; simpl; [done|]. intros w Hw. by apply elem_of_empty in Hw. }
  unfold run. revert H0. generalize (new : LState).
  induction evs as [|ev evs IH]; intros s Hs; simpl; [done|].
  by apply IH, worker_live_step.
Qed.

Lemma run_microtasks_posted s :
  posted (host (run_microtasks s)) = posted (host s)
  ∧ worker (this (run_microtasks s)) = worker (this s).
Proof.
  unfold run_microtasks.
  change (posted (host s))
    with (posted (host (mkState (this s) (take_microtasks (host s))))).
  change (worker (this s))
    with (worker (this (mkState (this s) (take_microtasks (host s))))).
  generalize (mkState (this s) (take_microtasks (host s))).
  induction (microtasks (host s)) as [|r l IH]; intros s0; simpl; [done|].
  destruct (IH (react s0 r)) as [-> ->]. unfold react. simpl.
  by rewrite settle_posted.
Qed.

(** X3: in every state a manager can reach, a [postMessage] without
    debounce hands exactly one message, the request with its fresh id, to
    the manager's worker, which it creates if it has none and which is never
    a terminated one. *)
Theorem undebounced_request_reaches_live_worker
    (evs : list (Event TRequest TResponse)) (type : string) (payload : TRequest)
    (transfer : option (list nat)) (debounceMs : Z) (onProgress : option nat) :
  (debounceMs ≤ 0)%Z →
  let s := run evs new in
  let s' := step s (Submit type payload transfer debounceMs onProgress) in
  ∃ w, worker (this s') = Some w
       ∧ (w ∉ terminated (host s'))
       ∧ (∀ w0, worker (this s) = Some w0 → w = w0)
       ∧ posted (host s')
         = posted (host s)
           ++ [(w, WorkerMessage.mk type payload
                     (Some (request_id type (messageId (this s)))), transfer)].
Proof.
  intros Hms s s'.
  pose proof (worker_live_step s (Submit type payload transfer debounceMs onProgress)
                (worker_live_run evs)) as [Hlive _].
  fold s' in Hlive.
  destruct (run_microtasks_posted
              (handle (Submit type payload transfer debounceMs onProgress) s))
    as [Hposted Hworker].
  fold (step s (Submit type payload transfer debounceMs onProgress)) in Hposted, Hworker.
  fold s' in Hposted, Hworker.
  simpl in Hposted, Hworker. unfold postMessage in Hposted, Hworker.
  rewrite bool_decide_eq_false_2 in Hposted, Hworker by lia.
  destruct (execute_worker_fields (init s) type payload transfer onProgress)
    as (F1 & _ & _ & _ & F5).
  rewrite F5 in Hposted. rewrite F1 in Hworker.
  assert (∃ w, worker (this (init s)) = Some w
               ∧ posted (host (init s)) = posted (host s)
               ∧ messageId (this (init s)) = messageId (this s)
               ∧ ∀ w0, worker (this s) = Some w0 → w = w0) as (w & Hw & Hp & Hid & Hsame).
  { unfold init. destruct (worker (this s)) as [w0|] eqn:Hw0.
    - exists w0. rewrite Hw0. repeat split; try done. by intros ? [= <-].
    - eexists. simpl. repeat split; done. }
  exists w. rewrite Hw in Hposted, Hworker. rewrite Hp, Hid in Hposted.
  split; [done|]. split; [by apply Hlive|]. split; done.
Qed.

End LiveWorker.

Lemma undebounced_request_reaches_live_worker_witness :
  (0 ≤ 0)%Z
  ∧ ∃ w, worker (this (step (run [Submit "CONVERT_EXCEL" "one" None 0 None;
                                  CancelAll "Cancelled by user"]
                                 (new : State string string))
                            (Submit "CONVERT_EXCEL" "two" None 0 None)))
         = Some w
         ∧ w ∉ terminated
                 (host (step (run [Submit "CONVERT_EXCEL" "one" None 0 None;
                                   CancelAll "Cancelled by user"]
                                  (new : State string string))
                             (Submit "CONVERT_EXCEL" "two" None 0 None))).
Proof.
  split; [lia|].
  destruct (undebounced_request_reaches_live_worker (TResponse := string)
              [Submit "CONVERT_EXCEL" "one" None 0 None;
               CancelAll "Cancelled by user"]
              "CONVERT_EXCEL" "two" None 0 None (Z.le_refl 0))
    as (w & Hw & Hlive & _).
  exists w. split; [exact Hw|exact Hlive].
Defined.

(** *** Correlation ids *)

Lemma has_dash_app (a b : string) : has_dash (a +:+ b) = has_dash a || has_dash b.
Proof. induction a as [|c a IH]; simpl; [done|]. by rewrite IH, orb_assoc. Qed.

Lemma pretty_N_go_no_dash (x : N) (s : string) :
  has_dash (pretty_N_go x s) = has_dash s.
Proof.
  revert s. induction (N.lt_wf_0 x) as [x _ IH]; intros s.
  destruct (decide (x = 0)%N) as [->|Hx]; [done|].
  rewrite pretty_N_go_step by lia.
  rewrite IH by (apply N.div_lt; lia).
  unfold pretty_N_char. by repeat case_match.
Qed.

(** A decimal numeral has no hyphen. *)
Lemma pretty_nat_no_dash (n : nat) : has_dash (pretty n) = false.
Proof.
  unfold pretty, pretty_nat, pretty, pretty_N.
  case_decide; [done|]. apply pretty_N_go_no_dash.
Qed.

(** The text before the last hyphen and the text after it determine each
    other. *)
Lemma split_at_last_dash (t1 t2 d1 d2 : string) :
  has_dash d1 = false → has_dash d2 = false →
  t1 +:+ "-" +:+ d1 = t2 +:+ "-" +:+ d2 → t1 = t2 ∧ d1 = d2.
Proof.
  intros H1 H2.
  assert (∀ t d, has_dash (t +:+ "-" +:+ d) = true) as Hdash.
  { intros t d. rewrite has_dash_app.
    change ("-" +:+ d) with (String (Ascii.ascii_of_nat 45) d). simpl. apply orb_true_r. }
  revert t2.
  induction t1 as [|c t1 IH]; intros [|c' t2] Heq.
  - by injection Heq.
  - change (String (Ascii.ascii_of_nat 45) d1 = String c' (t2 +:+ "-" +:+ d2)) in Heq.
    injection Heq as _ ->. by rewrite Hdash in H1.
  - change (String c (t1 +:+ "-" +:+ d1) = String (Ascii.ascii_of_nat 45) d2) in Heq.
    injection Heq as _ <-. by rewrite Hdash in H2.
  - change (String c (t1 +:+ "-" +:+ d1) = String c' (t2 +:+ "-" +:+ d2)) in Heq.
    injection Heq as <- Heq. by destruct (IH _ Heq) as [-> ->].
Qed.

Lemma request_id_inj (type1 type2 : string) (n1 n2 : nat) :
  request_id type1 n1 = request_id type2 n2 → type1 = type2 ∧ n1 = n2.
Proof.
  intros Heq.
  apply split_at_last_dash in Heq as [-> Hn]; try apply pretty_nat_no_dash.
  split; [done|]. by apply (inj pretty).
Qed.

Lemma request_id_truthy (type : string) (n : nat) :
  truthy (Some (request_id type n)) = true.
Proof. unfold request_id. by destruct type. Qed.

Section CorrelationIds.

Context {TRequest TResponse : Type}.

Implicit Types (s : State TRequest TResponse).

Lemma issued_mono (a b : nat) (id : string) : a ≤ b → issued a id → issued b id.
Proof. intros Hab (type & n & -> & Hn). exists type, n. split; [done|lia]. Qed.

(** A step that records no id and dispatches nothing. *)
Lemma ids_issued_shrink s s' :
  (∀ id, is_Some (messageHandlers (this s') !! id) →
         is_Some (messageHandlers (this s) !! id)) →
  (∀ id, is_Some (errorHandlers (this s') !! id) →
         is_Some (errorHandlers (this s) !! id)) →
  (∀ id, is_Some (progressHandlers (this s') !! id) →
         is_Some (progressHandlers (this s) !! id)) →
  messageId (this s') = messageId (this s) →
  posted (host s') = posted (host s) →
  ids_issued s → ids_issued s'.
Proof.
  intros HM HE HP Hid Hposted (I1 & I2 & I3 & I4 & I5).
  unfold ids_issued, dispatched. rewrite Hid, Hposted.
  repeat split; [by intros id ?%HM%I1|by intros id ?%HE%I2|by intros id ?%HP%I3|done..].
Qed.

Lemma ids_issued_init s : ids_issued s → ids_issued (init s).
Proof.
  unfold init. destruct (worker (this s)); [done|]. by apply ids_issued_shrink.
Qed.

Lemma ids_issued_execute s type (payload : TRequest) transfer onProgress :
  ids_issued s → ids_issued (executePostMessage type payload transfer onProgress s).2.
Proof.
  intros (I1 & I2 & I3 & I4 & I5).
  set (n := messageId (this s)) in *.
  assert (issued (S n) (request_id type n)) as Hnew
    by (exists type, n; split; [done|lia]).
  assert (∀ (m : gmap string nat) x id,
            (∀ id, is_Some (m !! id) → issued n id) →
            is_Some (<[request_id type n := x]> m !! id) → issued (S n) id) as Hins.
  { intros m x id Hm. rewrite lookup_insert_is_Some.
    intros [<-|[_ Hid]]; [done|]. apply (issued_mono n); [lia|by apply Hm]. }
  assert (Some (request_id type n) ∉ (WorkerMessage.id <$> dispatched s))
    as Hfresh.
  { intros Hin. apply list_elem_of_fmap in Hin as (m & Hm & Hin).
    destruct (I4 m Hin) as (n' & Hlt & Hid).
    rewrite Hid in Hm. injection Hm as Hm.
    apply request_id_inj in Hm as [_ ->]. lia. }
  unfold ids_issued, dispatched, executePostMessage; simpl.
  fold (request_id type n).
  split; [by intros id; apply Hins|].
  split; [by intros id; apply Hins|].
  split.
  { destruct onProgress; [by intros id; apply Hins|].
    intros id Hid. apply (issued_mono n); [lia|by apply I3]. }
  destruct (worker (this s)) as [w|]; simpl.
  - rewrite fmap_app. simpl. split.
    + intros m [Hm|Hm]%elem_of_app.
      * destruct (I4 m Hm) as (n' & Hlt & Hid). exists n'. split; [lia|done].
      * apply list_elem_of_singleton in Hm as ->. exists n. split; [lia|done].
    + rewrite fmap_app. simpl. apply NoDup_app. split; [done|].
      split; [|apply NoDup_singleton].
      by intros x Hx ->%list_elem_of_singleton.
  - split; [|done]. intros m Hm.
    destruct (I4 m Hm) as (n' & Hlt & Hid). exists n'. split; [lia|done].
Qed.

Lemma ids_issued_postMessage s type (payload : TRequest) transfer debounceMs
    onProgress :
  ids_issued s →
  ids_issued (postMessage type payload transfer debounceMs onProgress s).2.
Proof.
  intros Hs%ids_issued_init. unfold postMessage. case_bool_decide.
  - revert Hs. apply ids_issued_shrink; simpl; try done.
    by destruct (debounceTimers (this (init s)) !! type).
  - by apply ids_issued_execute.
Qed.

Lemma ids_issued_timer_fires s (timerId : nat) :
  ids_issued s → ids_issued (timer_fires timerId s).
Proof.
  intros Hs. unfold timer_fires.
  destruct (timers (host s) !! timerId) as [cb|]; [|done].
  assert (ids_issued (mkState (this s) (unschedule timerId (host s)))) as H0
    by (revert Hs; by apply ids_issued_shrink).
  apply (ids_issued_execute _ (cb_type cb) (cb_payload cb) (cb_transfer cb)
           (cb_onProgress cb)) in H0.
  destruct (executePostMessage (cb_type cb) (cb_payload cb) (cb_transfer cb)
              (cb_onProgress cb) (mkState (this s) (unschedule timerId (host s))))
    as [p s1].
  revert H0. by apply ids_issued_shrink.
Qed.

Lemma ids_issued_onmessage s (e : WorkerResponse.t TResponse) :
  ids_issued s → ids_issued (onmessage e s).
Proof.
  assert (∀ id (m : gmap string nat) k,
            is_Some (delete id m !! k) → is_Some (m !! k)) as Hdel.
  { intros id m k. rewrite lookup_delete_is_Some. tauto. }
  assert (∀ id x, ids_issued s → ids_issued (resolve_request id x s)) as Hres.
  { intros id x. unfold resolve_request.
    apply ids_issued_shrink; simpl; try apply Hdel; [done|].
    destruct (messageHandlers (this s) !! id); by rewrite ?settle_posted. }
  assert (∀ id x, ids_issued s → ids_issued (reject_request id x s)) as Hrej.
  { intros id x. unfold reject_request.
    apply ids_issued_shrink; simpl; try apply Hdel; [done|].
    destruct (errorHandlers (this s) !! id); by rewrite ?settle_posted. }
  unfold onmessage.
  destruct (WorkerResponse.id e) as [id|]; [|done].
  destruct (negb (truthy (Some id))); [done|].
  case_bool_decide.
  { by destruct (progressHandlers (this s) !! id). }
  case_bool_decide; [apply Hres|].
  destruct (WorkerResponse.error e) as [error|]; [|apply Hres].
  destruct (truthy (Some error)); [apply Hrej|apply Hres].
Qed.

Lemma cancelAll_posted s reason : posted (host (cancelAll reason s)) = posted (host s).
Proof.
  unfold cancelAll. simpl.
  assert (posted (forEach (errorHandlers (this s))
                    (fun reject => settle reject (Rejected reason))
                    (forEach (debounceTimers (this s)) clearTimeout (host s)))
          = posted (host s)) as H.
  { apply (forEach_preserves (fun h => posted h = posted (host s))).
    { intros x h <-. apply settle_posted. }
    by apply (forEach_preserves (fun h => posted h = posted (host s))). }
  by destruct (worker (this s)).
Qed.

Lemma ids_issued_cancelAll s reason : ids_issued s → ids_issued (cancelAll reason s).
Proof.
  apply ids_issued_shrink; try apply cancelAll_posted; try done;
    intros id; simpl; rewrite lookup_empty; by intros [? ?].
Qed.

Lemma ids_issued_run_microtasks s : ids_issued s → ids_issued (run_microtasks s).
Proof.
  intros Hs. unfold run_microtasks.
  assert (ids_issued (mkState (this s) (take_microtasks (host s)))) as H0
    by (revert Hs; by apply ids_issued_shrink).
  revert H0. generalize (mkState (this s) (take_microtasks (host s))).
  induction (microtasks (host s)) as [|r l IH]; intros s0 H0; simpl; [done|].
  apply IH. revert H0. unfold react.
  apply ids_issued_shrink; simpl; by rewrite ?settle_posted.
Qed.

Lemma ids_issued_step s (ev : Event TRequest TResponse) :
  ids_issued s → ids_issued (step s ev).
Proof.
  intros Hs. unfold step. apply ids_issued_run_microtasks.
  destruct ev; simpl.
  - by apply ids_issued_postMessage.
  - by apply ids_issued_timer_fires.
  - case_bool_decide; [by apply ids_issued_onmessage|done].
  - by apply ids_issued_cancelAll.
Qed.

Lemma ids_issued_run (evs : list (Event TRequest TResponse)) :
  ids_issued (run evs new).
Proof.
  assert (ids_issued (new : State TRequest TResponse)) as H0.
  { unfold ids_issued, dispatched. simpl.
    repeat split; try (intros id; rewrite lookup_empty; by intros [? ?]).
    - intros m Hm. by apply elem_of_nil in Hm.
    - apply NoDup_nil_2. }
  unfold run. revert H0. generalize (new : State TRequest TResponse).
  induction evs as [|ev evs IH]; intros s Hs; simpl; [done|].
  by apply IH, ids_issued_step.
Qed.

(** X4: whatever a manager has been through, the requests it has handed to
    workers carry ids that are pairwise distinct, and the id of the next
    request is in none of the three handler maps: no reply can be taken for
    the answer to another request, even for requests of different kinds or
    after [cancelAll]. *)
Theorem correlation_ids_unique (evs : list (Event TRequest TResponse)) :
  let s := run evs new in
  NoDup (WorkerMessage.id <$> dispatched s)
  ∧ (∀ m, m ∈ dispatched s →
          ∃ n, n < messageId (this s)
               ∧ WorkerMessage.id m = Some (request_id (WorkerMessage.type m) n))
  ∧ ∀ type, messageHandlers (this s) !! request_id type (messageId (this s)) = None
            ∧ errorHandlers (this s) !! request_id type (messageId (this s)) = None
            ∧ progressHandlers (this s) !! request_id type (messageId (this s)) = None.
Proof.
  intros s. destruct (ids_issued_run evs) as (I1 & I2 & I3 & I4 & I5). fold s in I1, I2, I3, I4, I5.
  split; [done|]. split; [done|].
  intros type.
  assert (∀ m : gmap string nat,
            (∀ id, is_Some (m !! id) → issued (messageId (this s)) id) →
            m !! request_id type (messageId (this s)) = None) as Hnone.
  { intros m Hm. apply eq_None_not_Some. intros Hsome.
    apply Hm in Hsome as (type' & n' & Heq & Hlt).
    apply request_id_inj in Heq as [_ <-]. lia. }
  repeat split; by apply Hnone.
Qed.

End CorrelationIds.

(** ** The chunk emitter, for every input *)

Section EmitterShape.

Implicit Types (rows cappedRows : list value) (id : option string).

(** Every response of the loop is a batch that carries the request id, the
    total, and no error. *)
Lemma chunk_loop_responses cappedRows total id index ci :
  Forall (fun r : Posted =>
            WorkerResponse.type r = "PREVIEW_CHUNK"
            ∧ WorkerResponse.id r = id
            ∧ WorkerResponse.error r = None
            ∧ ∃ b, WorkerResponse.payload r = Chunk b ∧ totalRows b = total)
         (chunk_loop cappedRows total id index ci).
Proof.
  revert index ci. apply (chunk_loop_ind _ cappedRows); intros index ci Hi.
  - rewrite chunk_loop_unfold. by rewrite decide_False by lia.
  - intros IH. rewrite chunk_loop_unfold, decide_True by done.
    constructor; [|done]. simpl. repeat split; try done. by eexists.
Qed.

Lemma chunk_loop_batches_length cappedRows total id index ci :
  length (batches (chunk_loop cappedRows total id index ci))
  = length (chunk_loop cappedRows total id index ci).
Proof.
  revert index ci. apply (chunk_loop_ind _ cappedRows); intros index ci Hi.
  - by rewrite chunk_loop_nil.
  - intros IH. rewrite chunk_loop_unfold, decide_True by done.
    erewrite batches_cons_chunk by done. simpl. by rewrite IH.
Qed.

Lemma div_200_step (a : nat) :
  0 < a → (a + 199) / 200 = S ((a - 200 + 199) / 200).
Proof.
  intros Ha. destruct (decide (200 ≤ a)) as [Hbig|Hsmall].
  - replace (a + 199) with (a - 200 + 199 + 1 * 200) at 1 by lia.
    rewrite Nat.div_add by lia. lia.
  - replace (a - 200) with 0 by lia.
    change ((0 + 199) / 200) with 0.
    symmetry. apply (Nat.div_unique _ _ _ (a - 1)); lia.
Qed.

Lemma div_200_first (n : nat) :
  S ((n - 100 + 199) / 200) = 1 + (n + 99) / 200.
Proof.
  destruct (decide (100 ≤ n)).
  - by replace (n - 100 + 199) with (n + 99) by lia.
  - replace (n - 100) with 0 by lia.
    change ((0 + 199) / 200) with 0.
    rewrite (Nat.div_small (n + 99)) by lia. done.
Qed.

(** After the first batch the loop needs one batch per 200 rows left. *)
Lemma chunk_loop_count cappedRows total id index ci :
  ci ≠ 0 →
  length (chunk_loop cappedRows total id index ci)
  = (length cappedRows - index + 199) / 200.
Proof.
  revert index ci.
  apply (chunk_loop_ind (fun index ci => ci ≠ 0 →
    length (chunk_loop cappedRows total id index ci)
    = (length cappedRows - index + 199) / 200) cappedRows); intros index ci Hi.
  - intros _. rewrite chunk_loop_nil by done.
    replace (length cappedRows - index) with 0 by lia. done.
  - intros IH Hci. rewrite chunk_loop_unfold, decide_True by done.
    cbn [length]. rewrite IH by lia. unfold chunk_size. rewrite decide_False by done.
    unfold PREVIEW_CHUNK_SIZE.
    rewrite (div_200_step (length cappedRows - index)) by lia.
    do 3 f_equal. lia.
Qed.

(** A batch is marked [done] exactly when it is the last one of the loop. *)
Lemma chunk_loop_done cappedRows total id index ci :
  ∀ (j : nat) (b : PreviewChunkPayload),
    batches (chunk_loop cappedRows total id index ci) !! j = Some b →
    (done b = true ↔ S j = length (batches (chunk_loop cappedRows total id index ci))).
Proof.
  revert index ci.
  apply (chunk_loop_ind (fun index ci => ∀ j b,
    batches (chunk_loop cappedRows total id index ci) !! j = Some b →
    (done b = true
     ↔ S j = length (batches (chunk_loop cappedRows total id index ci))))
    cappedRows); intros index ci Hi.
  - intros j b. by rewrite chunk_loop_nil.
  - intros IH j b. rewrite chunk_loop_unfold, decide_True by done.
    erewrite batches_cons_chunk by done.
    destruct j as [|j]; simpl.
    + intros [= <-]. simpl. rewrite bool_decide_eq_true.
      rewrite chunk_loop_batches_length.
      rewrite (chunk_loop_unfold _ _ _ (index + chunk_size ci)).
      destruct (decide (index + chunk_size ci < length cappedRows));
        simpl; split; intros; lia.
    + intros Hb. rewrite (IH j b Hb). lia.
Qed.

(** X5: whatever the rows, the stream [emitPreviewChunks] posts is a run of
    [PREVIEW_CHUNK] batches followed by one [PREVIEW_COMPLETE]; every
    response carries the request id and no error; the batches, put end to
    end, are the first 1000 rows in order; batch [i] has [chunkIndex = i]
    and the true total, and is marked [done] exactly when it is the last;
    and there are [1 + (n + 99) / 200] batches for [n] emitted rows, so
    never more than six. *)
Theorem preview_stream_shape rows id :
  let n := length rows `min` PREVIEW_LIMIT in
  let sent := batches (emitPreviewChunks rows id) in
  (∃ chunks : list Posted,
     emitPreviewChunks rows id
     = chunks ++ [WorkerResponse.mk "PREVIEW_COMPLETE" (Complete (length rows) n)
                    id None]
     ∧ Forall (fun r : Posted =>
                 WorkerResponse.type r = "PREVIEW_CHUNK"
                 ∧ WorkerResponse.id r = id
                 ∧ WorkerResponse.error r = None
                 ∧ ∃ b, WorkerResponse.payload r = Chunk b) chunks)
  ∧ emitted_rows (emitPreviewChunks rows id) = take PREVIEW_LIMIT rows
  ∧ (∀ (i : nat) (b : PreviewChunkPayload),
       sent !! i = Some b →
       chunkIndex b = i ∧ totalRows b = length rows
       ∧ (done b = true ↔ S i = length sent))
  ∧ length sent = 1 + (n + 99) / 200
  ∧ length sent ≤ 6.
Proof.
  intros n sent.
  assert (length (slice 0 PREVIEW_LIMIT rows) = n) as Hn.
  { rewrite slice_0, length_take. subst n. lia. }
  assert (n ≤ 1000) as Hle by (subst n; unfold PREVIEW_LIMIT; lia).
  assert (length sent = 1 + (n + 99) / 200) as Hcount.
  { subst sent. destruct (decide (n = 0)) as [Hz|Hnz].
    - unfold emitPreviewChunks. cbv zeta.
      rewrite decide_True by lia. rewrite chunk_loop_nil by lia.
      rewrite Hz. done.
    - rewrite emit_batches_nonempty
        by (intros Hnil; rewrite Hnil in Hn; simpl in Hn; lia).
      rewrite chunk_loop_batches_length, chunk_loop_unfold, decide_True by lia.
      cbn [length]. rewrite chunk_loop_count by lia.
      rewrite Hn. unfold chunk_size. rewrite decide_True by done.
      unfold FIRST_PREVIEW_CHUNK. cbn [Nat.add]. apply div_200_first. }
  split; [|split; [|split; [|split; [done|]]]].
  - unfold emitPreviewChunks. cbv zeta. rewrite Hn, app_assoc.
    eexists. split; [done|]. apply Forall_app. split.
    + eapply Forall_impl; [apply chunk_loop_responses|].
      intros r (? & ? & ? & b & ? & ?). eauto.
    + case_decide; [|done]. constructor; [|done]. simpl. eauto.
  - destruct (decide (n = 0)) as [Hz|Hnz].
    + unfold emitPreviewChunks, emitted_rows. cbv zeta.
      rewrite decide_True by lia. rewrite chunk_loop_nil by lia. simpl.
      rewrite <- slice_0. symmetry. apply nil_length_inv. lia.
    + unfold emitted_rows. rewrite emit_batches_nonempty
        by (intros Hnil; rewrite Hnil in Hn; simpl in Hn; lia).
      fold (emitted_rows (chunk_loop (slice 0 PREVIEW_LIMIT rows)
                            (length rows) id 0 0)).
      by rewrite chunk_loop_rows, slice_0.
  - intros i b. subst sent. destruct (decide (n = 0)) as [Hz|Hnz].
    + unfold emitPreviewChunks. cbv zeta.
      rewrite decide_True by lia. rewrite chunk_loop_nil by lia. simpl.
      destruct i as [|i]; [|done]. by intros [= <-].
    + rewrite emit_batches_nonempty
        by (intros Hnil; rewrite Hnil in Hn; simpl in Hn; lia).
      intros Hb. pose proof (chunk_loop_done _ _ _ _ _ _ _ Hb) as Hdone.
      apply chunk_loop_batch in Hb. cbv zeta in Hb.
      destruct Hb as (Hci & Htot & _). done.
  - rewrite Hcount.
    assert ((n + 99) / 200 < 6); [|lia].
    apply Nat.Div0.div_lt_upper_bound. lia.
Qed.

End EmitterShape.

(** *** From a reply to a settled promise *)

Section Replies.

Context {TRequest TResponse : Type}.

Implicit Types (s : State TRequest TResponse).

Lemma run_cons (ev : Event TRequest TResponse) evs s :
  run (ev :: evs) s = run evs (step s ev).
Proof. done. Qed.

Lemma run_app (evs1 evs2 : list (Event TRequest TResponse)) s :
  run (evs1 ++ evs2) s = run evs2 (run evs1 s).
Proof. apply foldl_app. Qed.

(** The reactions of debounced calls touch no handler map, no worker and
    no progress callback. *)
Lemma run_microtasks_fields s :
  let s' := run_microtasks s in
  messageHandlers (this s') = messageHandlers (this s)
  ∧ errorHandlers (this s') = errorHandlers (this s)
  ∧ progressHandlers (this s') = progressHandlers (this s)
  ∧ worker (this s') = worker (this s)
  ∧ messageId (this s') = messageId (this s)
  ∧ progressCalls (host s') = progressCalls (host s)
  ∧ nextPromise (host s') = nextPromise (host s).
Proof.
  unfold run_microtasks.
  assert (∀ (l : list (Reaction TResponse)) s0,
            messageHandlers (this (foldl react s0 l)) = messageHandlers (this s0)
            ∧ errorHandlers (this (foldl react s0 l)) = errorHandlers (this s0)
            ∧ progressHandlers (this (foldl react s0 l)) = progressHandlers (this s0)
            ∧ worker (this (foldl react s0 l)) = worker (this s0)
            ∧ messageId (this (foldl react s0 l)) = messageId (this s0)
            ∧ progressCalls (host (foldl react s0 l)) = progressCalls (host s0)
            ∧ nextPromise (host (foldl react s0 l)) = nextPromise (host s0)) as Hfold.
  { induction l as [|r l IH]; intros s0; simpl; [done|].
    destruct (IH (react s0 r)) as (-> & -> & -> & -> & -> & -> & ->).
    unfold react, settle. simpl. by repeat case_match. }
  cbv zeta.
  destruct (Hfold (microtasks (host s)) (mkState (this s) (take_microtasks (host s))))
    as (-> & -> & -> & -> & -> & -> & ->).
  done.
Qed.

Lemma step_terminal s (w : nat) (e : WorkerResponse.t TResponse) (id : string)
    (p : nat) :
  consistent s →
  worker (this s) = Some w →
  messageHandlers (this s) !! id = Some p →
  truthy (Some id) = true →
  WorkerResponse.id e = Some id →
  WorkerResponse.type e ≠ "PROGRESS" →
  WorkerResponse.type e ≠ "PREVIEW_CHUNK" →
  let s' := step s (WorkerReplies w e) in
  promises (host s') !! p = Some (Some (settlement_of e))
  ∧ messageHandlers (this s') !! id = None
  ∧ errorHandlers (this s') !! id = None
  ∧ progressHandlers (this s') !! id = None
  ∧ progressCalls (host s') = progressCalls (host s).
Proof.
  intros Hs Hw Hm Htruthy Hid Hne1 Hne2 s'.
  pose proof Hm as He. rewrite (inv_same s Hs) in He.
  destruct (inv_pending s Hs id p He) as [Hpending _].
  assert (handle (WorkerReplies w e) s
          = mkState (forget id (this s)) (settle p (settlement_of e) (host s)))
    as Hhandle.
  { simpl. rewrite bool_decide_eq_true_2 by done.
    unfold onmessage, settlement_of. rewrite Hid, Htruthy. simpl.
    rewrite bool_decide_eq_false_2 by (intros [?|?]; done).
    unfold resolve_request, reject_request. rewrite Hm, He.
    case_bool_decide; [done|].
    destruct (WorkerResponse.error e) as [[|c error]|]; done. }
  assert (consistent (handle (WorkerReplies w e) s)) as Hcons.
  { simpl. rewrite bool_decide_eq_true_2 by done. by apply consistent_onmessage. }
  assert (promises (host (handle (WorkerReplies w e) s)) !! p
          = Some (Some (settlement_of e))) as Hsettled.
  { rewrite Hhandle. simpl. by apply settle_pending. }
  destruct (run_microtasks_fields (handle (WorkerReplies w e) s))
    as (F1 & F2 & F3 & _ & _ & F6 & _).
  fold (step s (WorkerReplies w e)) in F1, F2, F3, F6. fold s' in F1, F2, F3, F6.
  rewrite F1, F2, F3, F6, Hhandle. simpl.
  rewrite !lookup_delete_eq.
  split; [|repeat split; try done;
           unfold settle; by repeat case_match].
  subst s'. unfold step, run_microtasks.
  assert (∀ (l : list (Reaction TResponse)) s0,
            promises (host s0) !! p = Some (Some (settlement_of e)) →
            promises (host (foldl react s0 l)) !! p
            = Some (Some (settlement_of e))) as Hfold.
  { induction l as [|r l IH]; intros s0 H0; simpl; [done|].
    apply IH. unfold react. simpl. by apply settle_settled. }
  by apply Hfold.
Qed.

Lemma step_progress s (w : nat) (e : WorkerResponse.t TResponse) (id : string)
    (cb : nat) :
  consistent s →
  worker (this s) = Some w →
  progressHandlers (this s) !! id = Some cb →
  truthy (Some id) = true →
  WorkerResponse.id e = Some id →
  WorkerResponse.type e = "PROGRESS" ∨ WorkerResponse.type e = "PREVIEW_CHUNK" →
  let s' := step s (WorkerReplies w e) in
  consistent s'
  ∧ worker (this s') = Some w
  ∧ messageHandlers (this s') = messageHandlers (this s)
  ∧ progressHandlers (this s') = progressHandlers (this s)
  ∧ progressCalls (host s') = progressCalls (host s) ++ [(cb, WorkerResponse.payload e)].
Proof.
  intros Hs Hw Hp Htruthy Hid Htype s'.
  assert (handle (WorkerReplies w e) s
          = mkState (this s) (call_progress cb (WorkerResponse.payload e) (host s)))
    as Hhandle.
  { simpl. rewrite bool_decide_eq_true_2 by done.
    unfold onmessage. rewrite Hid, Htruthy. simpl.
    rewrite bool_decide_eq_true_2 by done. by rewrite Hp. }
  destruct (run_microtasks_fields (handle (WorkerReplies w e) s))
    as (F1 & _ & F3 & F4 & _ & F6 & _).
  fold (step s (WorkerReplies w e)) in F1, F3, F4, F6. fold s' in F1, F3, F4, F6.
  rewrite F1, F3, F4, F6, Hhandle. simpl.
  split; [by apply consistent_step|done].
Qed.

End Replies.

Section ReplySettles.

Context {TRequest TResponse : Type}.

(** X6: in every state a manager can reach, a reply of its worker that
    carries the id of a request still registered and is not a progress
    message settles that request's promise: rejected with the reply's error
    when the reply has a non-empty one (and is not [PREVIEW_COMPLETE]),
    resolved with its payload otherwise.  The id is then gone from the three
    handler maps, and no progress callback has been called. *)
Theorem reply_settles_request (evs : list (Event TRequest TResponse)) (w : nat)
    (e : WorkerResponse.t TResponse) (id : string) (p : nat) :
  let s := run evs new in
  worker (this s) = Some w →
  messageHandlers (this s) !! id = Some p →
  WorkerResponse.id e = Some id →
  WorkerResponse.type e ≠ "PROGRESS" →
  WorkerResponse.type e ≠ "PREVIEW_CHUNK" →
  let s' := step s (WorkerReplies w e) in
  promises (host s) !! p = Some None
  ∧ promises (host s') !! p = Some (Some (settlement_of e))
  ∧ messageHandlers (this s') !! id = None
  ∧ errorHandlers (this s') !! id = None
  ∧ progressHandlers (this s') !! id = None
  ∧ progressCalls (host s') = progressCalls (host s).
Proof.
  intros s Hw Hm Hid Hne1 Hne2 s'.
  pose proof (consistent_run evs) as Hs. fold s in Hs.
  destruct (ids_issued_run evs) as (I1 & _). fold s in I1.
  destruct (I1 id (mk_is_Some _ _ Hm)) as (type & n & -> & _).
  split.
  - rewrite (inv_same s Hs) in Hm. by destruct (inv_pending s Hs _ _ Hm).
  - apply step_terminal; try done. apply request_id_truthy.
Qed.

End ReplySettles.

Lemma reply_settles_request_witness :
  promises
    (host (step busy_manager
             (WorkerReplies 0
                (WorkerResponse.mk "CONVERSION_ERROR" ""
                   (Some "CONVERT_EXCEL-0")
                   (Some "Excel export: dataset exceeds 500 columns")))))
    !! 0
  = Some (Some (Rejected "Excel export: dataset exceeds 500 columns")).
Proof.
  refine (proj1 (proj2
    (reply_settles_request
       [Submit "CONVERT_EXCEL" "sheet" None 0 None;
        Submit "SEARCH_JSON" "query" None 150 None]
       0
       (WorkerResponse.mk "CONVERSION_ERROR" "" (Some "CONVERT_EXCEL-0")
          (Some "Excel export: dataset exceeds 500 columns"))
       "CONVERT_EXCEL-0" 0 _ _ _ _ _))); by vm_compute.
Defined.

(** *** A streamed preview, from request to resolved promise *)

Section StreamedPreview.

Implicit Types (s : State Request payload).

Lemma batches_payloads (chunks : list Posted) :
  Forall (fun r : Posted => ∃ b, WorkerResponse.payload r = Chunk b) chunks →
  WorkerResponse.payload <$> chunks = Chunk <$> batches chunks.
Proof.
  induction 1 as [|r l [b Hb] _ IH]; [done|].
  erewrite batches_cons_chunk by done. by rewrite !fmap_cons, Hb, IH.
Qed.

(** The batches of a stream reach the progress callback one by one, and
    leave the request registered. *)
Lemma deliver_chunks (w : nat) (id : string) (p cb : nat) (chunks : list Posted) s :
  consistent s →
  worker (this s) = Some w →
  messageHandlers (this s) !! id = Some p →
  progressHandlers (this s) !! id = Some cb →
  truthy (Some id) = true →
  Forall (fun r : Posted =>
            WorkerResponse.type r = "PREVIEW_CHUNK"
            ∧ WorkerResponse.id r = Some id) chunks →
  let s' := run (WorkerReplies w <$> chunks) s in
  consistent s'
  ∧ worker (this s') = Some w
  ∧ messageHandlers (this s') !! id = Some p
  ∧ progressCalls (host s')
    = progressCalls (host s) ++ ((fun r => (cb, WorkerResponse.payload r)) <$> chunks).
Proof.
  intros Hs Hw Hm Hp Htruthy Hchunks. revert s Hs Hw Hm Hp.
  induction Hchunks as [|r l [Htype Hid] _ IH]; intros s Hs Hw Hm Hp.
  { simpl. by rewrite app_nil_r. }
  destruct (step_progress s w r id cb Hs Hw Hp Htruthy Hid (or_intror Htype))
    as (Hs1 & Hw1 & Hm1 & Hp1 & Hcalls).
  cbv zeta. rewrite fmap_cons, run_cons.
  destruct (IH (step s (WorkerReplies w r)) Hs1 Hw1) as (H1 & H2 & H3 & H4).
  { by rewrite Hm1. }
  { by rewrite Hp1. }
  split; [done|]. split; [done|]. split; [done|].
  rewrite H4, Hcalls, <- app_assoc. done.
Qed.

Context (parseJsonInput : Data → throws value)
        (XLSX_sheet_to_json : Data → throws (list value))
        (XLSX_write : list value → string → throws ArrayBuffer).

(** X7: a streamed preview end to end.  In any state a manager can reach,
    [postMessage('PARSE_FOR_PREVIEW_STREAM', req, undefined, 0, cb)] hands
    the request to the worker; when the Excel worker's replies to it come
    back in order, nothing else happening in between, then, if the input
    parses to rows the guard accepts, the
    callback [cb] has been given exactly the batches of the stream, in
    order, and the promise is resolved with the true row count and the
    count of rows previewed; if the guard refuses the rows, the callback is
    never called and the promise is rejected with the guard's message.
    Either way the request is forgotten. *)
Theorem streamed_preview_end_to_end (evs : list (Event Request payload))
    (req : Request) (cb : nat) (jsonData : value) :
  let type := "PARSE_FOR_PREVIEW_STREAM" in
  let s := run evs new in
  let p := (postMessage type req None 0 (Some cb) s).1 in
  let s1 := step s (Submit type req None 0 (Some cb)) in
  let id := request_id type (messageId (this s)) in
  let m := WorkerMessage.mk type req (Some id) in
  let rows := if wants_flatten (options req)
              then map flattenObject (as_rows jsonData)
              else as_rows jsonData in
  parseJsonInput (data req) = inr jsonData →
  ∃ w, worker (this s1) = Some w
       ∧ last (posted (host s1)) = Some (w, m, None)
       ∧ let s2 := run (WorkerReplies w <$>
                          ExcelWorker.onmessage parseJsonInput XLSX_sheet_to_json
                            XLSX_write m) s1 in
         messageHandlers (this s2) !! id = None
         ∧ errorHandlers (this s2) !! id = None
         ∧ progressHandlers (this s2) !! id = None
         ∧ match enforceTabularLimits rows "Preview parse" with
           | inr _ =>
               promises (host s2) !! p
               = Some (Some (Resolved (Complete (length rows)
                                         (length rows `min` PREVIEW_LIMIT))))
               ∧ progressCalls (host s2)
                 = progressCalls (host s)
                   ++ ((fun b => (cb, Chunk b))
                         <$> batches (emitPreviewChunks rows (Some id)))
           | inl e =>
               promises (host s2) !! p = Some (Some (Rejected (message e)))
               ∧ progressCalls (host s2) = progressCalls (host s)
           end.
Proof.
  intros type s p s1 id m rows Hparse.
  pose proof (consistent_run evs) as Hs. fold s in Hs.
  assert (consistent s1) as Hs1 by by apply consistent_step.
  (* the submission *)
  assert (handle (Submit type req None 0 (Some cb)) s
          = (executePostMessage type req None (Some cb) (init s)).2) as Hhandle.
  { unfold handle, postMessage. by rewrite bool_decide_eq_false_2 by lia. }
  assert (p = nextPromise (host s)) as Hp.
  { subst p. unfold postMessage. rewrite bool_decide_eq_false_2 by lia.
    unfold executePostMessage, init. simpl. by destruct (worker (this s)). }
  assert (messageId (this (init s)) = messageId (this s)
          ∧ nextPromise (host (init s)) = nextPromise (host s)
          ∧ posted (host (init s)) = posted (host s)
          ∧ progressCalls (host (init s)) = progressCalls (host s)
          ∧ ∃ w, worker (this (init s)) = Some w) as (Hmid & Hnp & Hposted & Hcalls & w & Hw).
  { unfold init. destruct (worker (this s)) as [w|] eqn:Hw0.
    - rewrite Hw0. repeat split; try done. by exists w.
    - simpl. repeat split; try done. by eexists. }
  destruct (execute_fields (init s) type req None (Some cb))
    as (F1 & _ & _ & _ & _ & _ & _).
  destruct (execute_worker_fields (init s) type req None (Some cb))
    as (G1 & _ & _ & _ & G5).
  destruct (run_microtasks_fields (handle (Submit type req None 0 (Some cb)) s))
    as (R1 & _ & R3 & R4 & _ & R6 & _).
  destruct (run_microtasks_posted (handle (Submit type req None 0 (Some cb)) s))
    as [R7 _].
  fold (step s (Submit type req None 0 (Some cb))) in R1, R3, R4, R6, R7.
  fold s1 in R1, R3, R4, R6, R7.
  rewrite Hhandle in R1, R3, R4, R6, R7.
  rewrite F1 in R1. rewrite G1, Hw in R4. rewrite G5, Hw, Hposted, Hmid in R7.
  rewrite Hmid, Hnp, <- Hp in R1. fold (request_id type (messageId (this s))) in R1.
  fold id in R1, R7. fold m in R7.
  assert (progressHandlers (this s1) !! id = Some cb) as HP1.
  { rewrite R3. unfold executePostMessage. simpl. rewrite Hmid.
    apply lookup_insert_eq. }
  assert (progressCalls (host s1) = progressCalls (host s)) as HC1.
  { rewrite R6. unfold executePostMessage. simpl.
    destruct (worker (this (init s))); by simpl. }
  assert (messageHandlers (this s1) !! id = Some p) as HM1
    by (rewrite R1; apply lookup_insert_eq).
  assert (truthy (Some id) = true) as Htruthy by apply request_id_truthy.
  exists w. split; [done|]. split; [by rewrite R7, last_snoc|].
  (* the worker's replies *)
  assert (ExcelWorker.onmessage parseJsonInput XLSX_sheet_to_json XLSX_write m
          = match enforceTabularLimits rows "Preview parse" with
            | inr _ => emitPreviewChunks rows (Some id)
            | inl e => [conversion_error (Some id) (message e)]
            end) as Hreplies.
  { unfold ExcelWorker.onmessage, ExcelWorker.try_body. simpl.
    destruct req as [d ct o]. simpl in *. rewrite Hparse. simpl.
    unfold parse_for_preview. fold rows.
    by destruct (enforceTabularLimits rows "Preview parse"). }
  rewrite Hreplies.
  destruct (enforceTabularLimits rows "Preview parse") as [e|[]].
  - (* refused: one CONVERSION_ERROR *)
    change (run (WorkerReplies w <$> [conversion_error (Some id) (message e)]) s1)
      with (step s1 (WorkerReplies w (conversion_error (Some id) (message e)))).
    destruct (step_terminal s1 w (conversion_error (Some id) (message e)) id p)
      as (T1 & T2 & T3 & T4 & T5); try done.
    cbv zeta. rewrite T1, T5, HC1. repeat split; try done.
    unfold settlement_of, conversion_error. simpl.
    destruct e as [[] ctx]; by destruct ctx.
  - (* accepted: the stream *)
    destruct (preview_stream_shape rows (Some id))
      as ((chunks & Hemit & Hchunks) & _).
    assert (batches (emitPreviewChunks rows (Some id)) = batches chunks) as Hb.
    { rewrite Hemit, batches_app. simpl. by rewrite app_nil_r. }
    rewrite Hb, Hemit. cbv zeta.
    rewrite fmap_app, run_app, fmap_cons, run_cons. simpl.
    destruct (deliver_chunks w id p cb chunks s1) as (D1 & D2 & D3 & D4); try done.
    { eapply Forall_impl; [exact Hchunks|]. by intros r (? & ? & _). }
    set (done_ := WorkerResponse.mk "PREVIEW_COMPLETE"
                    (Complete (length rows) (length rows `min` PREVIEW_LIMIT))
                    (Some id) None).
    destruct (step_terminal (run (WorkerReplies w <$> chunks) s1) w done_ id p)
      as (T1 & T2 & T3 & T4 & T5); try done.
    rewrite T1, T5, D4, HC1. repeat split; try done.
    f_equal.
    trans ((fun x : payload => (cb, x)) <$> (WorkerResponse.payload <$> chunks));
      [by rewrite <- list_fmap_compose|].
    rewrite batches_payloads, <- list_fmap_compose; [done|].
    eapply Forall_impl; [exact Hchunks|]. by intros r (_ & _ & _ & ?).
Qed.

End StreamedPreview.

Lemma streamed_preview_end_to_end_witness :
  ∃ w,
    promises
      (host (run (WorkerReplies w <$>
                    ExcelWorker.onmessage
                      (fun _ => inr (VArr [VObj [("a", VNum 1)]; VObj [("a", VNum 2)]]))
                      (fun _ => inl "not a workbook")
                      (fun _ _ => inl "no writer")
                      (WorkerMessage.mk "PARSE_FOR_PREVIEW_STREAM"
                         (mkRequest (Text "rows") None None)
                         (Some "PARSE_FOR_PREVIEW_STREAM-0")))
                 (step new
                    (Submit "PARSE_FOR_PREVIEW_STREAM"
                       (mkRequest (Text "rows") None None) None 0 (Some 7)))))
      !! 0
    = Some (Some (Resolved (Complete 2 2))).
Proof.
  destruct (streamed_preview_end_to_end
              (fun _ => inr (VArr [VObj [("a", VNum 1)]; VObj [("a", VNum 2)]]))
              (fun _ => inl "not a workbook")
              (fun _ _ => inl "no writer")
              [] (mkRequest (Text "rows") None None) 7
              (VArr [VObj [("a", VNum 1)]; VObj [("a", VNum 2)]]) eq_refl)
    as (w & _ & _ & _ & _ & _ & H).
  exists w. exact (proj1 H).
Defined.

(** *** A debounced request, from call to settled promise *)

Section DebouncedRoundTrip.

Context {TRequest TResponse : Type}.

Implicit Types (s : State TRequest TResponse) (h : Host TRequest TResponse).

Lemma calm_settle (p : nat) (st : Settlement TResponse) h :
  calm h → calm (settle p st h).
Proof.
  intros (C1 & C2 & C3 & C4). unfold settle.
  destruct (promises h !! p) as [[?|]|]; try done.
  split; [|done]. simpl. intros r Hr.
  apply elem_of_app in Hr as [Hr|Hr]; [by apply C1|].
  destruct (chains h !! p) as [[o ty]|] eqn:Hc; [|by apply elem_of_nil in Hr].
  apply list_elem_of_singleton in Hr as ->. simpl. by eapply C3.
Qed.

Lemma calm_clearTimeout (t : nat) h : calm h → calm (clearTimeout t h).
Proof.
  intros (C1 & C2 & C3 & C4). repeat split; simpl; try done.
  intros t' cb. rewrite lookup_delete. case_decide; [done|]. apply C2.
Qed.

Lemma calm_init s : calm (host s) → calm (host (init s)).
Proof. unfold init. by destruct (worker (this s)). Qed.

Lemma calm_postMessage s type (payload : TRequest) transfer debounceMs onProgress :
  calm (host s) →
  calm (host (postMessage type payload transfer debounceMs onProgress s).2).
Proof.
  intros Hs. apply calm_init in Hs.
  destruct (decide (0 < debounceMs)%Z) as [Hms|Hms].
  - destruct (debounced_fields s type payload transfer debounceMs onProgress Hms)
      as (_ & _ & _ & F4 & F5 & F6 & F7).
    destruct Hs as (C1 & C2 & C3 & C4).
    split; [|split; [|split]].
    + rewrite F6, F7. apply C1.
    + intros t cb. rewrite F5, F6, lookup_insert_Some.
      intros [[_ <-]|[_ Hcb]].
      * simpl. apply eq_None_not_Some. intros Hsome. apply C4 in Hsome. lia.
      * destruct (debounceTimers (this (init s)) !! type);
          [rewrite lookup_delete in Hcb; case_decide; [done|]|]; by eapply C2.
    + rewrite F6. apply C3.
    + rewrite F4, F6. intros p Hp. apply C4 in Hp. lia.
  - unfold postMessage. rewrite bool_decide_eq_false_2 by done.
    destruct (execute_fields (init s) type payload transfer onProgress)
      as (_ & _ & _ & F4 & F5 & F6 & F7).
    destruct Hs as (C1 & C2 & C3 & C4).
    split; [|split; [|split]].
    + rewrite F6, F7. apply C1.
    + rewrite F5, F6. apply C2.
    + rewrite F6. apply C3.
    + rewrite F4, F6. intros p Hp. apply C4 in Hp. lia.
Qed.

Lemma calm_timer_fires s (timerId : nat) :
  consistent s → calm (host s) → calm (host (timer_fires timerId s)).
Proof.
  intros Hs (C1 & C2 & C3 & C4). unfold timer_fires.
  destruct (timers (host s) !! timerId) as [cb|] eqn:Hcb; [|done].
  set (s0 := mkState (this s) (unschedule timerId (host s))).
  destruct (execute_fields s0 (cb_type cb) (cb_payload cb) (cb_transfer cb)
              (cb_onProgress cb)) as (_ & _ & _ & F4 & F5 & F6 & F7).
  assert ((executePostMessage (cb_type cb) (cb_payload cb) (cb_transfer cb)
             (cb_onProgress cb) s0).1 = nextPromise (host s)) as Hp by done.
  destruct (executePostMessage (cb_type cb) (cb_payload cb) (cb_transfer cb)
              (cb_onProgress cb) s0) as [p s1].
  simpl in *. subst p.
  assert (∀ o, outer_ok s o → o ≠ nextPromise (host s)) as Hne
    by (intros o [Hlt _]; lia).
  split; [|split; [|split]]; simpl.
  - intros r Hr. rewrite F7 in Hr.
    rewrite lookup_insert_ne by (apply not_eq_sym, Hne; by apply (inv_micro s Hs)).
    rewrite F6. by apply C1.
  - intros t cb'. rewrite F5, lookup_delete. case_decide; [done|]. intros Ht.
    rewrite lookup_insert_ne by (apply not_eq_sym, Hne; by apply (inv_timers s Hs t)).
    rewrite F6. by eapply C2.
  - intros p o ty. rewrite lookup_insert_Some.
    intros [[_ [= <- <-]]|[_ Hold]].
    + rewrite lookup_insert_ne
        by (apply not_eq_sym, Hne; by apply (inv_timers s Hs timerId)).
      rewrite F6. by eapply C2.
    + rewrite F6 in Hold.
      rewrite lookup_insert_ne
        by (apply not_eq_sym, Hne; by apply (inv_chains s Hs p o ty)).
      rewrite F6. by eapply C3.
  - intros p. rewrite F4, lookup_insert_is_Some, F6.
    intros [<-|[_ Hp]]; [lia|]. apply C4 in Hp. lia.
Qed.

Lemma calm_onmessage s (e : WorkerResponse.t TResponse) :
  calm (host s) → calm (host (onmessage e s)).
Proof.
  intros Hs. unfold onmessage, resolve_request, reject_request.
  repeat case_match; simpl; try done; by apply calm_settle.
Qed.

Lemma calm_cancelAll s reason : calm (host s) → calm (host (cancelAll reason s)).
Proof.
  intros Hs. unfold cancelAll. simpl.
  assert (calm (forEach (errorHandlers (this s))
                  (fun reject => settle reject (Rejected reason))
                  (forEach (debounceTimers (this s)) clearTimeout (host s)))) as H.
  { apply forEach_preserves; [intros; by apply calm_settle|].
    apply forEach_preserves; [intros; by apply calm_clearTimeout|done]. }
  by destruct (worker (this s)).
Qed.

(** Once the queued reactions have run, none is left. *)
Lemma calm_run_microtasks s :
  calm (host s) →
  calm (host (run_microtasks s)) ∧ microtasks (host (run_microtasks s)) = [].
Proof.
  intros (C1 & C2 & C3 & C4). unfold run_microtasks.
  assert (∀ (l : list (Reaction TResponse)) s0,
            calm (host s0) → microtasks (host s0) = [] →
            (∀ r, r ∈ l → chains (host s0) !! re_outer r = None) →
            calm (host (foldl react s0 l))
            ∧ microtasks (host (foldl react s0 l)) = []) as Hfold.
  { induction l as [|r l IH]; intros s0 H0 Hm Hl; simpl; [done|].
    assert (chains (host s0) !! re_outer r = None) as Hr by (apply Hl; by left).
    assert (host (react s0 r) = settle (re_outer r) (re_settlement r) (host s0))
      as Hhost by done.
    apply IH.
    - rewrite Hhost. by apply calm_settle.
    - rewrite Hhost. unfold settle.
      destruct (promises (host s0) !! re_outer r) as [[?|]|]; try done.
      simpl. by rewrite Hr, Hm.
    - intros r' Hr'. rewrite Hhost.
      assert (chains (settle (re_outer r) (re_settlement r) (host s0))
              = chains (host s0)) as -> by (unfold settle; by repeat case_match).
      apply Hl. by right. }
  apply Hfold; simpl; [|done|done].
  repeat split; simpl; try done. intros r Hr. by apply elem_of_nil in Hr.
Qed.

Lemma calm_step s (ev : Event TRequest TResponse) :
  consistent s → calm (host s) →
  calm (host (step s ev)) ∧ microtasks (host (step s ev)) = [].
Proof.
  intros Hs Hc. unfold step. apply calm_run_microtasks.
  destruct ev; simpl.
  - by apply calm_postMessage.
  - by apply calm_timer_fires.
  - case_bool_decide; [by apply calm_onmessage|done].
  - by apply calm_cancelAll.
Qed.

(** Between two events of a manager no reaction is waiting. *)
Lemma quiet_run (evs : list (Event TRequest TResponse)) :
  calm (host (run evs new)) ∧ microtasks (host (run evs new)) = [].
Proof.
  assert (consistent (new : State TRequest TResponse)
          ∧ calm (host (new : State TRequest TResponse))
          ∧ microtasks (host (new : State TRequest TResponse)) = []) as H0.
  { split; [apply consistent_new|]. split; [|done].
    split; [|split; [|split]]; simpl.
    - intros r Hr. by apply elem_of_nil in Hr.
    - intros t cb. by rewrite lookup_empty.
    - intros p o ty. by rewrite lookup_empty.
    - intros p. rewrite lookup_empty. by intros [? ?]. }
  assert (∀ s, consistent s ∧ calm (host s) ∧ microtasks (host s) = [] →
               calm (host (run evs s)) ∧ microtasks (host (run evs s)) = []) as Hrun.
  { induction evs as [|ev evs IH]; intros s (Hs & Hc & Hm); [done|].
    rewrite run_cons. apply IH. split; [by apply consistent_step|].
    by apply calm_step. }
  by apply Hrun.
Qed.

(** A reply that settles a chained request settles the debounced call's
    promise with it and clears the entry of its kind. *)
Lemma step_terminal_chained s (w : nat) (e : WorkerResponse.t TResponse)
    (id type : string) (p outer : nat) :
  consistent s →
  microtasks (host s) = [] →
  worker (this s) = Some w →
  messageHandlers (this s) !! id = Some p →
  chains (host s) !! p = Some (outer, type) →
  promises (host s) !! outer = Some None →
  truthy (Some id) = true →
  WorkerResponse.id e = Some id →
  WorkerResponse.type e ≠ "PROGRESS" →
  WorkerResponse.type e ≠ "PREVIEW_CHUNK" →
  let s' := step s (WorkerReplies w e) in
  promises (host s') !! outer = Some (Some (settlement_of e))
  ∧ debounceTimers (this s') !! type = None.
Proof.
  intros Hs Hmicro Hw Hm Hchain Houter Htruthy Hid Hne1 Hne2 s'.
  pose proof Hm as He. rewrite (inv_same s Hs) in He.
  destruct (inv_pending s Hs id p He) as [Hpending _].
  assert (outer ≠ p) as Hop.
  { intros ->. destruct (inv_chains s Hs p p type Hchain) as [_ Hno].
    by apply (Hno id). }
  assert (handle (WorkerReplies w e) s
          = mkState (forget id (this s)) (settle p (settlement_of e) (host s)))
    as Hhandle.
  { simpl. rewrite bool_decide_eq_true_2 by done.
    unfold onmessage, settlement_of. rewrite Hid, Htruthy. simpl.
    rewrite bool_decide_eq_false_2 by (intros [?|?]; done).
    unfold resolve_request, reject_request. rewrite Hm, He.
    case_bool_decide; [done|].
    destruct (WorkerResponse.error e) as [[|c error]|]; done. }
  subst s'. unfold step. rewrite Hhandle.
  unfold run_microtasks, settle. simpl.
  rewrite Hpending, Hchain, Hmicro. simpl.
  unfold react, settle. simpl.
  rewrite lookup_insert_ne, Houter by done. simpl.
  split; [apply lookup_insert_eq|apply lookup_delete_eq].
Qed.

(** X8: a debounced request end to end, when nothing else happens to the
    manager in between.  From any state a manager can reach,
    [postMessage(type, payload, transfer, debounceMs, onProgress)] with
    [debounceMs > 0] dispatches nothing and returns a pending promise; if
    the next event is its timer firing, the request goes to the worker
    under a fresh id; and if the next event after that is the worker's
    closing reply to that id, the promise returned by [postMessage] is
    settled as the reply says (rejected with its error, resolved with its
    payload), the entry of [type] in [debounceTimers] is gone, so are the
    handlers of the id, and no promise reaction is left waiting. *)
Theorem debounced_request_round_trip (evs : list (Event TRequest TResponse))
    (type : string) (payload : TRequest) (transfer : option (list nat))
    (debounceMs : Z) (onProgress : option nat) (e : WorkerResponse.t TResponse) :
  let s := run evs new in
  let outer := (postMessage type payload transfer debounceMs onProgress s).1 in
  let id := request_id type (messageId (this s)) in
  let s1 := step s (Submit type payload transfer debounceMs onProgress) in
  let s2 := step s1 (TimerFires (nextTimer (host s))) in
  (0 < debounceMs)%Z →
  WorkerResponse.id e = Some id →
  WorkerResponse.type e ≠ "PROGRESS" →
  WorkerResponse.type e ≠ "PREVIEW_CHUNK" →
  dispatched s1 = dispatched s
  ∧ promises (host s1) !! outer = Some None
  ∧ dispatched s2 = dispatched s ++ [WorkerMessage.mk type payload (Some id)]
  ∧ promises (host s2) !! outer = Some None
  ∧ ∃ w, worker (this s2) = Some w
         ∧ let s3 := step s2 (WorkerReplies w e) in
           promises (host s3) !! outer = Some (Some (settlement_of e))
           ∧ debounceTimers (this s3) !! type = None
           ∧ messageHandlers (this s3) !! id = None
           ∧ errorHandlers (this s3) !! id = None
           ∧ progressHandlers (this s3) !! id = None
           ∧ microtasks (host s3) = [].
Proof.
  intros s outer id s1 s2 Hms Hid Hne1 Hne2.
  pose proof (consistent_run evs) as Hs. fold s in Hs.
  destruct (quiet_run evs) as [_ Hmicro]. fold s in Hmicro.
  assert (consistent s1) as Hs1 by by apply consistent_step.
  assert (consistent s2) as Hs2 by by apply consistent_step.
  assert (outer = nextPromise (host s)) as Houter.
  { subst outer. unfold postMessage. rewrite bool_decide_eq_true_2 by done.
    simpl. unfold init. by destruct (worker (this s)). }
  (* the call *)
  destruct (step_submit_debounced s type
              (mkSubmission payload transfer debounceMs onProgress) Hmicro Hms)
    as (M1 & D1 & I1 & [w W1] & _ & T1 & _ & N1).
  change (step s (submit type (mkSubmission payload transfer debounceMs onProgress)))
    with s1 in M1, D1, I1, W1, T1, N1.
  simpl in T1.
  assert (promises (host s1) !! outer = Some None) as P1.
  { destruct (debounced_fields s type payload transfer debounceMs onProgress Hms)
      as (_ & _ & F3 & _).
    subst s1. unfold step, run_microtasks. simpl.
    assert (microtasks
              (host (postMessage type payload transfer debounceMs onProgress s).2)
            = []) as ->.
    { destruct (debounced_fields s type payload transfer debounceMs onProgress Hms)
        as (_ & _ & _ & _ & _ & _ & ->).
      unfold init. by destruct (worker (this s)). }
    simpl. rewrite F3, Houter.
    replace (nextPromise (host (init s))) with (nextPromise (host s))
      by (unfold init; by destruct (worker (this s))).
    apply lookup_insert_eq. }
  (* the timer *)
  assert (timers (host s1) !! nextTimer (host s)
          = Some (mkTimerCallback type payload transfer onProgress debounceMs outer))
    as Htimer by (rewrite T1, Houter; apply lookup_insert_eq).
  set (s1' := mkState (this s1) (unschedule (nextTimer (host s)) (host s1))).
  destruct (execute_fields s1' type payload transfer onProgress)
    as (E1 & E2 & E3 & E4 & E5 & E6 & E7).
  destruct (execute_worker_fields s1' type payload transfer onProgress)
    as (G1 & _ & _ & _ & G5).
  assert ((executePostMessage type payload transfer onProgress s1').1
          = nextPromise (host s1)) as Hp by done.
  assert (handle (TimerFires (nextTimer (host s))) s1
          = mkState (this (executePostMessage type payload transfer onProgress s1').2)
              (chain (nextPromise (host s1)) outer type
                 (host (executePostMessage type payload transfer onProgress s1').2)))
    as Hhandle2.
  { simpl. unfold timer_fires. rewrite Htimer. simpl. fold s1'.
    destruct (executePostMessage type payload transfer onProgress s1') as [p0 s0].
    simpl in Hp. by subst p0. }
  subst s1'.
  assert (microtasks (host (handle (TimerFires (nextTimer (host s))) s1)) = [])
    as Hmicro2.
  { rewrite Hhandle2. unfold chain. cbn [host microtasks]. rewrite E7. exact M1. }
  assert (s2 = mkState (this (handle (TimerFires (nextTimer (host s))) s1))
                 (take_microtasks (host (handle (TimerFires (nextTimer (host s))) s1))))
    as Hs2eq.
  { subst s2. unfold step, run_microtasks. by rewrite Hmicro2. }
  assert (microtasks (host s2) = []) as M2 by (by rewrite Hs2eq).
  assert (worker (this s2) = Some w) as W2.
  { rewrite Hs2eq, Hhandle2. cbn [this]. by rewrite G1. }
  assert (messageHandlers (this s2) !! id = Some (nextPromise (host s1))) as MH2.
  { rewrite Hs2eq, Hhandle2. cbn [this]. rewrite E1. cbn [this messageId].
    unfold id, request_id. rewrite <- I1. apply lookup_insert_eq. }
  assert (chains (host s2) !! nextPromise (host s1) = Some (outer, type)) as C2.
  { rewrite Hs2eq, Hhandle2. unfold chain, take_microtasks. cbn [host chains].
    apply lookup_insert_eq. }
  assert (promises (host s2) !! outer = Some None) as P2.
  { rewrite Hs2eq, Hhandle2. unfold chain, take_microtasks. cbn [host promises].
    rewrite E3. cbn [host unschedule clearTimeout promises nextPromise].
    rewrite lookup_insert_ne by (rewrite N1, Houter; lia). exact P1. }
  assert (dispatched s2 = dispatched s ++ [WorkerMessage.mk type payload (Some id)])
    as D2.
  { unfold dispatched. rewrite Hs2eq, Hhandle2. unfold chain, take_microtasks.
    cbn [host posted]. rewrite G5.
    cbn [host this unschedule clearTimeout posted worker messageId].
    rewrite W1, fmap_app. unfold dispatched in D1. rewrite D1.
    unfold id. by rewrite I1. }
  split; [done|]. split; [done|]. split; [done|]. split; [done|].
  exists w. split; [done|].
  assert (truthy (Some id) = true) as Htruthy by apply request_id_truthy.
  destruct (step_terminal_chained s2 w e id type (nextPromise (host s1)) outer)
    as [T3 T4]; try done.
  destruct (step_terminal s2 w e id (nextPromise (host s1)))
    as (_ & T5 & T6 & T7 & _); try done.
  repeat (split; [done|]).
  destruct (quiet_run (evs ++ [Submit type payload transfer debounceMs onProgress;
                               TimerFires (nextTimer (host s));
                               WorkerReplies w e])) as [_ M3].
  by rewrite run_app in M3.
Qed.

End DebouncedRoundTrip.

Lemma debounced_request_round_trip_witness :
  ∃ w,
    promises
      (host (step (step (step (new : State string string)
                           (Submit "SEARCH_JSON" "needle" None 150 None))
                      (TimerFires 0))
               (WorkerReplies w
                  (WorkerResponse.mk "SEARCH_RESULT" "3 hits"
                     (Some "SEARCH_JSON-0") None))))
      !! 0
    = Some (Some (Resolved "3 hits")).
Proof.
  destruct (debounced_request_round_trip (TRequest := string) (TResponse := string)
              [] "SEARCH_JSON" "needle" None 150 None
              (WorkerResponse.mk "SEARCH_RESULT" "3 hits" (Some "SEARCH_JSON-0") None))
    as (_ & _ & _ & _ & w & _ & H & _); [lia|reflexivity|discriminate|discriminate|].
  exists w. exact H.
Defined.

(** ** What a worker answers *)

Section ReplyProtocol.

Implicit Types (id : option string) (rs : list Posted).

Lemma reply_ok_single id (r : Posted) :
  WorkerResponse.id r = id →
  WorkerResponse.error r = None →
  WorkerResponse.type r ∈ ["PREVIEW_COMPLETE"; "CONVERSION_SUCCESS"; "PARSE_SUCCESS"] →
  reply_ok id [r].
Proof. intros. by exists [], r. Qed.

Lemma reply_ok_stream rows id : reply_ok id (emitPreviewChunks rows id).
Proof.
  destruct (preview_stream_shape rows id) as ((chunks & -> & Hchunks) & _).
  eexists chunks, _. split; [done|]. split.
  - eapply Forall_impl; [exact Hchunks|]. by intros r (? & ? & ? & _).
  - repeat split; try done. set_solver.
Qed.

Lemma parse_for_preview_reply (stream : bool) jsonData o id rs :
  parse_for_preview stream jsonData o id = inr rs → reply_ok id rs.
Proof.
  unfold parse_for_preview.
  destruct (guard _) as [msg|[]]; simpl; [done|].
  destruct stream; intros [= <-].
  - apply reply_ok_stream.
  - apply reply_ok_single; try done. set_solver.
Qed.

(** X9: the Excel worker answers a request it has a branch for with
    either a successful reply (batches, if any, then exactly one closing
    [PREVIEW_COMPLETE], [CONVERSION_SUCCESS] or [PARSE_SUCCESS], all without
    an error) or a single [CONVERSION_ERROR] with payload [null] and the
    error message; every response carries the request's id.  A request of
    another kind, or a [CONVERT_EXCEL] whose conversion type is neither
    [json-to-excel] nor [excel-to-json], gets no response at all. *)
Theorem excel_worker_reply_protocol (parseJsonInput : Data → throws value)
    (XLSX_sheet_to_json : Data → throws (list value))
    (XLSX_write : list value → string → throws ArrayBuffer)
    (m : WorkerMessage.t Request) :
  let rs := ExcelWorker.onmessage parseJsonInput XLSX_sheet_to_json XLSX_write m in
  (excel_recognised m = false → rs = [])
  ∧ (excel_recognised m = true →
     reply_ok (WorkerMessage.id m) rs
     ∨ ∃ msg, rs = [WorkerResponse.mk "CONVERSION_ERROR" Null
                      (WorkerMessage.id m) (Some msg)]).
Proof.
  unfold ExcelWorker.onmessage, excel_recognised.
  destruct m as [type [data convType options] id]. simpl.
  set (body := ExcelWorker.try_body _ _ _ _).
  set (known := (type = "CONVERT_EXCEL"
                 ∧ (convType = Some "json-to-excel" ∨ convType = Some "excel-to-json"))
                ∨ type ∈ ["PARSE_FOR_PREVIEW"; "PARSE_FOR_PREVIEW_STREAM";
                          "PREVIEW_EXCEL_STREAM"]).
  assert ((¬ known ∧ body = inr [])
          ∨ (known ∧ ((∃ msg, body = inl msg)
                      ∨ ∃ rs, body = inr rs ∧ reply_ok id rs))) as Hbody.
  { subst body known. unfold ExcelWorker.try_body. simpl.
    repeat case_decide; subst.
    - right. split; [left; split; [done|by left]|].
      destruct (parseJsonInput data) as [?|jsonData]; simpl; [left; by eexists|].
      destruct (guard _) as [?|[]]; simpl; [left; by eexists|].
      destruct (XLSX_write _ _) as [?|buffer]; simpl; [left; by eexists|].
      right. eexists. split; [done|]. apply reply_ok_single; try done. set_solver.
    - right. split; [left; split; [done|by right]|].
      destruct (XLSX_sheet_to_json data) as [?|jsonData]; simpl; [left; by eexists|].
      destruct (guard _) as [?|[]]; simpl; [left; by eexists|].
      right. eexists. split; [done|]. apply reply_ok_single; try done. set_solver.
    - left. split; [|done]. intros [[_ [?|?]]|Hin]; [done..|]. set_solver.
    - right. split; [right; set_solver|].
      destruct (parseJsonInput data) as [?|jsonData]; simpl; [left; by eexists|].
      destruct (parse_for_preview false jsonData options id) as [?|rs] eqn:Hp;
        [left; by eexists|].
      right. eexists. split; [done|]. by eapply parse_for_preview_reply.
    - right. split; [right; set_solver|].
      destruct (parseJsonInput data) as [?|jsonData]; simpl; [left; by eexists|].
      destruct (parse_for_preview true jsonData options id) as [?|rs] eqn:Hp;
        [left; by eexists|].
      right. eexists. split; [done|]. by eapply parse_for_preview_reply.
    - right. split; [right; set_solver|].
      destruct (XLSX_sheet_to_json data) as [?|rows]; simpl; [left; by eexists|].
      destruct (guard _) as [?|[]]; simpl; [left; by eexists|].
      right. eexists. split; [done|]. apply reply_ok_stream.
    - left. split; [|done]. intros [[? _]|Hin]; [done|]. set_solver. }
  fold known.
  destruct Hbody as [[Hunknown ->]|[Hknown Hbody]].
  - split; [done|]. intros Htrue. apply orb_true_iff in Htrue as [H|H];
      apply bool_decide_eq_true in H; destruct Hunknown; [by left|by right].
  - split.
    + intros Hfalse. apply orb_false_elim in Hfalse as [H1 H2].
      apply bool_decide_eq_false in H1, H2. by destruct Hknown.
    + intros _. destruct Hbody as [[msg ->]|(rs & -> & Hok)]; simpl.
      * right. by exists msg.
      * by left.
Qed.

(** X10: the CSV worker, for every request other than
    [PREVIEW_CSV_STREAM]: the same protocol.  A [CONVERT_CSV],
    [PARSE_FOR_PREVIEW] or [PARSE_FOR_PREVIEW_STREAM] request is answered by
    a successful reply or by a single [CONVERSION_ERROR], under the
    request's id; a request of another kind, or a [CONVERT_CSV] whose
    conversion type is neither [json-to-csv] nor [csv-to-json], gets no
    response at all. *)
Theorem csv_worker_reply_protocol (toStringData : Data → string)
    (JSON_parse : string → throws value)
    (Papa_parse : string → string → throws (list value))
    (Papa_unparse : list value → string → throws string)
    (m : WorkerMessage.t Request) :
  WorkerMessage.type m ≠ "PREVIEW_CSV_STREAM" →
  let rs := CsvWorker.onmessage toStringData JSON_parse Papa_parse Papa_unparse m in
  (csv_recognised m = false → rs = [])
  ∧ (csv_recognised m = true →
     reply_ok (WorkerMessage.id m) rs
     ∨ ∃ msg, rs = [WorkerResponse.mk "CONVERSION_ERROR" Null
                      (WorkerMessage.id m) (Some msg)]).
Proof.
  unfold CsvWorker.onmessage, csv_recognised.
  destruct m as [type [data convType options] id]. simpl. intros _.
  set (body := CsvWorker.try_body _ _ _ _ _).
  set (known := (type = "CONVERT_CSV"
                 ∧ (convType = Some "json-to-csv" ∨ convType = Some "csv-to-json"))
                ∨ type ∈ ["PARSE_FOR_PREVIEW"; "PARSE_FOR_PREVIEW_STREAM"]).
  assert ((¬ known ∧ body = inr [])
          ∨ (known ∧ ((∃ msg, body = inl msg)
                      ∨ ∃ rs, body = inr rs ∧ reply_ok id rs))) as Hbody.
  { subst body known. unfold CsvWorker.try_body. simpl.
    repeat case_decide; subst.
    - right. split; [left; split; [done|by left]|].
      destruct (JSON_parse _) as [?|jsonData]; simpl; [left; by eexists|].
      destruct (guard _) as [?|[]]; simpl; [left; by eexists|].
      destruct (Papa_unparse _ _) as [?|csv]; simpl; [left; by eexists|].
      right. eexists. split; [done|]. apply reply_ok_single; try done. set_solver.
    - right. split; [left; split; [done|by right]|].
      destruct (Papa_parse _ _) as [?|results]; simpl; [left; by eexists|].
      destruct (guard _) as [?|[]]; simpl; [left; by eexists|].
      right. eexists. split; [done|]. apply reply_ok_single; try done. set_solver.
    - left. split; [|done]. intros [[_ [?|?]]|Hin]; [done..|]. set_solver.
    - right. split; [right; set_solver|].
      destruct (JSON_parse _) as [?|jsonData]; simpl; [left; by eexists|].
      destruct (parse_for_preview false jsonData options id) as [?|rs] eqn:Hp;
        [left; by eexists|].
      right. eexists. split; [done|]. by eapply parse_for_preview_reply.
    - right. split; [right; set_solver|].
      destruct (JSON_parse _) as [?|jsonData]; simpl; [left; by eexists|].
      destruct (parse_for_preview true jsonData options id) as [?|rs] eqn:Hp;
        [left; by eexists|].
      right. eexists. split; [done|]. by eapply parse_for_preview_reply.
    - left. split; [|done]. intros [[? _]|Hin]; [done|]. set_solver. }
  fold known.
  destruct Hbody as [[Hunknown ->]|[Hknown Hbody]].
  - split; [done|]. intros Htrue. apply orb_true_iff in Htrue as [H|H];
      apply bool_decide_eq_true in H; destruct Hunknown; [by left|by right].
  - split.
    + intros Hfalse. apply orb_false_elim in Hfalse as [H1 H2].
      apply bool_decide_eq_false in H1, H2. by destruct Hknown.
    + intros _. destruct Hbody as [[msg ->]|(rs & -> & Hok)]; simpl.
      * right. by exists msg.
      * by left.
Qed.

End ReplyProtocol.

Lemma excel_worker_reply_protocol_witness :
  ExcelWorker.onmessage (fun _ => inr VNull) (fun _ => inr []) (fun _ _ => inr [])
    (WorkerMessage.mk "CONVERT_EXCEL"
       (mkRequest (Text "[]") (Some "excel-to-pdf") None) (Some "CONVERT_EXCEL-3"))
  = [].
Proof.
  exact (proj1 (excel_worker_reply_protocol (fun _ => inr VNull) (fun _ => inr [])
                  (fun _ _ => inr [])
                  (WorkerMessage.mk "CONVERT_EXCEL"
                     (mkRequest (Text "[]") (Some "excel-to-pdf") None)
                     (Some "CONVERT_EXCEL-3"))) eq_refl).
Defined.

Lemma csv_worker_reply_protocol_witness :
  CsvWorker.onmessage (fun _ => "a,b") (fun _ => inl "Unexpected token a")
    (fun _ _ => inr []) (fun _ _ => inr "")
    (WorkerMessage.mk "CONVERT_CSV" (mkRequest (Text "a,b") (Some "csv-to-xml") None)
       (Some "CONVERT_CSV-0"))
  = [].
Proof.
  refine (proj1 (csv_worker_reply_protocol (fun _ => "a,b")
                   (fun _ => inl "Unexpected token a")
                   (fun _ _ => inr []) (fun _ _ => inr "")
                   (WorkerMessage.mk "CONVERT_CSV"
                      (mkRequest (Text "a,b") (Some "csv-to-xml") None)
                      (Some "CONVERT_CSV-0")) _) _); [discriminate|by vm_compute].
Defined.

(** ** Rows handed to the guard and to the writers *)

Section PreparedRows.

Implicit Types (data rows : list value) (item : value) (es : record).

(** X11: whichever way the workers prepare rows for a sheet, no nested value
    reaches it.  Every row [sanitizeForTabular] returns is an object with
    distinct keys and scalar values; every row [flattenObject] returns is
    such an object or, when the item was not an object, the item itself;
    so every cell the guard and the writers see is a scalar.  Preparing
    prepared rows again changes nothing: sanitising twice gives the rows
    of sanitising once, and sanitising flattened rows gives the flattened
    rows, as long as no leaf of an item has the dotted path [__proto__]. *)
Theorem prepared_rows_hold_scalars data :
  Forall (fun row => ∃ fields, row = VObj fields ∧ flat_record fields)
         (sanitizeForTabular data)
  ∧ Forall (fun row => (is_object row = false ∧ row ∈ data)
                       ∨ ∃ fields, row = VObj fields ∧ flat_record fields)
           (map flattenObject data)
  ∧ Forall (fun kv => is_scalar kv.2 = true) (cells (sanitizeForTabular data))
  ∧ Forall (fun kv => is_scalar kv.2 = true) (cells (map flattenObject data))
  ∧ (Forall (fun item => NoDup (keys (entries item))) data →
     sanitizeForTabular (sanitizeForTabular data) = sanitizeForTabular data)
  ∧ (Forall (fun item => "__proto__" ∉ keys (leaves_of_entries "" (entries item)))
            data →
     sanitizeForTabular (map flattenObject data)
     = map (fun item => if is_object item then flattenObject item
                        else VObj [("value", item)]) data).
Proof.
  assert (∀ rows,
            Forall (fun row => is_object row = false
                               ∨ ∃ fields, row = VObj fields ∧ flat_record fields) rows →
            Forall (fun kv => is_scalar kv.2 = true) (cells rows)) as Hcells.
  { intros rows Hrows. unfold cells. apply Forall_forall. intros kv Hkv.
    apply list_elem_of_bind in Hkv as (row & Hkv & Hrow).
    rewrite Forall_forall in Hrows.
    destruct (Hrows row Hrow) as [Hno|(fields & -> & _ & Hsc)].
    - rewrite Hno in Hkv. by apply elem_of_nil in Hkv.
    - simpl in Hkv. rewrite Forall_forall in Hsc. by apply Hsc. }
  assert (Forall (fun row => ∃ fields, row = VObj fields ∧ flat_record fields)
                 (sanitizeForTabular data)) as Hsan.
  { unfold sanitizeForTabular.
    change (map sanitize_item data) with (sanitize_item <$> data).
    apply Forall_fmap, Forall_forall. intros item _. simpl.
    destruct (sanitize_item_fields item) as (fields & -> & Hf & _). by exists fields. }
  assert (Forall (fun row => (is_object row = false ∧ row ∈ data)
                             ∨ ∃ fields, row = VObj fields ∧ flat_record fields)
                 (map flattenObject data)) as Hflat.
  { change (map flattenObject data) with (flattenObject <$> data).
    apply Forall_fmap, Forall_forall. intros item Hin. simpl.
    destruct (is_object item) eqn:Hobj.
    - destruct (flattenObject_fields item Hobj) as (fields & -> & Hf & _).
      right. by exists fields.
    - left. unfold flattenObject. by rewrite Hobj. }
  split; [done|]. split; [done|]. split; [|split; [|split]].
  - apply Hcells. eapply Forall_impl; [exact Hsan|]. intros row ?. by right.
  - apply Hcells. eapply Forall_impl; [exact Hflat|].
    intros row [[? _]|?]; [by left|by right].
  - intros Hnd. unfold sanitizeForTabular. rewrite map_map.
    apply map_ext_in. intros item Hin. apply list_elem_of_In in Hin.
    rewrite Forall_forall in Hnd.
    destruct (sanitize_item_fields item) as (fields & -> & [_ Hsc] & Ho & Hk).
    apply sanitize_flat_record; auto.
  - intros Hk. unfold sanitizeForTabular. rewrite map_map.
    apply map_ext_in. intros item Hin. apply list_elem_of_In in Hin.
    rewrite Forall_forall in Hk.
    destruct (is_object item) eqn:Hobj.
    + destruct (flattenObject_fields item Hobj) as (fields & -> & [_ Hsc] & Ho & Hkeys).
      apply sanitize_flat_record; auto.
    + unfold flattenObject. rewrite Hobj. simpl.
      unfold sanitize_item. by rewrite Hobj.
Qed.

(** X12: whether the guard accepts does not depend on the order of the
    rows or on the label of the call, and rows can only be refused for what
    they contain: after removing rows from, or reordering, an accepted list
    the guard still accepts. *)
Theorem guard_accepts_fewer_rows rows rows' (ctx ctx' : string) :
  rows' ⊆+ rows →
  enforceTabularLimits rows ctx = inr () →
  enforceTabularLimits rows' ctx' = inr ().
Proof.
  intros Hsub. rewrite !enforce_ok_iff. intros (Hlen & Hcols & Hfit).
  assert (∀ kv, kv ∈ cells rows' → kv ∈ cells rows) as Hcells.
  { intros kv. unfold cells. rewrite !list_elem_of_bind.
    intros (row & Hkv & Hrow). exists row. split; [done|].
    by eapply elem_of_submseteq. }
  split; [|split].
  - apply submseteq_length in Hsub. lia.
  - assert (size (columns (cells rows')) ≤ size (columns (cells rows))); [|lia].
    apply subseteq_size. unfold columns, keys. intros k.
    rewrite !elem_of_list_to_set, !list_elem_of_fmap.
    intros (kv & -> & Hkv). exists kv. split; [done|]. by apply Hcells.
  - unfold cells_fit in *. rewrite Forall_forall in Hfit |- *.
    intros kv Hkv. by apply Hfit, Hcells.
Qed.

End PreparedRows.

Lemma guard_accepts_fewer_rows_witness :
  [VObj [("b", VNum 2)]] ⊆+ [VObj [("a", VNum 1)]; VObj [("b", VNum 2)]]
  ∧ enforceTabularLimits [VObj [("a", VNum 1)]; VObj [("b", VNum 2)]] "CSV parse"
    = inr ()
  ∧ enforceTabularLimits [VObj [("b", VNum 2)]] "Excel export" = inr ().
Proof.
  assert ([VObj [("b", VNum 2)]] ⊆+ [VObj [("a", VNum 1)]; VObj [("b", VNum 2)]])
    as Hsub by (apply submseteq_cons; done).
  assert (enforceTabularLimits [VObj [("a", VNum 1)]; VObj [("b", VNum 2)]] "CSV parse"
          = inr ()) as Hok by (by vm_compute).
  split; [exact Hsub|]. split; [exact Hok|].
  exact (guard_accepts_fewer_rows _ _ "CSV parse" "Excel export" Hsub Hok).
Defined.

(** ** The preview the page shows *)

Section PreviewShown.

Import Converter.

Lemma onProgress_batches (bs : list PreviewChunkPayload) (c : Collected) :
  foldl onProgress c (Chunk <$> bs)
  = mkCollected (collectedRows c ++ concat (chunk <$> bs))
                (match last bs with
                 | Some b => Some (totalRows b)
                 | None => collectedTotalRows c
                 end).
Proof.
  revert c. induction bs as [|b bs IH]; intros c.
  - simpl. rewrite app_nil_r. by destruct c.
  - rewrite fmap_cons. simpl. rewrite IH. simpl. rewrite <- app_assoc.
    f_equal. destruct bs as [|b' bs']; [done|].
    change (last (b :: b' :: bs')) with (last (b' :: bs')).
    destruct (last (b' :: bs')) eqn:Hlast; [done|]. by apply last_None in Hlast.
Qed.

(** X13: fed the batches of a preview stream in order, the progress
    callback of [validateAndPreview] ends up holding the first 1000 rows
    of the data and its true row count: the page shows a preview of
    [min(N, 1000)] rows and reports a total of [N], also when the data is
    empty. *)
Theorem preview_callback_collects (rows : list value) (id : option string) :
  let c := foldl onProgress nothing_collected
                 (Chunk <$> batches (emitPreviewChunks rows id)) in
  collectedRows c = take PREVIEW_LIMIT rows
  ∧ collectedTotalRows c = Some (length rows)
  ∧ shownTotalRows c = length rows.
Proof.
  intros c. subst c. rewrite onProgress_batches. simpl.
  destruct (preview_stream_shape rows id) as (_ & Hrows & Hbatch & Hcount & _).
  unfold emitted_rows in Hrows. rewrite Hrows.
  destruct (last (batches (emitPreviewChunks rows id))) as [b|] eqn:Hlast.
  - rewrite last_lookup in Hlast. apply Hbatch in Hlast as (_ & -> & _).
    unfold shownTotalRows. done.
  - apply last_None in Hlast. rewrite Hlast in Hcount. simpl in Hcount. lia.
Qed.

End PreviewShown.

(** ** What [flattenObject] computes *)

Section FlattenLeaves.

Implicit Types (o es result fields kvs : record) (stack : list frame) (v : value).

Lemma define_all_perm o kvs :
  NoDup (keys (o ++ kvs)) → define_all o kvs ≡ₚ o ++ kvs.
Proof.
  revert o. unfold keys, define_all.
  induction kvs as [|[k v] kvs IH]; intros o Hnd; simpl.
  - by rewrite app_nil_r.
  - assert (k ∉ keys o) as Hfresh.
    { unfold keys. rewrite fmap_app, fmap_cons in Hnd. simpl in Hnd.
      apply NoDup_app in Hnd as (_ & Hdisj & _).
      intros Hin. apply (Hdisj k Hin). by left. }
    rewrite IH.
    + rewrite (define_prop_new k v o Hfresh). by rewrite <- app_assoc.
    + rewrite fmap_app, (define_prop_new k v o Hfresh), <- fmap_app, <- app_assoc.
      done.
Qed.

Lemma define_all_NoDup o kvs :
  NoDup (keys o) → NoDup (keys (define_all o kvs)).
Proof.
  revert o. unfold define_all.
  induction kvs as [|[k v] kvs IH]; intros o Hnd; [done|].
  apply IH. by apply define_prop_NoDup.
Qed.

Lemma list_to_map_define_all o kvs :
  NoDup (keys o) →
  (list_to_map (define_all o kvs) : gmap string value)
  = list_to_map (reverse kvs) ∪ list_to_map o.
Proof.
  revert o. unfold define_all.
  induction kvs as [|[k v] kvs IH]; intros o Hnd.
  - simpl. by rewrite (left_id_L ∅ (∪)).
  - simpl. rewrite IH by (by apply define_prop_NoDup).
    rewrite list_to_map_define_prop by done.
    rewrite reverse_cons, list_to_map_app. simpl.
    rewrite insert_empty, <- (assoc_L (∪)), <- insert_union_singleton_l. done.
Qed.

(** X14: what [flattenObject] computes, for an object (or an array, through
    its index keys) none of whose leaves has the dotted path [__proto__].
    The result has exactly one field for every dotted path of a leaf: of a
    scalar or array field of the top level, or of a scalar or array field
    inside nested objects, an array being a leaf and giving its JSON text.
    When several leaves have the same dotted path the field holds the
    value of the one the loop reaches last: a nested object after the top
    level, and of two nested objects the earlier one last. *)
Theorem flatten_writes_leaves (obj : value) :
  is_object obj = true →
  "__proto__" ∉ keys (leaves_of_entries "" (entries obj)) →
  ∃ fields,
    flattenObject obj = VObj fields
    ∧ NoDup (keys fields)
    ∧ (list_to_map fields : gmap string value)
      = list_to_map (reverse (leaves_of_entries "" (entries obj)))
    ∧ (NoDup (keys (leaves_of_entries "" (entries obj))) →
       fields ≡ₚ leaves_of_entries "" (entries obj)).
Proof.
  intros Hobj Hk.
  assert (flattenObject obj
          = VObj (define_all [] (leaves_of_entries "" (entries obj)))) as Heq.
  { rewrite flattenObject_spec by done. by rewrite write_all_plain. }
  eexists. split; [exact Heq|]. split; [|split].
  - apply define_all_NoDup, NoDup_nil_2.
  - rewrite list_to_map_define_all by apply NoDup_nil_2.
    simpl. by rewrite (right_id_L ∅ (∪)).
  - intros Hnd. by rewrite define_all_perm.
Qed.

End FlattenLeaves.

Lemma flatten_writes_leaves_witness :
  ∃ fields,
    flattenObject (VObj [("a", VObj [("b", VNum 1)]); ("a.b", VNum 2);
                         ("c", VObj [("d", VNull)])])
    = VObj fields
    ∧ (list_to_map fields : gmap string value) !! "a.b" = Some (VNum 1).
Proof.
  assert ("__proto__"
          ∉ keys (leaves_of_entries ""
                    (entries (VObj [("a", VObj [("b", VNum 1)]); ("a.b", VNum 2);
                                    ("c", VObj [("d", VNull)])])))) as Hk.
  { apply (bool_decide_unpack _). by vm_compute. }
  destruct (flatten_writes_leaves
              (VObj [("a", VObj [("b", VNum 1)]); ("a.b", VNum 2);
                     ("c", VObj [("d", VNull)])]) eq_refl Hk)
    as (fields & Heq & _ & Hmap & _).
  exists fields. split; [exact Heq|]. rewrite Hmap. reflexivity.
Defined.

(** ** File names *)

Section FileNameFacts.

Import FileName.

Implicit Types (s t a b name : string) (c : Ascii.ascii) (p : Ascii.ascii → bool).

Lemma append_nil_l s : "" +:+ s = s.
Proof. done. Qed.

Lemma append_cons c a b : String c a +:+ b = String c (a +:+ b).
Proof. done. Qed.

Lemma append_nil_r s : s +:+ "" = s.
Proof. induction s as [|c s IH]; [done|]. by rewrite append_cons, IH. Qed.

Lemma string_append_assoc a b t : (a +:+ b) +:+ t = a +:+ b +:+ t.
Proof. induction a as [|c a IH]; [done|]. by rewrite !append_cons, IH. Qed.

Lemma all_chars_app p a b : all_chars p (a +:+ b) = all_chars p a && all_chars p b.
Proof.
  induction a as [|c a IH]; [done|].
  rewrite append_cons. simpl. by rewrite IH, andb_assoc.
Qed.

Lemma all_chars_impl p (q : Ascii.ascii → bool) s :
  (∀ c, p c = true → q c = true) → all_chars p s = true → all_chars q s = true.
Proof.
  intros Hpq. induction s as [|c s IH]; [done|]. simpl.
  rewrite !andb_true_iff. intros [? ?]. split; [by apply Hpq|by apply IH].
Qed.

Lemma has_char_app c a b : has_char c (a +:+ b) = has_char c a || has_char c b.
Proof.
  induction a as [|c' a IH]; [done|].
  rewrite append_cons. simpl. by rewrite IH, orb_assoc.
Qed.

Lemma has_char_middle c a b : has_char c (a +:+ String c b) = true.
Proof.
  rewrite has_char_app. cbn [has_char].
  rewrite bool_decide_eq_true_2 by done. apply orb_true_r.
Qed.

Lemma ends_with_cons c c' s : s ≠ "" → ends_with c (String c' s) = ends_with c s.
Proof. by destruct s. Qed.

Lemma ends_with_app c a b : b ≠ "" → ends_with c (a +:+ b) = ends_with c b.
Proof.
  intros Hb. induction a as [|c' a IH]; [done|].
  rewrite append_cons, ends_with_cons; [done|]. by destruct a, b.
Qed.

Lemma ends_with_has_char c s : has_char c s = false → ends_with c s = false.
Proof.
  induction s as [|c' s IH]; [done|]. simpl.
  rewrite orb_false_iff. intros [Hc Hs]. destruct s; [done|]. by apply IH.
Qed.

(** *** [trim] *)

Lemma trimEnd_cons c s :
  trimEnd (String c s)
  = if bool_decide (trimEnd s = "") && is_whitespace c then ""
    else String c (trimEnd s).
Proof. simpl. destruct (trimEnd s); simpl; by destruct (is_whitespace c). Qed.

Lemma strip_cons c s :
  strip_trailing_dots (String c s)
  = if bool_decide (strip_trailing_dots s = "") && bool_decide (c = dot) then ""
    else String c (strip_trailing_dots s).
Proof.
  simpl. destruct (strip_trailing_dots s); simpl; by destruct (bool_decide (c = dot)).
Qed.

Lemma all_chars_trimStart p s : all_chars p s = true → all_chars p (trimStart s) = true.
Proof.
  induction s as [|c s IH]; [done|]. simpl.
  destruct (is_whitespace c); [|done].
  rewrite andb_true_iff. intros [_ ?]. by apply IH.
Qed.

Lemma all_chars_trimEnd p s : all_chars p s = true → all_chars p (trimEnd s) = true.
Proof.
  induction s as [|c s IH]; [done|]. rewrite trimEnd_cons. simpl.
  rewrite andb_true_iff. intros [Hc Hs].
  destruct (_ && _); [done|]. simpl. by rewrite Hc, IH.
Qed.

Lemma all_chars_strip p s :
  all_chars p s = true → all_chars p (strip_trailing_dots s) = true.
Proof.
  induction s as [|c s IH]; [done|]. rewrite strip_cons. simpl.
  rewrite andb_true_iff. intros [Hc Hs].
  destruct (_ && _); [done|]. simpl. by rewrite Hc, IH.
Qed.

Lemma trimStart_starts s : starts_with_whitespace (trimStart s) = false.
Proof.
  induction s as [|c s IH]; [done|]. simpl.
  destruct (is_whitespace c) eqn:Hc; [done|]. simpl. done.
Qed.

Lemma trimEnd_starts s :
  starts_with_whitespace s = false → starts_with_whitespace (trimEnd s) = false.
Proof. destruct s as [|c s]; [done|]. rewrite trimEnd_cons. by destruct (_ && _). Qed.

Lemma strip_starts s :
  starts_with_whitespace s = false →
  starts_with_whitespace (strip_trailing_dots s) = false.
Proof. destruct s as [|c s]; [done|]. rewrite strip_cons. by destruct (_ && _). Qed.

Lemma strip_ends s : ends_with dot (strip_trailing_dots s) = false.
Proof.
  induction s as [|c s IH]; [done|]. rewrite strip_cons.
  case_bool_decide as Hnil.
  - rewrite Hnil. simpl. case_bool_decide; [done|]. simpl.
    by rewrite bool_decide_eq_false_2.
  - rewrite andb_false_l, ends_with_cons by done. done.
Qed.

Lemma replace_invalid_valid s :
  all_chars (fun c => negb (is_invalid c)) (replace_invalid s) = true.
Proof.
  induction s as [|c s IH]; [done|]. simpl. rewrite IH, andb_true_r.
  by destruct (is_invalid c) eqn:Hc; [|rewrite Hc].
Qed.

Lemma replace_invalid_starts s :
  starts_with_whitespace s = false →
  starts_with_whitespace (replace_invalid s) = false.
Proof. destruct s as [|c s]; [done|]. simpl. by destruct (is_invalid c). Qed.

(** X15: the name [sanitizeFileNameBase] returns has none of the characters
    of [INVALID_FILENAME_CHARS], does not end with a dot and does not start
    with white space, whatever it is given. *)
Theorem sanitized_base_is_clean name : clean_name (sanitizeFileNameBase name).
Proof.
  unfold sanitizeFileNameBase, trim. split; [|split].
  - apply all_chars_strip, replace_invalid_valid.
  - apply strip_ends.
  - apply strip_starts, replace_invalid_starts, trimEnd_starts, trimStart_starts.
Qed.

(** White space can be left at the end: the dots are dropped after the
    trimming. *)
Example sanitized_base_can_end_with_space : sanitizeFileNameBase "a ." = "a ".
Proof. by vm_compute. Qed.

(** *** [getFileNameWithoutExtension] *)

Lemma lastIndexOf_spec c s :
  (lastIndexOf c s = (-1)%Z ∧ has_char c s = false)
  ∨ ∃ a b, s = a +:+ String c b
           ∧ has_char c b = false
           ∧ lastIndexOf c s = Z.of_nat (String.length a).
Proof.
  induction s as [|c' s IH]; [by left|]. simpl.
  destruct IH as [[-> Hno]|(a & b & -> & Hb & ->)].
  - rewrite bool_decide_eq_false_2 by lia. case_bool_decide as Hc.
    + right. subst c'. exists "", s. by rewrite append_nil_l.
    + left. by rewrite Hno.
  - rewrite bool_decide_eq_true_2 by lia. right.
    exists (String c' a), b. rewrite append_cons. split; [done|]. split; [done|].
    simpl. lia.
Qed.

Lemma substring_prefix a b : String.substring 0 (String.length a) (a +:+ b) = a.
Proof.
  induction a as [|c a IH]; [by destruct b|].
  rewrite append_cons. simpl. by rewrite IH.
Qed.

(** The text before the last dot and the text after it determine each
    other. *)
Lemma split_at_last_dot a a' b b' :
  has_char dot b = false → has_char dot b' = false →
  a +:+ String dot b = a' +:+ String dot b' → a = a' ∧ b = b'.
Proof.
  intros Hb Hb'.
  pose proof (has_char_middle dot) as Hdot.
  revert a'. induction a as [|c a IH]; intros [|c' a'];
    rewrite ?append_nil_l, ?append_cons; intros Heq.
  - by injection Heq.
  - injection Heq as _ ->. by rewrite Hdot in Hb.
  - injection Heq as _ <-. by rewrite Hdot in Hb'.
  - injection Heq as <- Heq. by destruct (IH _ Heq) as [-> ->].
Qed.

(** X16: [getFileNameWithoutExtension] cuts the trimmed name at its last
    dot: the result is the non-empty text before that dot, the dropped
    extension having no dot; a trimmed name with no dot, or whose only dot
    is its first character, is returned whole. *)
Theorem extension_is_cut_at_last_dot (fileName : string) :
  let trimmed := trim fileName in
  let base := getFileNameWithoutExtension fileName in
  (∃ ext, trimmed = base +:+ "." +:+ ext
          ∧ has_char dot ext = false
          ∧ base ≠ "")
  ∨ (base = trimmed ∧ ∀ a b, trimmed = a +:+ "." +:+ b → a = "").
Proof.
  intros trimmed base. subst base. unfold getFileNameWithoutExtension.
  fold trimmed. destruct trimmed as [|c0 t0] eqn:Ht.
  { right. split; [done|]. intros [|c a] b; [done|]. by rewrite append_cons. }
  rewrite <- Ht. clear Ht.
  destruct (lastIndexOf_spec dot trimmed) as [[-> Hno]|(a & b & Hsplit & Hb & ->)].
  - right. rewrite bool_decide_eq_true_2 by lia. split; [done|].
    intros a b ->. change ("." +:+ b) with (String dot b) in Hno.
    by rewrite has_char_middle in Hno.
  - destruct a as [|c a].
    + right. rewrite bool_decide_eq_true_2 by (simpl; lia). split; [done|].
      intros a' b' Heq. rewrite Hsplit in Heq.
      change ("." +:+ b') with (String dot b') in Heq.
      destruct a' as [|c' a']; [done|].
      rewrite append_nil_l, append_cons in Heq. injection Heq as _ ->.
      by rewrite has_char_middle in Hb.
    + left. rewrite bool_decide_eq_false_2 by (simpl; lia).
      exists b. unfold slice_to. rewrite Nat2Z.id, Hsplit, substring_prefix.
      done.
Qed.

(** *** Names of plain characters *)

Lemma plain_app a b : plain (a +:+ b) ↔ plain a ∧ plain b.
Proof. unfold plain. by rewrite all_chars_app, andb_true_iff. Qed.

Lemma trimEnd_plain s :
  all_chars (fun c => negb (is_whitespace c)) s = true → trimEnd s = s.
Proof.
  induction s as [|c s IH]; [done|]. simpl.
  rewrite andb_true_iff, negb_true_iff. intros [Hc Hs].
  rewrite IH by done. rewrite Hc. by destruct s.
Qed.

Lemma trim_plain s : plain s → trim s = s.
Proof.
  intros Hs.
  assert (all_chars (fun c => negb (is_whitespace c)) s = true) as Hws.
  { eapply all_chars_impl; [|exact Hs]. intros c. simpl.
    rewrite andb_true_iff. tauto. }
  unfold trim.
  assert (trimStart s = s) as ->.
  { destruct s as [|c s]; [done|]. simpl in *.
    apply andb_true_iff in Hws as [Hc _]. apply negb_true_iff in Hc.
    by rewrite Hc. }
  by apply trimEnd_plain.
Qed.

Lemma replace_invalid_plain s : plain s → replace_invalid s = s.
Proof.
  unfold plain. induction s as [|c s IH]; [done|]. simpl.
  rewrite !andb_true_iff, negb_true_iff. intros [[Hc _] Hs].
  by rewrite Hc, IH.
Qed.

Lemma strip_no_trailing_dot s : ends_with dot s = false → strip_trailing_dots s = s.
Proof.
  induction s as [|c s IH]; [done|]. rewrite strip_cons.
  destruct s as [|c' s].
  - simpl. intros ->. done.
  - rewrite ends_with_cons by done. intros Hs. rewrite IH by done.
    by rewrite bool_decide_eq_false_2.
Qed.

Lemma sanitize_plain s :
  plain s → ends_with dot s = false → sanitizeFileNameBase s = s.
Proof.
  intros Hs Hdot. unfold sanitizeFileNameBase.
  by rewrite trim_plain, replace_invalid_plain, strip_no_trailing_dot.
Qed.

Lemma plain_dot : plain ".".
Proof. by vm_compute. Qed.

Lemma lastIndexOf_app a b :
  has_char dot b = false →
  lastIndexOf dot (a +:+ String dot b) = Z.of_nat (String.length a).
Proof.
  intros Hb.
  destruct (lastIndexOf_spec dot (a +:+ String dot b))
    as [[_ Hno]|(a' & b' & Heq & Hb' & ->)].
  - by rewrite has_char_middle in Hno.
  - by apply split_at_last_dot in Heq as [-> _].
Qed.

Lemma getFileNameWithoutExtension_plain a ext :
  plain a → a ≠ "" → plain ext → has_char dot ext = false →
  getFileNameWithoutExtension (a +:+ "." +:+ ext) = a.
Proof.
  intros Ha Hne Hext Hdot. unfold getFileNameWithoutExtension.
  rewrite trim_plain by (rewrite !plain_app; auto using plain_dot).
  change ("." +:+ ext) with (String dot ext).
  rewrite lastIndexOf_app by done.
  destruct a as [|c a]; [done|]. rewrite append_cons.
  rewrite bool_decide_eq_false_2 by (simpl; lia).
  unfold slice_to. rewrite Nat2Z.id, <- append_cons. apply substring_prefix.
Qed.

(** *** [resolveExportBaseName] and [buildDownloadFileName] *)

Lemma first_normalized_clean (candidates : list (option string)) (n : string) :
  first_normalized candidates = Some n → n ≠ "" ∧ clean_name n.
Proof.
  induction candidates as [|[[|c cand]|] rest IH]; simpl; try done.
  destruct (sanitizeFileNameBase (getFileNameWithoutExtension (String c cand)))
    as [|c' n'] eqn:Hn; [done|].
  intros [= <-]. split; [done|]. rewrite <- Hn. apply sanitized_base_is_clean.
Qed.

Lemma clean_export : clean_name "export".
Proof. by vm_compute. Qed.

(** X17: the base name [resolveExportBaseName] returns is never empty and
    is always a clean name.  It is the normalised preferred name when that
    is not empty; otherwise the normalised source file name when that is not
    empty; otherwise the normalised fallback or, failing that, "export". *)
Theorem export_base_name_usable (preferredName sourceFileName : option string)
    (fallback : string) :
  let normalize := fun x => sanitizeFileNameBase (getFileNameWithoutExtension x) in
  let unusable := fun o : option string =>
                    match o with Some x => normalize x = "" | None => True end in
  let base := resolveExportBaseName preferredName sourceFileName fallback in
  base ≠ "" ∧ clean_name base
  ∧ (∀ x, preferredName = Some x → normalize x ≠ "" → base = normalize x)
  ∧ (∀ x, unusable preferredName → sourceFileName = Some x → normalize x ≠ "" →
          base = normalize x)
  ∧ (unusable preferredName → unusable sourceFileName →
     base = if bool_decide (normalize fallback = "") then "export"
            else normalize fallback).
Proof.
  intros normalize unusable base.
  assert (∀ x, normalize x ≠ "" → ∀ rest,
            first_normalized (Some x :: rest) = Some (normalize x)) as Huse.
  { intros x Hx rest. simpl. destruct x as [|c x]; [done|].
    fold (normalize (String c x)). by destruct (normalize (String c x)). }
  assert (∀ o, unusable o → ∀ rest,
            first_normalized (o :: rest) = first_normalized rest) as Hskip.
  { intros [x|] Ho rest; simpl; [|done]. destruct x as [|c x]; [done|].
    simpl in Ho. fold (normalize (String c x)). by rewrite Ho. }
  split; [|split; [|split; [|split]]].
  - subst base. unfold resolveExportBaseName.
    destruct (first_normalized _) as [n|] eqn:Hn; [|done].
    by destruct (first_normalized_clean _ _ Hn).
  - subst base. unfold resolveExportBaseName.
    destruct (first_normalized _) as [n|] eqn:Hn; [|apply clean_export].
    by destruct (first_normalized_clean _ _ Hn).
  - intros x -> Hx. subst base. unfold resolveExportBaseName.
    by rewrite Huse.
  - intros x Hp -> Hx. subst base. unfold resolveExportBaseName.
    by rewrite Hskip, Huse.
  - intros Hp Hs. subst base. unfold resolveExportBaseName.
    rewrite !Hskip by done. case_bool_decide as Hf.
    + by rewrite (Hskip (Some fallback)).
    + by rewrite Huse.
Qed.

Lemma build_shape (baseName extension : string) :
  ∃ normalizedBase,
    normalizedBase ≠ "" ∧ clean_name normalizedBase
    ∧ buildDownloadFileName baseName extension
      = match WorkerManager.toLowerCase (trim (strip_leading_dot extension)) with
        | EmptyString => normalizedBase
        | e => normalizedBase +:+ "." +:+ e
        end.
Proof.
  unfold buildDownloadFileName.
  destruct (sanitizeFileNameBase (getFileNameWithoutExtension baseName))
    as [|c n] eqn:Hn.
  - exists "export". split; [done|]. split; [apply clean_export|].
    by destruct (WorkerManager.toLowerCase _).
  - exists (String c n). split; [done|]. split.
    + rewrite <- Hn. apply sanitized_base_is_clean.
    + by destruct (WorkerManager.toLowerCase _).
Qed.

(** X18: the name [handleConvert] gives a download is never just an
    extension: it is a non-empty clean name followed by [.xlsx] when
    exporting to Excel and by [.json] when exporting to JSON, whatever the
    export name typed in and the name of the uploaded file; when neither
    gives a usable name it is [json_data.xlsx] or [excel_data.json]. *)
Theorem download_name_of_convert (mode : Converter.ConversionMode)
    (exportFileName : string) (fileName : option string) :
  (∃ base, base ≠ "" ∧ clean_name base
           ∧ Converter.downloadName mode exportFileName fileName
             = base +:+ match mode with
                        | Converter.json_to_excel => ".xlsx"
                        | Converter.excel_to_json => ".json"
                        end)
  ∧ (sanitizeFileNameBase (getFileNameWithoutExtension exportFileName) = "" →
     match fileName with
     | Some x => sanitizeFileNameBase (getFileNameWithoutExtension x) = ""
     | None => True
     end →
     Converter.downloadName mode exportFileName fileName
     = match mode with
       | Converter.json_to_excel => "json_data.xlsx"
       | Converter.excel_to_json => "excel_data.json"
       end).
Proof.
  split.
  - unfold Converter.downloadName.
    destruct (build_shape
                (resolveExportBaseName (Some exportFileName) fileName
                   match mode with
                   | Converter.json_to_excel => "json_data"
                   | Converter.excel_to_json => "excel_data"
                   end)
                match mode with
                | Converter.json_to_excel => "xlsx"
                | Converter.excel_to_json => "json"
                end) as (base & Hne & Hclean & ->).
    exists base. split; [done|]. split; [done|]. by destruct mode.
  - intros Hp Hs. unfold Converter.downloadName.
    destruct (export_base_name_usable (Some exportFileName) fileName
                match mode with
                | Converter.json_to_excel => "json_data"
                | Converter.excel_to_json => "excel_data"
                end) as (_ & _ & _ & _ & ->); [|exact Hp|exact Hs].
    destruct mode; by vm_compute.
Qed.

(** X19: a resolved base name is cut at its last dot once more when the
    download name is built.  For a name [stem.e1.e2] of plain characters
    (no white space, no invalid character; [stem] not empty and not ending
    with a dot, [e1] not empty, no dot in [e1] and [e2]) the download is
    called [stem.xlsx] (or [.json], [.csv]): both [e2] and [e1] are
    dropped. *)
Theorem download_name_drops_two_suffixes (stem e1 e2 : string)
    (sourceFileName : option string) (fallback ext : string) :
  plain stem → stem ≠ "" → ends_with dot stem = false →
  plain e1 → e1 ≠ "" → has_char dot e1 = false →
  plain e2 → has_char dot e2 = false →
  ext ∈ ["xlsx"; "json"; "csv"] →
  resolveExportBaseName (Some (stem +:+ "." +:+ e1 +:+ "." +:+ e2))
    sourceFileName fallback
  = stem +:+ "." +:+ e1
  ∧ buildDownloadFileName
      (resolveExportBaseName (Some (stem +:+ "." +:+ e1 +:+ "." +:+ e2))
         sourceFileName fallback) ext
    = stem +:+ "." +:+ ext.
Proof.
  intros Hstem Hne Hend He1 Hne1 Hdot1 He2 Hdot2 Hext.
  assert (plain (stem +:+ "." +:+ e1)) as Hplain1
    by (rewrite !plain_app; auto using plain_dot).
  assert (stem +:+ "." +:+ e1 ≠ "") as Hne' by (by destruct stem).
  assert (ends_with dot (stem +:+ "." +:+ e1) = false) as Hend1.
  { rewrite ends_with_app by (by destruct e1).
    change ("." +:+ e1) with (String dot e1).
    rewrite ends_with_cons by done. by apply ends_with_has_char. }
  assert (getFileNameWithoutExtension (stem +:+ "." +:+ e1 +:+ "." +:+ e2)
          = stem +:+ "." +:+ e1) as Hcut2.
  { rewrite <- (getFileNameWithoutExtension_plain (stem +:+ "." +:+ e1) e2)
      by done.
    f_equal. by rewrite !string_append_assoc. }
  assert (resolveExportBaseName (Some (stem +:+ "." +:+ e1 +:+ "." +:+ e2))
            sourceFileName fallback = stem +:+ "." +:+ e1) as Hresolve.
  { destruct (export_base_name_usable
                (Some (stem +:+ "." +:+ e1 +:+ "." +:+ e2)) sourceFileName fallback)
      as (_ & _ & Hpref & _).
    rewrite (Hpref _ eq_refl); rewrite Hcut2, sanitize_plain; done. }
  split; [done|]. rewrite Hresolve. unfold buildDownloadFileName.
  rewrite getFileNameWithoutExtension_plain, sanitize_plain by done.
  destruct stem as [|c stem]; [done|].
  set_unfold in Hext. destruct Hext as [->|[->|[->|[]]]]; done.
Qed.

End FileNameFacts.

Lemma download_name_drops_two_suffixes_witness :
  FileName.buildDownloadFileName
    (FileName.resolveExportBaseName (Some "archive.tar.gz") None "json_data") "xlsx"
  = "archive.xlsx".
Proof.
  refine (proj2 (download_name_drops_two_suffixes "archive" "tar" "gz" None
                   "json_data" "xlsx" _ _ _ _ _ _ _ _ _));
    try (by vm_compute); set_solver.
Defined.

Lemma export_base_name_usable_witness :
  FileName.resolveExportBaseName (Some "report.v2.json") None "json_data"
  = FileName.sanitizeFileNameBase
      (FileName.getFileNameWithoutExtension "report.v2.json").
Proof.
  refine (proj1 (proj2 (proj2 (export_base_name_usable (Some "report.v2.json") None
                                 "json_data"))) "report.v2.json" eq_refl _).
  by vm_compute.
Defined.

Lemma download_name_of_convert_witness :
  Converter.downloadName Converter.json_to_excel "" None = "json_data.xlsx".
Proof.
  exact (proj2 (download_name_of_convert Converter.json_to_excel "" None) eq_refl I).
Defined.

(** ** Recognising a cancellation *)

Section Cancelled.

Implicit Types (s sub pre post : string).

Lemma prefix_spec sub s : String.prefix sub s = true ↔ ∃ post, s = sub +:+ post.
Proof.
  revert s. induction sub as [|c sub IH]; intros s.
  - split; [intros _; by exists s|]. by destruct s.
  - destruct s as [|c' s]; simpl.
    + split; [done|]. by intros [post ?].
    + destruct (Ascii.ascii_dec c c') as [->|Hne].
      * rewrite IH. split; intros [post Hpost]; exists post.
        -- by rewrite Hpost.
        -- rewrite append_cons in Hpost. by injection Hpost.
      * split; [done|]. intros [post Hpost].
        rewrite append_cons in Hpost. by injection Hpost as -> _.
Qed.

Lemma includes_spec sub s :
  includes sub s = true ↔ ∃ pre post, s = pre +:+ sub +:+ post.
Proof.
  induction s as [|c s IH].
  - cbn [includes]. rewrite orb_false_r, prefix_spec. split.
    + intros [post ->]. by exists "", post.
    + intros ([|c pre] & post & Heq); [by exists post|].
      by rewrite append_cons in Heq.
  - cbn [includes]. rewrite orb_true_iff, IH, prefix_spec. split.
    + intros [[post ->]|(pre & post & ->)].
      * by exists "", post.
      * exists (String c pre), post. by rewrite append_cons.
    + intros ([|c' pre] & post & Heq).
      * left. by exists post.
      * right. rewrite append_cons in Heq. injection Heq as _ ->.
        by exists pre, post.
Qed.

Lemma toLowerCase_app pre post :
  toLowerCase (pre +:+ post) = toLowerCase pre +:+ toLowerCase post.
Proof.
  induction pre as [|c pre IH]; [done|].
  rewrite append_cons. simpl. by rewrite IH.
Qed.

(** X20: [isCancelledError] holds of a string, or of an [Error] by its
    message, exactly when the text, put in lower case, has the letters
    "cancel" somewhere in it, and of nothing else; so a reason that carries
    "cancel" in any mix of cases, anywhere, is recognised. *)
Theorem isCancelledError_spec (error : unknown) :
  (isCancelledError error = true
   ↔ ∃ text, (error = AString text ∨ error = AnError text)
             ∧ ∃ pre post, toLowerCase text = pre +:+ "cancel" +:+ post)
  ∧ ∀ pre word post,
      toLowerCase word = "cancel" →
      isCancelledError (AString (pre +:+ word +:+ post)) = true
      ∧ isCancelledError (AnError (pre +:+ word +:+ post)) = true.
Proof.
  split.
  - destruct error as [text|text|]; simpl; rewrite ?includes_spec.
    + split; [intros H; exists text; by split; [left|]|].
      by intros (? & [[= <-]|[=]] & ?).
    + split; [intros H; exists text; by split; [right|]|].
      by intros (? & [[=]|[= <-]] & ?).
    + split; [done|]. by intros (? & [[=]|[=]] & ?).
  - intros pre word post Hword. simpl.
    rewrite !toLowerCase_app, Hword, includes_spec. split; by eexists _, _.
Qed.

End Cancelled.

Lemma isCancelledError_spec_witness :
  isCancelledError (AString ("Request " +:+ "CANCEL" +:+ "LED by user")) = true.
Proof.
  exact (proj1 (proj2 (isCancelledError_spec Other)
                      "Request " "CANCEL" "LED by user" eq_refl)).
Defined.

(** ** The editable preview table *)

Section DataTableFacts.

Import DataTable.

Implicit Types (data rows : list value) (set l : list string) (k : string).

Lemma set_add_fold_elem set l k :
  k ∈ foldl set_add set l ↔ k ∈ set ∨ k ∈ l.
Proof.
  revert set. induction l as [|x l IH]; intros set; simpl.
  - rewrite elem_of_nil. tauto.
  - rewrite IH, elem_of_cons. unfold set_add. case_decide as Hx.
    + split; [tauto|]. intros [?|[->|?]]; tauto.
    + rewrite elem_of_app, list_elem_of_singleton. tauto.
Qed.

Lemma set_add_fold_NoDup set l : NoDup set → NoDup (foldl set_add set l).
Proof.
  revert set. induction l as [|x l IH]; intros set Hset; simpl; [done|].
  apply IH. unfold set_add. case_decide as Hx; [done|].
  apply NoDup_app. split; [done|]. split; [|apply NoDup_singleton].
  by intros y Hy ->%list_elem_of_singleton.
Qed.

Lemma set_add_fold_prefix set l : set `prefix_of` foldl set_add set l.
Proof.
  revert set. induction l as [|x l IH]; intros set; simpl; [done|].
  etrans; [|apply IH]. unfold set_add. case_decide; [done|].
  by apply prefix_app_r.
Qed.

Lemma set_add_fold_app set l1 l2 :
  foldl set_add set (l1 ++ l2) = foldl set_add (foldl set_add set l1) l2.
Proof. apply foldl_app. Qed.

(** Adding keys that are all there already changes nothing. *)
Lemma set_add_fold_known set l : (∀ k, k ∈ l → k ∈ set) → foldl set_add set l = set.
Proof.
  revert set. induction l as [|x l IH]; intros set Hl; simpl; [done|].
  unfold set_add at 2. rewrite decide_True by (apply Hl; by left).
  apply IH. intros k Hk. apply Hl. by right.
Qed.

Lemma keys_cells rows :
  keys (cells rows)
  = rows ≫= (fun item => if is_object item then keys (entries item) else []).
Proof.
  induction rows as [|row rows IH]; [done|].
  rewrite cells_cons, bind_cons, <- IH. unfold keys. rewrite fmap_app.
  by destruct (is_object row).
Qed.

Lemma headers_elem rows k : k ∈ headers rows ↔ k ∈ columns (cells rows).
Proof.
  unfold headers, columns. rewrite set_add_fold_elem, elem_of_list_to_set, keys_cells.
  rewrite elem_of_nil. tauto.
Qed.

Lemma headers_NoDup rows : NoDup (headers rows).
Proof. apply set_add_fold_NoDup, NoDup_nil_2. Qed.

Lemma headers_app rows more :
  headers (rows ++ more)
  = foldl set_add (headers rows)
      (more ≫= (fun item => if is_object item then keys (entries item) else [])).
Proof. unfold headers. by rewrite bind_app, set_add_fold_app. Qed.

Lemma effectiveData_take (maxRows : option nat) rows :
  ∃ n, effectiveData maxRows rows = take n rows.
Proof.
  destruct maxRows as [[|m]|]; simpl.
  - exists (length rows). by rewrite firstn_all.
  - case_decide; [exists (length rows); by rewrite firstn_all|].
    exists (S m). apply slice_0.
  - exists (length rows). by rewrite firstn_all.
Qed.

(** X21: the column headers of the table are the distinct keys of the rows
    that are objects, each once, in the order in which they are first seen:
    rows added at the end never reorder the headers there are, and capping
    the rows at [maxRows] only cuts the list of headers short.  They are
    the columns the guard counts, so a table of rows the guard accepted has
    at most 500 of them. *)
Theorem table_headers rows more (maxRows : option nat) (ctx : string) :
  NoDup (headers rows)
  ∧ (∀ k, k ∈ headers rows
          ↔ ∃ row, row ∈ rows ∧ is_object row = true ∧ k ∈ keys (entries row))
  ∧ headers rows `prefix_of` headers (rows ++ more)
  ∧ headers (effectiveData maxRows rows) `prefix_of` headers rows
  ∧ length (headers rows) = size (columns (cells rows))
  ∧ (enforceTabularLimits rows ctx = inr () → length (headers rows) ≤ 500).
Proof.
  assert (length (headers rows) = size (columns (cells rows))) as Hsize.
  { rewrite <- (size_list_to_set (C := gset string) (headers rows))
      by apply headers_NoDup.
    f_equal. apply set_eq. intros k.
    by rewrite elem_of_list_to_set, headers_elem. }
  split; [apply headers_NoDup|]. split; [|split; [|split; [|split; [done|]]]].
  - intros k. rewrite headers_elem. unfold columns.
    rewrite elem_of_list_to_set, keys_cells, list_elem_of_bind.
    split; intros (row & H1 & H2).
    + exists row. destruct (is_object row); [done|]. by apply elem_of_nil in H1.
    + destruct H2 as [Hobj Hk]. exists row. by rewrite Hobj.
  - rewrite headers_app. apply set_add_fold_prefix.
  - destruct (effectiveData_take maxRows rows) as [n ->].
    rewrite <- (take_drop n rows) at 2. rewrite headers_app.
    apply set_add_fold_prefix.
  - intros Hok. apply enforce_ok_iff in Hok as (_ & Hcols & _).
    unfold MAX_COLUMNS in Hcols. lia.
Qed.

Lemma blank_row_fields l :
  foldl (fun acc header => define_prop header (VStr "") acc) [] l
  = define_all [] ((fun header => (header, VStr "")) <$> l).
Proof. unfold define_all. by rewrite foldl_fmap. Qed.

(** X22: [handleAddRow] appends one row and touches no other: the new row
    is an object holding every header of the table, once, with the empty
    string as its value, and nothing else; and the headers of the table
    stay what they were. *)
Theorem added_row_is_blank data :
  let added := handleAddRow (headers data) data in
  (∃ newRow,
     added = data ++ [VObj newRow]
     ∧ NoDup (keys newRow)
     ∧ ∀ k v, (k, v) ∈ newRow ↔ k ∈ headers data ∧ v = VStr "")
  ∧ length added = S (length data)
  ∧ headers added = headers data.
Proof.
  intros added. subst added. unfold handleAddRow.
  rewrite blank_row_fields.
  assert (keys ((fun header => (header, VStr "")) <$> headers data) = headers data)
    as Hkeys.
  { unfold keys. rewrite <- list_fmap_compose. apply list_fmap_id. }
  assert (define_all [] ((fun header => (header, VStr "")) <$> headers data)
          ≡ₚ (fun header => (header, VStr "")) <$> headers data) as Hperm.
  { apply define_all_perm. simpl. rewrite Hkeys. apply headers_NoDup. }
  split; [|split].
  - eexists. split; [done|]. split.
    + apply define_all_NoDup, NoDup_nil_2.
    + intros k v. rewrite Hperm, list_elem_of_fmap. split.
      * by intros (h & [= -> ->] & Hh).
      * intros [Hk ->]. by exists k.
  - rewrite length_app. simpl. lia.
  - rewrite headers_app. simpl. rewrite app_nil_r.
    apply set_add_fold_known. intros k Hk.
    unfold keys in Hk. rewrite Hperm in Hk.
    fold (keys ((fun header => (header, VStr "")) <$> headers data)) in Hk.
    by rewrite Hkeys in Hk.
Qed.

Lemma filter_index_shift {A : Type} (f : nat → nat) (rowIndex : nat) (l : list A) :
  (∀ i, f i ≠ rowIndex) →
  (filter (fun ir => ir.1 ≠ rowIndex) (imap (fun i row => (f i, row)) l)).*2 = l.
Proof.
  intros Hf. revert f Hf. induction l as [|x l IH]; intros f Hf; [done|].
  simpl. rewrite filter_cons_True by (simpl; apply Hf). simpl.
  f_equal. apply (IH (f ∘ S)). intros i. apply Hf.
Qed.

Lemma filter_index_delete {A : Type} (f : nat → nat) (rowIndex n : nat) (l : list A) :
  (∀ i, f i = n + i) → n ≤ rowIndex →
  (filter (fun ir => ir.1 ≠ rowIndex) (imap (fun i row => (f i, row)) l)).*2
  = delete (rowIndex - n) l.
Proof.
  revert f n. induction l as [|x l IH]; intros f n Hf Hn; [done|].
  simpl. destruct (decide (f 0 = rowIndex)) as [Heq|Hne].
  - rewrite filter_cons_False by (simpl; tauto).
    rewrite Hf in Heq. replace (rowIndex - n) with 0 by lia. simpl.
    apply filter_index_shift. intros i. unfold compose. rewrite Hf. lia.
  - rewrite filter_cons_True by done. simpl.
    rewrite Hf in Hne.
    replace (rowIndex - n) with (S (rowIndex - S n)) by lia. simpl. f_equal.
    apply IH; [|lia]. intros i. unfold compose. rewrite Hf. lia.
Qed.

(** X23: [handleDeleteRow] removes exactly the row at [rowIndex] and keeps
    the others in their order; an index past the end removes nothing; no
    header appears that was not there. *)
Theorem deleted_row_only rowIndex data :
  let left := handleDeleteRow rowIndex data in
  left = take rowIndex data ++ drop (S rowIndex) data
  ∧ (rowIndex < length data → S (length left) = length data)
  ∧ (length data ≤ rowIndex → left = data)
  ∧ (∀ k, k ∈ headers left → k ∈ headers data).
Proof.
  intros left.
  assert (left = delete rowIndex data) as Hdel.
  { subst left. unfold handleDeleteRow.
    rewrite (filter_index_delete (fun i => i) rowIndex 0) by (done || lia).
    by rewrite Nat.sub_0_r. }
  assert (left = take rowIndex data ++ drop (S rowIndex) data) as Htd.
  { rewrite Hdel. apply delete_take_drop. }
  split; [done|]. split; [|split].
  - intros Hlt. rewrite Hdel, length_delete; [lia|]. by apply lookup_lt_is_Some_2.
  - intros Hge. rewrite Htd, take_ge, drop_ge by lia. by rewrite app_nil_r.
  - intros k. rewrite !headers_elem. unfold columns.
    rewrite !elem_of_list_to_set. unfold keys, cells.
    rewrite !list_elem_of_fmap. intros (kv & -> & Hkv). exists kv. split; [done|].
    apply list_elem_of_bind in Hkv as (row & Hkv & Hrow).
    apply list_elem_of_bind. exists row. split; [done|].
    rewrite Htd in Hrow. apply elem_of_app in Hrow as [Hrow|Hrow].
    + by apply (subseteq_take rowIndex data).
    + by apply (subseteq_drop (S rowIndex) data).
Qed.

(** X24: [handleCellCommit] on a row that is an object with distinct keys:
    the row keeps its other cells, the edited cell holds the committed
    text, every other row is untouched and the number of rows is the same;
    the table keeps all its columns and gains at most the edited one. *)
Theorem committed_cell_only rowIndex (columnId text : string) data (fields : record) :
  data !! rowIndex = Some (VObj fields) →
  NoDup (keys fields) →
  ∃ edited,
    handleCellCommit rowIndex columnId text data = Some edited
    ∧ length edited = length data
    ∧ (∀ j, j ≠ rowIndex → edited !! j = data !! j)
    ∧ (∃ fields',
         edited !! rowIndex = Some (VObj fields')
         ∧ NoDup (keys fields')
         ∧ ∀ k v, (k, v) ∈ fields'
                  ↔ (k = columnId ∧ v = VStr text) ∨ (k ≠ columnId ∧ (k, v) ∈ fields))
    ∧ (∀ k, k ∈ headers edited ↔ k = columnId ∨ k ∈ headers data).
Proof.
  intros Hrow Hnd. unfold handleCellCommit.
  rewrite Hrow. simpl. eexists. split; [done|].
  split; [apply length_insert|]. split; [|split].
  - intros j Hj. by rewrite list_lookup_insert_ne.
  - exists (define_prop columnId (VStr text) fields). split; [|split].
    + apply list_lookup_insert_eq. by eapply lookup_lt_Some.
    + by apply define_prop_NoDup.
    + intros k v. apply define_prop_lookup.
  - intros k. rewrite !headers_elem. unfold columns.
    rewrite !elem_of_list_to_set. unfold keys, cells.
    rewrite !list_elem_of_fmap.
    assert (∀ row, row ∈ <[rowIndex := VObj (define_prop columnId (VStr text) fields)]> data
                   ↔ row = VObj (define_prop columnId (VStr text) fields)
                     ∨ ∃ j, j ≠ rowIndex ∧ data !! j = Some row) as Hmem.
    { intros row. rewrite list_elem_of_lookup. split.
      - intros [j Hj]. destruct (decide (j = rowIndex)) as [->|Hne].
        + rewrite list_lookup_insert_eq in Hj by (by eapply lookup_lt_Some).
          left. by injection Hj.
        + rewrite list_lookup_insert_ne in Hj by done. right. by exists j.
      - intros [->|(j & Hne & Hj)].
        + exists rowIndex. apply list_lookup_insert_eq. by eapply lookup_lt_Some.
        + exists j. by rewrite list_lookup_insert_ne. }
    split.
    + intros (kv & -> & Hkv).
      apply list_elem_of_bind in Hkv as (row & Hkv & Hin).
      apply Hmem in Hin as [->|(j & Hne & Hj)].
      * simpl in Hkv. destruct kv as [k v].
        apply define_prop_lookup in Hkv as [[-> _]|[_ Hkv]]; [by left|].
        right. exists (k, v). split; [done|].
        apply list_elem_of_bind. exists (VObj fields). split; [done|].
        by eapply list_elem_of_lookup_2.
      * right. exists kv. split; [done|].
        apply list_elem_of_bind. exists row. split; [done|].
        by eapply list_elem_of_lookup_2.
    + intros [->|(kv & -> & Hkv)].
      * exists (columnId, VStr text). split; [done|].
        apply list_elem_of_bind.
        exists (VObj (define_prop columnId (VStr text) fields)). split.
        -- simpl. apply define_prop_lookup. by left.
        -- apply Hmem. by left.
      * apply list_elem_of_bind in Hkv as (row & Hkv & Hin).
        apply list_elem_of_lookup in Hin as [j Hj].
        destruct (decide (j = rowIndex)) as [->|Hne].
        -- rewrite Hrow in Hj. injection Hj as <-. simpl in Hkv.
           destruct kv as [k v]. destruct (decide (k = columnId)) as [->|Hk].
           ++ exists (columnId, VStr text). split; [done|].
              apply list_elem_of_bind.
              exists (VObj (define_prop columnId (VStr text) fields)). split.
              ** simpl. apply define_prop_lookup. by left.
              ** apply Hmem. by left.
           ++ exists (k, v). split; [done|].
              apply list_elem_of_bind.
              exists (VObj (define_prop columnId (VStr text) fields)). split.
              ** simpl. apply define_prop_lookup. by right.
              ** apply Hmem. by left.
        -- exists kv. split; [done|].
           apply list_elem_of_bind. exists row. split; [done|].
           apply Hmem. right. by exists j.
Qed.

End DataTableFacts.

Lemma committed_cell_only_witness :
  ∃ edited,
    DataTable.handleCellCommit 1 "b" "x" [VObj [("a", VNum 1)]; VObj [("a", VNum 2)]]
    = Some edited
    ∧ length edited = 2.
Proof.
  destruct (committed_cell_only 1 "b" "x"
              [VObj [("a", VNum 1)]; VObj [("a", VNum 2)]]
              [("a", VNum 2)] eq_refl) as (edited & Heq & Hlen & _).
  { apply (bool_decide_unpack _). by vm_compute. }
  exists edited. split; [exact Heq|exact Hlen].
Defined.

Lemma table_headers_witness :
  length (DataTable.headers [VObj [("a", VNum 1); ("b", VNull)]; VObj [("b", VNum 2)]])
  ≤ 500.
Proof.
  refine (proj2 (proj2 (proj2 (proj2 (proj2
            (table_headers [VObj [("a", VNum 1); ("b", VNull)]; VObj [("b", VNum 2)]]
               [] None "Preview parse"))))) _).
  by vm_compute.
Defined.

Lemma deleted_row_only_witness :
  DataTable.handleDeleteRow 5 [VNum 1; VNum 2] = [VNum 1; VNum 2].
Proof.
  refine (proj1 (proj2 (proj2 (deleted_row_only 5 [VNum 1; VNum 2]))) _).
  simpl. lia.
Defined.

(** ** The tree view *)

Section TreeFacts.

Import JsonTree.

Variables (defaultExpanded : bool) (expandedPaths : gset string).

Abbreviation rows_of := (preorder defaultExpanded expandedPaths).
Abbreviation rows_of_stack := (preorder_stack defaultExpanded expandedPaths).

Lemma preorder_stack_cons (n : JsonNode) (depth : nat) stack :
  rows_of_stack ((n, depth) :: stack) = rows_of depth n ++ rows_of_stack stack.
Proof. done. Qed.

Lemma preorder_unfold (depth : nat) (n : JsonNode) :
  rows_of depth n
  = row n depth ::
    if expanded defaultExpanded expandedPaths n
    then rows_of_stack (pushed n depth)
    else [].
Proof.
  destruct n as [k v t p [kids|]]; cbn [preorder].
  2:{ destruct (expanded defaultExpanded expandedPaths _) eqn:He; [|done].
      unfold expanded, has_children in He. simpl in He. done. }
  destruct (expanded defaultExpanded expandedPaths _); [|done]. f_equal.
  unfold pushed, child_list. cbn [children].
  assert (∀ (budget : nat) (l : list JsonNode),
            (fix go (budget : nat) (l : list JsonNode) {struct l} : list FlatNode :=
               match l, budget with
               | x :: l', S budget' => rows_of (depth + 1) x ++ go budget' l'
               | _, _ => []
               end) budget l
            = rows_of_stack ((fun c => (c, depth + 1)) <$> take budget l)) as Hgo.
  { intros budget l. revert budget.
    induction l as [|x l IH]; intros [|budget]; try done.
    rewrite firstn_cons, fmap_cons, preorder_stack_cons. simpl. by rewrite IH. }
  rewrite Hgo. case_decide as Hcount.
  - unfold preorder_stack. rewrite bind_app. by f_equal.
  - rewrite app_nil_r, take_ge by lia. done.
Qed.

Lemma preorder_stack_app (s1 s2 : list (JsonNode * nat)) :
  rows_of_stack (s1 ++ s2) = rows_of_stack s1 ++ rows_of_stack s2.
Proof. apply bind_app. Qed.

(** One more row within the budget. *)
Lemma budget_step {A : Type} (limit : nat) (result : list A) (r : A)
    (rest : list A) (t : A) :
  length result < limit →
  (if decide (length (result ++ [r]) + length rest ≤ limit)
   then (result ++ [r]) ++ rest
   else (result ++ [r]) ++ take (limit - length (result ++ [r])) rest ++ [t])
  = if decide (length result + length (r :: rest) ≤ limit)
    then result ++ r :: rest
    else result ++ take (limit - length result) (r :: rest) ++ [t].
Proof.
  intros Hroom. rewrite length_app. cbn [length].
  replace (limit - length result) with (S (limit - (length result + 1))) by lia.
  rewrite firstn_cons.
  repeat case_decide; try lia; by rewrite <- !app_assoc.
Qed.

(** What the loop returns, from the rows still to come. *)
Lemma loop_spec (stack : list (JsonNode * nat)) (result : list FlatNode) :
  length result ≤ GLOBAL_RENDER_LIMIT →
  loop defaultExpanded expandedPaths stack result
  = if decide (length result + length (rows_of_stack stack) ≤ GLOBAL_RENDER_LIMIT)
    then result ++ rows_of_stack stack
    else result
         ++ take (GLOBAL_RENDER_LIMIT - length result) (rows_of_stack stack)
         ++ [truncated_global].
Proof.
  funelim (loop defaultExpanded expandedPaths stack result); intros Hlen.
  - simpl. rewrite decide_True by (simpl; lia). by rewrite app_nil_r.
  - rewrite preorder_stack_cons, preorder_unfold.
    match goal with
    | |- context [row ?n0 ?d0 :: _] => set (r := row n0 d0) in *
    end.
    destruct (decide (GLOBAL_RENDER_LIMIT ≤ length result)) as [Hfull|Hroom].
    + rewrite decide_False by (simpl; lia).
      replace (GLOBAL_RENDER_LIMIT - length result) with 0 by lia. done.
    + assert (length (result ++ [r]) ≤ GLOBAL_RENDER_LIMIT) as Hlen'
        by (rewrite length_app; simpl; lia).
      destruct (expanded defaultExpanded expandedPaths n).
      * rewrite H by done. rewrite preorder_stack_app.
        apply budget_step. lia.
      * rewrite H0 by done. apply budget_step. lia.
Qed.

(** X25: [visibleNodes] is the tree in document order, cut to the render
    budget: the rows of the root, then of each expanded node's first 200
    children in turn (a placeholder row standing for the rest), every node
    right before its own descendants; when these are more than 15000 rows
    the first 15000 are returned, followed by the row that says the view is
    truncated. *)
Theorem visible_nodes_in_document_order (data : JsonNode) :
  visibleNodes data defaultExpanded expandedPaths
  = if decide (length (rows_of 0 data) ≤ GLOBAL_RENDER_LIMIT)
    then rows_of 0 data
    else take GLOBAL_RENDER_LIMIT (rows_of 0 data) ++ [truncated_global].
Proof.
  unfold visibleNodes. rewrite loop_spec by (simpl; lia).
  rewrite preorder_stack_cons.
  change (rows_of_stack []) with (@nil FlatNode).
  rewrite !app_nil_r. cbn [length app]. by rewrite Nat.sub_0_r.
Qed.

(** X26: the tree view never renders more than 15001 rows; its first row is
    the root at depth 0; a collapsed root is the only row; and the last row
    is the truncation notice exactly when rows were left out. *)
Theorem visible_nodes_bounded (data : JsonNode) :
  let shown := visibleNodes data defaultExpanded expandedPaths in
  length shown ≤ S GLOBAL_RENDER_LIMIT
  ∧ shown !! 0 = Some (row data 0)
  ∧ (expanded defaultExpanded expandedPaths data = false → shown = [row data 0])
  ∧ (GLOBAL_RENDER_LIMIT < length (rows_of 0 data)
     ↔ last shown = Some truncated_global ∧ length shown = S GLOBAL_RENDER_LIMIT).
Proof.
  intros shown. subst shown. rewrite visible_nodes_in_document_order.
  assert (0 < GLOBAL_RENDER_LIMIT) as Hpos by (unfold GLOBAL_RENDER_LIMIT; lia).
  assert (rows_of 0 data !! 0 = Some (row data 0)) as Hfirst
    by (by rewrite preorder_unfold).
  case_decide as Hfit.
  - split; [lia|]. split; [done|]. split.
    + intros Hcollapsed. by rewrite preorder_unfold, Hcollapsed.
    + split; [lia|]. intros [_ Hlen]. lia.
  - assert (length (take GLOBAL_RENDER_LIMIT (rows_of 0 data) ++ [truncated_global])
            = S GLOBAL_RENDER_LIMIT) as Hlen.
    { rewrite length_app, length_take. cbn [length]. lia. }
    split; [lia|]. split; [|split].
    + rewrite lookup_app_l by (rewrite length_take; lia).
      rewrite lookup_take_lt by lia. done.
    + intros Hcollapsed. rewrite preorder_unfold, Hcollapsed in Hfit.
      cbn [length] in Hfit. lia.
    + split; [|lia]. intros _. split; [apply last_snoc|done].
Qed.

End TreeFacts.

Lemma visible_nodes_bounded_witness :
  JsonTree.visibleNodes
    (JsonTree.mkJsonNode "root" VNull "object" "root"
       (Some [JsonTree.mkJsonNode "a" (VNum 1) "number" "root.a" None]))
    false ∅
  = [JsonTree.row
       (JsonTree.mkJsonNode "root" VNull "object" "root"
          (Some [JsonTree.mkJsonNode "a" (VNum 1) "number" "root.a" None])) 0].
Proof.
  exact (proj1 (proj2 (proj2
           (visible_nodes_bounded false ∅
              (JsonTree.mkJsonNode "root" VNull "object" "root"
                 (Some [JsonTree.mkJsonNode "a" (VNum 1) "number" "root.a" None])))))
         eq_refl).
Defined.
